(** * Identity reconciliation (identifyService.ts): a shallow embedding

    The Prisma store is a table of [Contact] rows with an auto-increment
    counter.  [identifyContact] is written in a small state-and-error monad
    over that store; every call to the Prisma client is one step of the
    monad, is recorded in a log, and may be rejected by the store.

    The first part holds the definitions: the data model, the queries, the
    store, [buildResponse] and [identifyContact], then the names and
    invariants that the statements use.  The second part holds the
    properties: how a call runs on a store that does not fail, what any run
    creates, what a merge does row by row, and the theorems on the
    response lists, the errors, the creation of contacts, the choice of the
    true primary, the merge and the idempotence of a call.

    After them come the properties of runs on any store (what a run keeps,
    what it can throw, every table it can leave behind), the invariants of
    a history of calls, the response as a description of the cluster in
    the table, the clusters as classes of identifiers, and the route
    POST /identify of app.ts over [identifyContact]. *)

From Stdlib Require Import ZArith String Bool Lia List ListSet Sorted.
Import ListNotations.
Local Open Scope Z_scope.

(** ** Data model *)

(** Modelled from the spec: the [Contact] model of prisma/schema.prisma, which
    is not among the sources (section 3 of the specification): the column
    [linkPrecedence] holds one of the two values written by the service. *)
Inductive LinkPrecedence : Type :=
| primary
| secondary.

Module Contact.
(** Modelled from the spec: the columns of the [Contact] model of
    prisma/schema.prisma.  Timestamps are milliseconds since the epoch
    ([Date.getTime]); [None] is SQL NULL. *)
Record t : Type := mk {
  id : Z;
  email : option string;
  phoneNumber : option string;
  linkedId : option Z;
  linkPrecedence : LinkPrecedence;
  createdAt : Z;
  updatedAt : Z;
  deletedAt : option Z
}.
End Contact.

Module IdentifyRequest.
(** [email?: string | null]: [None] stands for both [undefined] and [null],
    which the function never tells apart. *)
Record t : Type := mk {
  email : option string;
  phoneNumber : option string
}.
End IdentifyRequest.

Module IdentifyResponse.
(** The [contact] object of the response. *)
Record t : Type := mk {
  primaryContactId : Z;
  emails : list string;
  phoneNumbers : list string;
  secondaryContactIds : list Z
}.
End IdentifyResponse.

Definition isPrimary (c : Contact.t) : bool :=
  match Contact.linkPrecedence c with primary => true | secondary => false end.

Definition isSecondary (c : Contact.t) : bool :=
  match Contact.linkPrecedence c with primary => false | secondary => true end.

(** [deletedAt: null] *)
Definition notDeleted (c : Contact.t) : bool :=
  match Contact.deletedAt c with None => true | Some _ => false end.

(** JavaScript truthiness of a [string | null | undefined] value. *)
Definition truthy (s : option string) : bool :=
  match s with
  | Some v => negb (String.eqb v EmptyString)
  | None => false
  end.

(** Equality filter on a nullable text column: [{ email }] keeps the rows
    whose column holds the same string ([null] selects the NULL rows). *)
Definition sameText (col v : option string) : bool :=
  match col, v with
  | Some x, Some y => String.eqb x y
  | None, None => true
  | _, _ => false
  end.

(** Equality of a nullable integer column with a number ([NULL] equals
    nothing). *)
Definition linkIs (col : option Z) (v : Z) : bool :=
  match col with
  | Some x => Z.eqb x v
  | None => false
  end.

(** ** Ordering by [createdAt]

    Both [orderBy: { createdAt: "asc" }] and [Array.prototype.sort] with the
    comparator [a.createdAt - b.createdAt] are stable sorts on the creation
    time: rows with equal [createdAt] keep the order they had before. *)

Fixpoint insertByCreatedAt (x : Contact.t) (l : list Contact.t) : list Contact.t :=
  match l with
  | [] => [x]
  | y :: l' =>
      if Contact.createdAt x <=? Contact.createdAt y
      then x :: y :: l'
      else y :: insertByCreatedAt x l'
  end.

Fixpoint sortByCreatedAt (l : list Contact.t) : list Contact.t :=
  match l with
  | [] => []
  | x :: l' => insertByCreatedAt x (sortByCreatedAt l')
  end.

(** ** The where-clauses of the four queries *)

(** Lines 51-57: [deletedAt: null] and an [OR] whose disjuncts are present
    only for the truthy fields of the request. *)
Definition matchingOR (email phoneNumber : option string)
  : list (Contact.t -> bool) :=
  (if truthy email then [fun c => sameText (Contact.email c) email] else []) ++
  (if truthy phoneNumber
   then [fun c => sameText (Contact.phoneNumber c) phoneNumber] else []).

Definition matchingWhere (email phoneNumber : option string) (c : Contact.t) : bool :=
  notDeleted c && existsb (fun p => p c) (matchingOR email phoneNumber).

(** Lines 80-83: the root of a matched contact.  [contact.linkedId!] is read
    as it is stored, so a secondary without a link yields [None]. *)
Definition rootId (contact : Contact.t) : option Z :=
  match Contact.linkPrecedence contact with
  | primary => Some (Contact.id contact)
  | secondary => Contact.linkedId contact
  end.

Definition optZ_eq_dec : forall a b : option Z, {a = b} + {a <> b}.
Proof. decide equality; apply Z.eq_dec. Defined.

(** Lines 76-86: the [Set] of root ids, in insertion order. *)
Definition collectRootIds (matchingContacts : list Contact.t) : set (option Z) :=
  fold_left (fun s contact => set_add optZ_eq_dec (rootId contact) s)
            matchingContacts (empty_set (option Z)).

(** [{ in: Array.from(allContactIds) }] on a column: a column that is
    [NULL] is in no list.  A list that itself holds a [null], the root read
    at line 83 from a secondary without a link, is outside this model: the
    store's client rejects such a query.  What is proved of the reads of
    lines 89-98 is stated for tables in which every live secondary holds a
    link ([secondariesLinked], which [forest] implies), or holds of the
    code whatever that read does. *)
Definition inIds (col : option Z) (ids : set (option Z)) : bool :=
  match col with
  | Some _ => set_mem optZ_eq_dec col ids
  | None => false
  end.

(** Lines 90-96. *)
Definition clustersWhere (allContactIds : set (option Z)) (c : Contact.t) : bool :=
  notDeleted c &&
  (inIds (Some (Contact.id c)) allContactIds || inIds (Contact.linkedId c) allContactIds).

(** Lines 139-145. *)
Definition membersWhere (truePrimaryId : Z) (c : Contact.t) : bool :=
  notDeleted c &&
  (Z.eqb (Contact.id c) truePrimaryId || linkIs (Contact.linkedId c) truePrimaryId).

(** Lines 126-129. *)
Definition linkedToWhere (oldPrimaryId : Z) (c : Contact.t) : bool :=
  linkIs (Contact.linkedId c) oldPrimaryId && notDeleted c.

(** ** Row-level effect of the store operations *)

(** [findMany({ where, orderBy: { createdAt: "asc" } })]: the table is kept in
    the order in which the store scans it, which is the order in which rows
    of equal [createdAt] come back. *)
Definition selectRows (where_ : Contact.t -> bool) (rows : list Contact.t)
  : list Contact.t :=
  sortByCreatedAt (filter where_ rows).

(** Lines 117-121: the data of the demotion. *)
Definition demote (truePrimaryId now : Z) (c : Contact.t) : Contact.t :=
  Contact.mk (Contact.id c) (Contact.email c) (Contact.phoneNumber c)
             (Some truePrimaryId) secondary
             (Contact.createdAt c) now (Contact.deletedAt c).

(** Lines 130-133: the data of the re-link. *)
Definition relink (truePrimaryId now : Z) (c : Contact.t) : Contact.t :=
  Contact.mk (Contact.id c) (Contact.email c) (Contact.phoneNumber c)
             (Some truePrimaryId) (Contact.linkPrecedence c)
             (Contact.createdAt c) now (Contact.deletedAt c).

Definition updateRows (where_ : Contact.t -> bool) (data : Contact.t -> Contact.t)
  (rows : list Contact.t) : list Contact.t :=
  map (fun c => if where_ c then data c else c) rows.

Definition hasId (i : Z) (c : Contact.t) : bool := Z.eqb (Contact.id c) i.

(** ** The store and the monad of store calls *)

Inductive StoreCall : Type :=
| CallFindMany
| CallCreate (created : Contact.t)
| CallUpdate (id : Z)
| CallUpdateMany (linkedId : Z).

(** [rows]: the table; [nextId]: the auto-increment counter; [log]: the calls
    the store has served, most recent first; [failAfter]: [Some n] when the
    store serves [n] more calls and rejects every later one, [None] when it
    never fails. *)
Record World : Type := mkWorld {
  rows : list Contact.t;
  nextId : Z;
  log : list StoreCall;
  failAfter : option nat
}.

Inductive exn : Type :=
| Error (message : string)   (* line 46: [throw new Error(...)] *)
| TypeError                  (* a property read on [undefined] *)
| RecordNotFound             (* [update] on an id that is not in the table *)
| StoreFailure.              (* the store rejected or timed out a call *)

Definition M (A : Type) : Type := World -> (exn + A) * World.

Definition ret {A} (a : A) : M A := fun w => (inr a, w).

Definition throw {A} (e : exn) : M A := fun w => (inl e, w).

Definition bind {A B} (m : M A) (k : A -> M B) : M B :=
  fun w =>
    match m w with
    | (inl e, w') => (inl e, w')
    | (inr a, w') => k a w'
    end.

Notation "x <- m ;; k" := (bind m (fun x => k))
  (at level 61, m at next level, right associativity).
Notation "m ;;; k" := (bind m (fun _ => k))
  (at level 61, right associativity).

(** The store serves a call, or it has run out of the calls it serves. *)
Definition serve (w : World) : option World :=
  match failAfter w with
  | None => Some w
  | Some O => None
  | Some (S n) => Some (mkWorld (rows w) (nextId w) (log w) (Some n))
  end.

(** [prisma.contact.findMany] *)
Definition findMany (where_ : Contact.t -> bool) : M (list Contact.t) :=
  fun w =>
    match serve w with
    | None => (inl StoreFailure, w)
    | Some w1 =>
        (inr (selectRows where_ (rows w1)),
         mkWorld (rows w1) (nextId w1) (CallFindMany :: log w1) (failAfter w1))
    end.

(** Modelled from the spec: the defaults of the [Contact] model of
    prisma/schema.prisma, which is not among the sources.  The record
    inserted by [prisma.contact.create] gets its [id] from the counter and
    its [createdAt] and [updatedAt] from the clock; [deletedAt] is NULL. *)
Definition newRow (newId now : Z) (email phoneNumber : option string)
  (linkedId : option Z) (linkPrecedence : LinkPrecedence) : Contact.t :=
  Contact.mk newId email phoneNumber linkedId linkPrecedence now now None.

(** [prisma.contact.create] *)
Definition create (now : Z) (email phoneNumber : option string)
  (linkedId : option Z) (linkPrecedence : LinkPrecedence) : M Contact.t :=
  fun w =>
    match serve w with
    | None => (inl StoreFailure, w)
    | Some w1 =>
        let c := newRow (nextId w1) now email phoneNumber linkedId linkPrecedence in
        (inr c,
         mkWorld (rows w1 ++ [c]) (nextId w1 + 1) (CallCreate c :: log w1)
                 (failAfter w1))
    end.

(** [prisma.contact.update({ where: { id }, data })] *)
Definition update (i : Z) (data : Contact.t -> Contact.t) : M unit :=
  fun w =>
    match serve w with
    | None => (inl StoreFailure, w)
    | Some w1 =>
        if existsb (hasId i) (rows w1)
        then (inr tt,
              mkWorld (updateRows (hasId i) data (rows w1)) (nextId w1)
                      (CallUpdate i :: log w1) (failAfter w1))
        else (inl RecordNotFound, w1)
    end.

(** [prisma.contact.updateMany({ where: { linkedId, deletedAt: null }, data })] *)
Definition updateMany (linked : Z) (data : Contact.t -> Contact.t) : M unit :=
  fun w =>
    match serve w with
    | None => (inl StoreFailure, w)
    | Some w1 =>
        (inr tt,
         mkWorld (updateRows (linkedToWhere linked) data (rows w1)) (nextId w1)
                 (CallUpdateMany linked :: log w1) (failAfter w1))
    end.

(** [for (const x of l) { await body(x) }] *)
Fixpoint forEach {A} (l : list A) (body : A -> M unit) : M unit :=
  match l with
  | [] => ret tt
  | x :: l' => body x ;;; forEach l' body
  end.

(** ** buildResponse (lines 184-220) *)

(** [if (v && !acc.includes(v)) acc.push(v)] *)
Definition pushNew (acc : list string) (v : option string) : list string :=
  match v with
  | Some x =>
      if truthy v && negb (existsb (String.eqb x) acc) then acc ++ [x] else acc
  | None => acc
  end.

(** [if (v) acc.push(v)] *)
Definition pushTruthy (acc : list string) (v : option string) : list string :=
  match v with
  | Some x => if truthy v then acc ++ [x] else acc
  | None => acc
  end.

Definition buildResponse (primaryId : Z) (allContacts : list Contact.t)
  (secondaryIds : list Z) : M IdentifyResponse.t :=
  match find (hasId primaryId) allContacts with
  | None => throw TypeError
  | Some primary_ =>
      let rest := filter (fun c => negb (hasId primaryId c)) allContacts in
      let emails := pushTruthy [] (Contact.email primary_) in
      let phoneNumbers := pushTruthy [] (Contact.phoneNumber primary_) in
      let lists :=
        fold_left
          (fun acc c =>
             (pushNew (fst acc) (Contact.email c),
              pushNew (snd acc) (Contact.phoneNumber c)))
          rest (emails, phoneNumbers) in
      ret (IdentifyResponse.mk primaryId (fst lists) (snd lists) secondaryIds)
  end.

(** ** identifyContact (lines 40-182) *)

(** [truePrimary.id], where [truePrimary] is [primaries[0]] and may be
    [undefined]. *)
Definition idOf (truePrimary : option Contact.t) : M Z :=
  match truePrimary with
  | Some c => ret (Contact.id c)
  | None => throw TypeError
  end.

(** Lines 101-106. *)
Definition primariesOf (allContacts : list Contact.t) : list Contact.t :=
  sortByCreatedAt (filter isPrimary allContacts).

(** Lines 113-135: the body of the loop over the other primaries. *)
Definition demoteAndRelink (now : Z) (truePrimary : option Contact.t)
  (oldPrimary : Contact.t) : M unit :=
  tid <- idOf truePrimary ;;
  update (Contact.id oldPrimary) (demote tid now) ;;;
  tid <- idOf truePrimary ;;
  updateMany (Contact.id oldPrimary) (relink tid now).

(** Lines 151-156: a [Set] of the truthy values of a column. *)
Definition existingValues (col : Contact.t -> option string)
  (allContacts : list Contact.t) : list (option string) :=
  filter truthy (map col allContacts).

(** [set.has(v)] *)
Definition has (s : list (option string)) (v : option string) : bool :=
  existsb (sameText v) s.

(** Lines 158-159. *)
Definition isNew (col : Contact.t -> option string)
  (allContacts : list Contact.t) (v : option string) : bool :=
  truthy v && negb (has (existingValues col allContacts) v).

(** Lines 164-167: the condition under which a secondary is created. *)
Definition createsSecondary (email phoneNumber : option string)
  (allContacts : list Contact.t) : bool :=
  let isNewEmail := isNew Contact.email allContacts email in
  let isNewPhone := isNew Contact.phoneNumber allContacts phoneNumber in
  let hasNewInfo := isNewEmail || isNewPhone in
  let hasBothFields := truthy email && truthy phoneNumber in
  hasNewInfo && hasBothFields.

Definition invalidRequestMessage : string :=
  "At least one of email or phoneNumber must be provided"%string.

(** [now] is the clock of the call: the value of [new Date()] and the
    time that the store gives to [createdAt] and [updatedAt]. *)
Definition identifyContact (now : Z) (req : IdentifyRequest.t)
  : M IdentifyResponse.t :=
  let email := IdentifyRequest.email req in
  let phoneNumber := IdentifyRequest.phoneNumber req in
  if negb (truthy email) && negb (truthy phoneNumber)
  then throw (Error invalidRequestMessage)
  else
    (* Step 1 *)
    matchingContacts <- findMany (matchingWhere email phoneNumber) ;;
    (* Step 2 *)
    if (length matchingContacts =? 0)%nat
    then
      newContact <- create now email phoneNumber None primary ;;
      buildResponse (Contact.id newContact) [newContact] []
    else
      (* Step 3 *)
      let allContactIds := collectRootIds matchingContacts in
      allContacts <- findMany (clustersWhere allContactIds) ;;
      (* Step 4 *)
      let primaries := primariesOf allContacts in
      let truePrimary := hd_error primaries in
      let otherPrimaries := tl primaries in
      (* Step 5 *)
      allContacts <-
        (if (0 <? length otherPrimaries)%nat
         then
           forEach otherPrimaries (demoteAndRelink now truePrimary) ;;;
           tid <- idOf truePrimary ;;
           findMany (membersWhere tid)
         else ret allContacts) ;;
      (* Step 6 *)
      allContacts <-
        (if createsSecondary email phoneNumber allContacts
         then
           tid <- idOf truePrimary ;;
           newSecondary <- create now email phoneNumber (Some tid) secondary ;;
           ret (allContacts ++ [newSecondary])
         else ret allContacts) ;;
      (* Step 7 *)
      let secondaries := filter isSecondary allContacts in
      tid <- idOf truePrimary ;;
      buildResponse tid allContacts (map Contact.id secondaries).

(** The earliest element of a list, the first one among equals: what the
    head of a stable sort by [createdAt] is. *)
Definition earlier (x y : Contact.t) : Contact.t :=
  if Contact.createdAt x <=? Contact.createdAt y then x else y.

Fixpoint firstEarliest (l : list Contact.t) : option Contact.t :=
  match l with
  | [] => None
  | x :: l' =>
      match firstEarliest l' with
      | None => Some x
      | Some y => Some (earlier x y)
      end
  end.

(** ** Names for the intermediate values of [identifyContact] *)

(** Line 50: [matchingContacts]. *)
Definition matchesOf (req : IdentifyRequest.t) (rs : list Contact.t) : list Contact.t :=
  selectRows (matchingWhere (IdentifyRequest.email req) (IdentifyRequest.phoneNumber req)) rs.

(** Line 89: [allContacts] as first fetched, the candidate merge set. *)
Definition candidatesOf (req : IdentifyRequest.t) (rs : list Contact.t) : list Contact.t :=
  selectRows (clustersWhere (collectRootIds (matchesOf req rs))) rs.

(** The table after one turn of the loop of lines 113-135. *)
Definition mergeStep (now tid : Z) (rs : list Contact.t) (oldPrimary : Contact.t)
  : list Contact.t :=
  updateRows (linkedToWhere (Contact.id oldPrimary)) (relink tid now)
    (updateRows (hasId (Contact.id oldPrimary)) (demote tid now) rs).

(** The table after the whole loop. *)
Definition mergeRows (now tid : Z) (otherPrimaries rs : list Contact.t)
  : list Contact.t :=
  fold_left (mergeStep now tid) otherPrimaries rs.

(** The store calls of the loop, most recent first. *)
Definition mergeCalls (otherPrimaries : list Contact.t) : list StoreCall :=
  rev (flat_map (fun o => [CallUpdate (Contact.id o); CallUpdateMany (Contact.id o)])
                otherPrimaries).

(** Lines 137-147: [allContacts] after step 5. *)
Definition clusterOf (now : Z) (req : IdentifyRequest.t) (rs : list Contact.t)
  (truePrimary : Contact.t) (otherPrimaries : list Contact.t) : list Contact.t :=
  match otherPrimaries with
  | [] => candidatesOf req rs
  | _ :: _ =>
      selectRows (membersWhere (Contact.id truePrimary))
                 (mergeRows now (Contact.id truePrimary) otherPrimaries rs)
  end.

(** One of the two lists of the response: the value of the primary, then
    the values of the rest that are not yet in the list. *)
Definition collect (col : Contact.t -> option string) (primary_ : Contact.t)
  (rest : list Contact.t) : list string :=
  fold_left (fun acc c => pushNew acc (col c)) rest (pushTruthy [] (col primary_)).

(** The members other than the primary (line 196). *)
Definition restOf (primaryId : Z) (allContacts : list Contact.t) : list Contact.t :=
  filter (fun c => negb (hasId primaryId c)) allContacts.

(** The response built from a primary that is among the members. *)
Definition responseOf (primary_ : Contact.t) (allContacts : list Contact.t)
  : IdentifyResponse.t :=
  let rest := restOf (Contact.id primary_) allContacts in
  IdentifyResponse.mk (Contact.id primary_)
    (collect Contact.email primary_ rest)
    (collect Contact.phoneNumber primary_ rest)
    (map Contact.id (filter isSecondary allContacts)).

(** The request is valid when one of its two fields is truthy (line 45). *)
Definition validRequest (req : IdentifyRequest.t) : bool :=
  truthy (IdentifyRequest.email req) || truthy (IdentifyRequest.phoneNumber req).

(** What the loop of step 5 does to one row in one turn, and in all. *)
Definition mergeStep1 (now tid : Z) (c oldPrimary : Contact.t) : Contact.t :=
  let c1 := if hasId (Contact.id oldPrimary) c then demote tid now c else c in
  if linkedToWhere (Contact.id oldPrimary) c1 then relink tid now c1 else c1.

Definition mergeOne (now tid : Z) (otherPrimaries : list Contact.t) (c : Contact.t)
  : Contact.t :=
  fold_left (mergeStep1 now tid) otherPrimaries c.

(** The store calls of step 5, most recent first. *)
Definition resolveCalls (otherPrimaries : list Contact.t) : list StoreCall :=
  match otherPrimaries with
  | [] => []
  | _ :: _ => CallFindMany :: mergeCalls otherPrimaries
  end.

(** The secondary that step 6 creates, when it creates one. *)
Definition secondaryFor (now : Z) (req : IdentifyRequest.t) (w : World)
  (truePrimary : Contact.t) : Contact.t :=
  newRow (nextId w) now (IdentifyRequest.email req) (IdentifyRequest.phoneNumber req)
         (Some (Contact.id truePrimary)) secondary.

(** Line 167. *)
Definition createsFor (now : Z) (req : IdentifyRequest.t) (w : World)
  (truePrimary : Contact.t) (otherPrimaries : list Contact.t) : bool :=
  createsSecondary (IdentifyRequest.email req) (IdentifyRequest.phoneNumber req)
                   (clusterOf now req (rows w) truePrimary otherPrimaries).

(** [allContacts] at line 180. *)
Definition membersOf (now : Z) (req : IdentifyRequest.t) (w : World)
  (truePrimary : Contact.t) (otherPrimaries : list Contact.t) : list Contact.t :=
  if createsFor now req w truePrimary otherPrimaries
  then clusterOf now req (rows w) truePrimary otherPrimaries
         ++ [secondaryFor now req w truePrimary]
  else clusterOf now req (rows w) truePrimary otherPrimaries.

(** The store after a call that found a true primary and did not fail. *)
Definition worldAfter (now : Z) (req : IdentifyRequest.t) (w : World)
  (truePrimary : Contact.t) (otherPrimaries : list Contact.t) : World :=
  let merged := mergeRows now (Contact.id truePrimary) otherPrimaries (rows w) in
  let calls := resolveCalls otherPrimaries ++ CallFindMany :: CallFindMany :: log w in
  if createsFor now req w truePrimary otherPrimaries
  then mkWorld (merged ++ [secondaryFor now req w truePrimary]) (nextId w + 1)
               (CallCreate (secondaryFor now req w truePrimary) :: calls) None
  else mkWorld merged (nextId w) calls None.

(** ** The response lists as the specification words them *)

(** The value of a column when it is neither null nor empty. *)
Definition presentValue (v : option string) : list string :=
  match v with
  | Some x => if truthy v then [x] else []
  | None => []
  end.

(** The present values of a column over the members, in member order. *)
Definition presentValues (col : Contact.t -> option string)
  (members : list Contact.t) : list string :=
  flat_map (fun c => presentValue (col c)) members.

(** Each value once, the first occurrence winning. *)
Fixpoint keepFirst (l : list string) : list string :=
  match l with
  | [] => []
  | x :: l' => x :: filter (fun y => negb (String.eqb x y)) (keepFirst l')
  end.

(** The records created by the store calls of a log, most recent first. *)
Definition creations (calls : list StoreCall) : list Contact.t :=
  flat_map (fun call => match call with CallCreate c => [c] | _ => [] end) calls.

(** The request binds a new pairing to the cluster: one of its identifiers is
    in no member, and it supplies both. *)
Definition newPairing (email phoneNumber : option string) (cluster : list Contact.t)
  : Prop :=
  (~ In email (map Contact.email cluster) \/
   ~ In phoneNumber (map Contact.phoneNumber cluster)) /\
  truthy email = true /\ truthy phoneNumber = true.

(** Two stores hold the same records: nothing was created between them. *)
Definition sameRecords (w w' : World) : Prop :=
  creations (log w') = creations (log w) /\
  map Contact.id (rows w') = map Contact.id (rows w).

(** The second store holds one record more, [c], created last. *)
Definition oneMore (c : Contact.t) (w w' : World) : Prop :=
  creations (log w') = c :: creations (log w) /\
  map Contact.id (rows w') = map Contact.id (rows w) ++ [Contact.id c].

(** [i] is the id of one of the primaries that step 5 demotes. *)
Definition isOther (otherPrimaries : list Contact.t) (i : Z) : bool :=
  existsb (hasId i) otherPrimaries.

(** [c] is a live row linked to one of the primaries that step 5 demotes. *)
Definition linksToOther (otherPrimaries : list Contact.t) (c : Contact.t) : bool :=
  notDeleted c &&
  match Contact.linkedId c with
  | Some l => isOther otherPrimaries l
  | None => false
  end.

(** ** The invariants of the table *)

(** [id] is the key of the table: no two rows share one. *)
Fixpoint distinctIds (ids : list Z) : bool :=
  match ids with
  | [] => true
  | i :: l => negb (existsb (Z.eqb i) l) && distinctIds l
  end.

(** [i] is the id of a primary of the table, tombstoned or not. *)
Definition primaryAt (rs : list Contact.t) (i : Z) : bool :=
  existsb (fun p => hasId i p && isPrimary p) rs.

(** A live primary has no link; a live secondary is linked to a primary.
    Tombstoned rows are not constrained. *)
Definition treeLinked (rs : list Contact.t) (c : Contact.t) : bool :=
  negb (notDeleted c) ||
  match Contact.linkPrecedence c, Contact.linkedId c with
  | primary, None => true
  | primary, Some _ => false
  | secondary, Some l => primaryAt rs l
  | secondary, None => false
  end.

(** The forest invariant of the data model: distinct ids below the counter,
    and clusters that are one-level trees. *)
Definition forest (w : World) : bool :=
  distinctIds (map Contact.id (rows w)) &&
  forallb (fun c => Contact.id c <? nextId w) (rows w) &&
  forallb (treeLinked (rows w)) (rows w).

(** [i] is the id of a live primary of the table. *)
Definition livePrimaryAt (rs : list Contact.t) (i : Z) : bool :=
  existsb (fun p => hasId i p && notDeleted p && isPrimary p) rs.

(** As [treeLinked], and the primary of a live secondary is live. *)
Definition wellLinked (rs : list Contact.t) (c : Contact.t) : bool :=
  negb (notDeleted c) ||
  match Contact.linkPrecedence c, Contact.linkedId c with
  | primary, None => true
  | primary, Some _ => false
  | secondary, Some l => livePrimaryAt rs l
  | secondary, None => false
  end.

(** The forest invariant without orphans: no live secondary is linked to a
    tombstoned primary. *)
Definition liveForest (w : World) : bool :=
  distinctIds (map Contact.id (rows w)) &&
  forallb (fun c => Contact.id c <? nextId w) (rows w) &&
  forallb (wellLinked (rows w)) (rows w).

(** The rows of the table come in ascending order of [id]. *)
Definition ascendingIds (rs : list Contact.t) : Prop :=
  StronglySorted (fun a b => Contact.id a < Contact.id b) rs.

(** The primaries among the candidates, in the order of the table. *)
Definition candidatePrimaries (req : IdentifyRequest.t) (rs : list Contact.t)
  : list Contact.t :=
  filter isPrimary (filter (clustersWhere (collectRootIds (matchesOf req rs))) rs).

(** [earlier] against the earliest of a possibly empty rest. *)
Definition earlierOpt (x : Contact.t) (o : option Contact.t) : option Contact.t :=
  match o with
  | None => Some x
  | Some y => Some (earlier x y)
  end.

(** ** Empty strings in the request *)

(** A field that is the empty string, read as an absent field. *)
Definition absentIfEmpty (v : option string) : option string :=
  if truthy v then v else None.

Definition withoutEmpty (req : IdentifyRequest.t) : IdentifyRequest.t :=
  IdentifyRequest.mk (absentIfEmpty (IdentifyRequest.email req))
                     (absentIfEmpty (IdentifyRequest.phoneNumber req)).

(** ** Links that the queries can read *)

(** Every live secondary holds a [linkedId]: no [null] reaches the [in]
    lists of lines 93-94 through the [contact.linkedId!] of line 83. *)
Definition secondariesLinked (w : World) : bool :=
  forallb (fun c =>
             negb (notDeleted c) || isPrimary c ||
             match Contact.linkedId c with Some _ => true | None => false end)
          (rows w).

(** ** What no call writes *)

(** The columns of a contact that no store call of the service writes: the
    [data] of [update] and [updateMany] (lines 117-121 and 130-133) hold
    [linkedId], [linkPrecedence] and [updatedAt] only. *)
Definition identityOf (c : Contact.t)
  : Z * option string * option string * Z * option Z :=
  (Contact.id c, Contact.email c, Contact.phoneNumber c,
   Contact.createdAt c, Contact.deletedAt c).

(** The second table holds the contacts of the first, row by row, and the
    counter has not moved. *)
Definition sameContacts (w w' : World) : Prop :=
  map identityOf (rows w') = map identityOf (rows w) /\ nextId w' = nextId w.

(** The key of the table, as far as the counter is concerned: distinct ids,
    all below the counter. *)
Definition freshIds (w : World) : bool :=
  distinctIds (map Contact.id (rows w)) &&
  forallb (fun c => Contact.id c <? nextId w) (rows w).

(** ** A history of calls *)



(** ** The route POST /identify (app.ts, lines 14-52) *)

(** A field of the body that [express.json()] has parsed: a JSON value, or
    [undefined] when the body has no such key.  Of a boolean, a number, an
    array or an object the handler reads the truthiness and the type only:
    [JsOther false] is [false] or zero, [JsOther true] any other such
    value. *)
Inductive JsValue : Type :=
| JsUndefined
| JsNull
| JsString (s : string)
| JsOther (isTruthy : bool).

Definition jsTruthy (v : JsValue) : bool :=
  match v with
  | JsUndefined => false
  | JsNull => false
  | JsString s => negb (String.eqb s EmptyString)
  | JsOther isTruthy => isTruthy
  end.

(** [typeof v !== "string"] *)
Definition notString (v : JsValue) : bool :=
  match v with
  | JsString _ => false
  | _ => true
  end.

(** [v ?? null] *)
Definition orNull (v : JsValue) : JsValue :=
  match v with
  | JsUndefined => JsNull
  | _ => v
  end.

(** The JSON of a response: the result of [identifyContact] (line 42), an
    error with a fixed message (lines 20-33), or the error of the global
    handler, whose message is the [message] of the error thrown (line 51). *)
Inductive ResponseBody : Type :=
| ContactBody (result : IdentifyResponse.t)
| ErrorBody (error message : string)
| ThrownBody (error : string) (err : exn).

Record HttpResponse : Type := mkResponse {
  status : Z;
  body : ResponseBody
}.

Definition badRequest (message : string) : HttpResponse :=
  mkResponse 400 (ErrorBody "Bad Request"%string message).

(** Lines 42-45 and 49-52: the result is sent with status 200; an error is
    passed to [next] and sent by the global error handler with status 500. *)
Definition respond (outcome : exn + IdentifyResponse.t) : HttpResponse :=
  match outcome with
  | inr result => mkResponse 200 (ContactBody result)
  | inl err => mkResponse 500 (ThrownBody "Internal Server Error"%string err)
  end.

Section Route.

(** [identifyContact] as the handler calls it: on the two values of the
    body, whatever their type. *)
Variable identify : JsValue -> JsValue -> M IdentifyResponse.t.

(** Lines 14-46, on the two fields read from the body at line 16. *)
Definition postIdentify (email phoneNumber : JsValue) (w : World)
  : HttpResponse * World :=
  if negb (jsTruthy email) && negb (jsTruthy phoneNumber)
  then (badRequest "At least one of 'email' or 'phoneNumber' must be provided"%string, w)
  else if jsTruthy email && notString email
  then (badRequest "'email' must be a string"%string, w)
  else if jsTruthy phoneNumber && notString phoneNumber
  then (badRequest "'phoneNumber' must be a string"%string, w)
  else
    let (outcome, w') := identify (orNull email) (orNull phoneNumber) w in
    (respond outcome, w').

End Route.

(** A value of the type that [IdentifyRequest] declares for a field:
    [string | null | undefined]. *)
Definition isText (v : JsValue) : bool :=
  match v with
  | JsOther _ => false
  | _ => true
  end.

(** The field of the request that such a value is. *)
Definition textOf (v : JsValue) : option string :=
  match v with
  | JsString s => Some s
  | _ => None
  end.

(** [identify] is [identifyContact], called at time [now], wherever the
    two values are of the declared type. *)
Definition runsIdentifyContact (now : Z)
  (identify : JsValue -> JsValue -> M IdentifyResponse.t) : Prop :=
  forall email phoneNumber w,
    isText email = true -> isText phoneNumber = true ->
    identify email phoneNumber w =
    identifyContact now (IdentifyRequest.mk (textOf email) (textOf phoneNumber)) w.

(** ** Identifiers and clusters *)

(** Two contacts hold the same truthy email or the same truthy phone
    number: a request with that identifier matches both (lines 51-57). *)
Definition sharesIdentifier (a b : Contact.t) : bool :=
  (truthy (Contact.email a) && sameText (Contact.email a) (Contact.email b)) ||
  (truthy (Contact.phoneNumber a) &&
   sameText (Contact.phoneNumber a) (Contact.phoneNumber b)).

Definition sameRoot (a b : Contact.t) : bool :=
  if optZ_eq_dec (rootId a) (rootId b) then true else false.

(** No identifier is held in two clusters: live contacts that share an
    identifier have the same root. *)
Definition separated (w : World) : bool :=
  forallb (fun a =>
    forallb (fun b =>
      implb (notDeleted a && notDeleted b && sharesIdentifier a b) (sameRoot a b))
      (rows w)) (rows w).

(** ** The table in the middle of step 5 *)

(** The table when the loop of lines 113-135 has done [k] full turns, and
    with [half] the [update] of the next turn (lines 115-122) without its
    [updateMany] (lines 125-134). *)
Definition mergePrefix (now tid : Z) (otherPrimaries : list Contact.t)
  (k : nat) (half : bool) (rs : list Contact.t) : list Contact.t :=
  let done := mergeRows now tid (firstn k otherPrimaries) rs in
  match nth_error otherPrimaries k with
  | Some oldPrimary =>
      if half then updateRows (hasId (Contact.id oldPrimary)) (demote tid now) done
      else done
  | None => done
  end.

(** ** A history of requests to the route *)




(** ** The creation of a secondary as the specification words it *)

(** Section 4.3, "supplied": the field is present and not empty. *)
Definition supplied (v : option string) : bool :=
  match v with
  | Some s => if String.eqb s EmptyString then false else true
  | None => false
  end.

(** The column holds the given value. *)
Definition specSame (col v : option string) : bool :=
  match col, v with
  | Some x, Some y => String.eqb x y
  | _, _ => false
  end.

(** Section 4.1: a non-deleted contact whose email is the given email or
    whose phone number is the given phone number, each predicate included
    only if the field was supplied. *)
Definition specMatch (email phoneNumber : option string) (c : Contact.t) : bool :=
  match Contact.deletedAt c with
  | Some _ => false
  | None =>
      (supplied email && specSame (Contact.email c) email) ||
      (supplied phoneNumber && specSame (Contact.phoneNumber c) phoneNumber)
  end.

(** Section 4.2, step 2: the root of a contact is its own id if it is a
    primary, its [linkedId] if it is a secondary. *)
Definition specRoot (c : Contact.t) : option Z :=
  match Contact.linkPrecedence c with
  | primary => Some (Contact.id c)
  | secondary => Contact.linkedId c
  end.

(** [r] is the root of a contact that the request matches. *)
Definition specTouched (email phoneNumber : option string) (rs : list Contact.t)
  (r : Z) : bool :=
  existsb (fun m =>
             specMatch email phoneNumber m &&
             match specRoot m with Some r' => Z.eqb r' r | None => false end) rs.

(** Section 4.2, steps 2, 3 and 6, and the glossary: the cluster that the
    request resolves to, the non-deleted contacts of the clusters whose
    root is the root of a matched contact. *)
Definition specCluster (email phoneNumber : option string) (rs : list Contact.t)
  : list Contact.t :=
  filter (fun c =>
            match Contact.deletedAt c, specRoot c with
            | None, Some r => specTouched email phoneNumber rs r
            | _, _ => false
            end) rs.

(** Section 4.3: the value is in the set of the values of the column over
    the members. *)
Definition specPresent (col : Contact.t -> option string) (v : option string)
  (members : list Contact.t) : bool :=
  existsb (fun c => specSame (col c) v) members.

(** Section 4.3: ([isNewEmail] or [isNewPhone]) and the request supplied
    both fields. *)
Definition specCreates (email phoneNumber : option string)
  (members : list Contact.t) : bool :=
  ((supplied email && negb (specPresent Contact.email email members)) ||
   (supplied phoneNumber && negb (specPresent Contact.phoneNumber phoneNumber members))) &&
  (supplied email && supplied phoneNumber).

(** * Properties *)

(** ** The stable sort and the queries *)

Lemma insertByCreatedAt_In x y l :
  In y (insertByCreatedAt x l) <-> y = x \/ In y l.
Proof.
  induction l as [|z l IH]; simpl.
  - intuition congruence.
  - destruct (Contact.createdAt x <=? Contact.createdAt z); simpl.
    + intuition congruence.
    + rewrite IH. intuition congruence.
Qed.

Lemma sortByCreatedAt_In y l : In y (sortByCreatedAt l) <-> In y l.
Proof.
  induction l as [|x l IH]; simpl; [tauto|].
  rewrite insertByCreatedAt_In, IH. intuition congruence.
Qed.

Lemma selectRows_In f rs c :
  In c (selectRows f rs) <-> In c rs /\ f c = true.
Proof. unfold selectRows. rewrite sortByCreatedAt_In. apply filter_In. Qed.

Lemma selectRows_ext f g rs :
  (forall c, In c rs -> f c = g c) -> selectRows f rs = selectRows g rs.
Proof.
  intros H. unfold selectRows. f_equal. apply filter_ext_in. exact H.
Qed.

Lemma hd_insertByCreatedAt x l :
  hd_error (insertByCreatedAt x l) =
  match hd_error l with
  | None => Some x
  | Some y => Some (earlier x y)
  end.
Proof.
  destruct l as [|y l]; simpl; auto. unfold earlier.
  destruct (Contact.createdAt x <=? Contact.createdAt y); reflexivity.
Qed.

(** A sorted list starts with the first of its earliest elements. *)
Lemma hd_sortByCreatedAt l :
  hd_error (sortByCreatedAt l) = firstEarliest l.
Proof.
  induction l as [|x l IH]; simpl; auto.
  rewrite hd_insertByCreatedAt, IH. reflexivity.
Qed.

(** [firstEarliest] splits the list around its result: strictly later
    rows before it, rows that are not earlier after it. *)
Lemma firstEarliest_split l t :
  firstEarliest l = Some t ->
  exists l1 l2,
    l = l1 ++ t :: l2 /\
    Forall (fun c => Contact.createdAt t < Contact.createdAt c) l1 /\
    Forall (fun c => Contact.createdAt t <= Contact.createdAt c) l2.
Proof.
  revert t. induction l as [|x l IH]; simpl; intros t H; [discriminate|].
  destruct (firstEarliest l) as [y|] eqn:E.
  - injection H as <-. destruct (IH y eq_refl) as (l1 & l2 & -> & H1 & H2).
    unfold earlier. destruct (Contact.createdAt x <=? Contact.createdAt y) eqn:C.
    + apply Z.leb_le in C. exists [], (l1 ++ y :: l2). repeat split; auto.
      apply Forall_app. split.
      * eapply Forall_impl; [|exact H1]. simpl. intros; lia.
      * constructor; [lia|]. eapply Forall_impl; [|exact H2]. simpl. intros; lia.
    + apply Z.leb_gt in C. exists (x :: l1), l2. repeat split; auto.
  - injection H as <-. destruct l; [|simpl in E; destruct (firstEarliest l); discriminate].
    exists [], []. repeat split; auto.
Qed.

(** ** Store calls on a store that does not fail *)

Section FaultFree.

Variable w : World.
Hypothesis Hnofail : failAfter w = None.

Lemma serve_ok : serve w = Some w.
Proof. unfold serve. rewrite Hnofail. reflexivity. Qed.

Lemma findMany_run where_ :
  findMany where_ w =
  (inr (selectRows where_ (rows w)),
   mkWorld (rows w) (nextId w) (CallFindMany :: log w) None).
Proof. unfold findMany. rewrite serve_ok, Hnofail. reflexivity. Qed.

Lemma create_run now e p l lp :
  create now e p l lp w =
  (inr (newRow (nextId w) now e p l lp),
   mkWorld (rows w ++ [newRow (nextId w) now e p l lp]) (nextId w + 1)
           (CallCreate (newRow (nextId w) now e p l lp) :: log w) None).
Proof. unfold create. rewrite serve_ok, Hnofail. reflexivity. Qed.

Lemma update_run i data :
  existsb (hasId i) (rows w) = true ->
  update i data w =
  (inr tt,
   mkWorld (updateRows (hasId i) data (rows w)) (nextId w)
           (CallUpdate i :: log w) None).
Proof. intros H. unfold update. rewrite serve_ok, H, Hnofail. reflexivity. Qed.

Lemma updateMany_run linked data :
  updateMany linked data w =
  (inr tt,
   mkWorld (updateRows (linkedToWhere linked) data (rows w)) (nextId w)
           (CallUpdateMany linked :: log w) None).
Proof. unfold updateMany. rewrite serve_ok, Hnofail. reflexivity. Qed.

End FaultFree.

(** Updates keep the ids of the table. *)
Lemma updateRows_ids where_ data rs :
  (forall c, Contact.id (data c) = Contact.id c) ->
  map Contact.id (updateRows where_ data rs) = map Contact.id rs.
Proof.
  intros H. unfold updateRows. rewrite map_map. apply map_ext.
  intros c. destruct (where_ c); auto.
Qed.

Lemma existsb_hasId i rs :
  existsb (hasId i) rs = existsb (fun j => Z.eqb j i) (map Contact.id rs).
Proof. induction rs as [|c rs IH]; simpl; auto. rewrite IH. reflexivity. Qed.

Lemma mergeStep_ids now tid rs o :
  map Contact.id (mergeStep now tid rs o) = map Contact.id rs.
Proof. unfold mergeStep. rewrite !updateRows_ids; auto. Qed.

Lemma mergeRows_ids now tid others rs :
  map Contact.id (mergeRows now tid others rs) = map Contact.id rs.
Proof.
  revert rs. induction others as [|o os IH]; intros rs; simpl; auto.
  unfold mergeRows in *. simpl. rewrite IH. apply mergeStep_ids.
Qed.

(** The loop of step 5 on a store that does not fail, when the primaries it
    demotes are rows of the table. *)
Lemma forEach_demoteAndRelink_run now t others w :
  failAfter w = None ->
  (forall o, In o others -> existsb (hasId (Contact.id o)) (rows w) = true) ->
  forEach others (demoteAndRelink now (Some t)) w =
  (inr tt,
   mkWorld (mergeRows now (Contact.id t) others (rows w)) (nextId w)
           (mergeCalls others ++ log w) None).
Proof.
  revert w. induction others as [|o os IH]; intros w Hnf Hex.
  - simpl. unfold ret, mergeCalls. simpl. destruct w; simpl in *. subst. reflexivity.
  - simpl. unfold bind at 1. unfold demoteAndRelink at 1. simpl.
    unfold bind at 1. unfold bind at 1. unfold ret at 1.
    rewrite (update_run w Hnf) by (apply Hex; left; auto).
    unfold bind at 1. unfold ret at 1.
    rewrite updateMany_run by reflexivity.
    rewrite IH; [|reflexivity|].
    + simpl. unfold mergeCalls. simpl. rewrite <- !app_assoc. reflexivity.
    + intros o' Ho'. simpl. rewrite existsb_hasId.
      change (updateRows (linkedToWhere (Contact.id o)) (relink (Contact.id t) now)
                (updateRows (hasId (Contact.id o)) (demote (Contact.id t) now) (rows w)))
        with (mergeStep now (Contact.id t) (rows w) o).
      rewrite mergeStep_ids, <- existsb_hasId. apply Hex. right; auto.
Qed.

(** ** Runs of [buildResponse] and [identifyContact] on a store that does not fail *)

Lemma fold_left_pair {A B C} (f : A -> C -> A) (g : B -> C -> B) l a b :
  fold_left (fun acc c => (f (fst acc) c, g (snd acc) c)) l (a, b) =
  (fold_left f l a, fold_left g l b).
Proof. revert a b. induction l as [|x l IH]; intros a b; simpl; auto. Qed.

Lemma buildResponse_run pid all sids p w :
  find (hasId pid) all = Some p ->
  buildResponse pid all sids w =
  (inr (IdentifyResponse.mk pid
          (collect Contact.email p (restOf pid all))
          (collect Contact.phoneNumber p (restOf pid all)) sids), w).
Proof.
  intros H. unfold buildResponse. rewrite H. cbv zeta.
  rewrite (fold_left_pair (fun acc c => pushNew acc (Contact.email c))
                          (fun acc c => pushNew acc (Contact.phoneNumber c))).
  reflexivity.
Qed.

Lemma find_hasId_some i l c :
  In c l -> Contact.id c = i -> exists c', find (hasId i) l = Some c'.
Proof.
  intros Hin Hid. destruct (find (hasId i) l) eqn:E; eauto.
  exfalso. eapply find_none in E; eauto. unfold hasId in E.
  rewrite Hid, Z.eqb_refl in E. discriminate.
Qed.

Lemma find_hasId_id i l c : find (hasId i) l = Some c -> Contact.id c = i /\ In c l.
Proof.
  intros H. apply find_some in H. destruct H as [H1 H2].
  unfold hasId in H2. apply Z.eqb_eq in H2. auto.
Qed.

Lemma guard_valid req :
  validRequest req = true ->
  negb (truthy (IdentifyRequest.email req)) &&
  negb (truthy (IdentifyRequest.phoneNumber req)) = false.
Proof.
  unfold validRequest.
  destruct (truthy (IdentifyRequest.email req)),
           (truthy (IdentifyRequest.phoneNumber req)); simpl; congruence.
Qed.

Lemma length_eqb_0 {A} (l : list A) :
  (length l =? 0)%nat = match l with [] => true | _ => false end.
Proof. destruct l; reflexivity. Qed.

(** No identifier is truthy: the guard of line 45 throws, whatever the store. *)
Lemma identify_invalid_run now req w :
  validRequest req = false ->
  identifyContact now req w = (inl (Error invalidRequestMessage), w).
Proof.
  unfold validRequest, identifyContact. intros H.
  apply orb_false_iff in H. destruct H as [-> ->]. reflexivity.
Qed.

(** No match: a fresh primary is created (lines 62-73). *)
Lemma identify_fresh_run now req w :
  failAfter w = None ->
  validRequest req = true ->
  matchesOf req (rows w) = [] ->
  let c := newRow (nextId w) now (IdentifyRequest.email req)
                  (IdentifyRequest.phoneNumber req) None primary in
  identifyContact now req w =
  (inr (responseOf c [c]),
   mkWorld (rows w ++ [c]) (nextId w + 1)
           (CallCreate c :: CallFindMany :: log w) None).
Proof.
  intros Hnf Hv Hm c. unfold identifyContact.
  rewrite (guard_valid _ Hv). unfold bind at 1.
  rewrite (findMany_run w Hnf).
  fold (matchesOf req (rows w)). rewrite Hm, length_eqb_0.
  unfold bind at 1. rewrite create_run by reflexivity.
  fold c. cbn [rows nextId log].
  rewrite (buildResponse_run _ _ _ c).
  - reflexivity.
  - simpl. unfold hasId. rewrite Z.eqb_refl. reflexivity.
Qed.

Lemma mergeStep_map now tid rs o :
  mergeStep now tid rs o = map (fun c => mergeStep1 now tid c o) rs.
Proof. unfold mergeStep, updateRows, mergeStep1. rewrite map_map. reflexivity. Qed.

Lemma mergeRows_map now tid others rs :
  mergeRows now tid others rs = map (mergeOne now tid others) rs.
Proof.
  revert rs. induction others as [|o os IH]; intros rs.
  - simpl. symmetry. apply map_id.
  - unfold mergeRows in *. simpl. rewrite IH, mergeStep_map, map_map. reflexivity.
Qed.

(** The loop never touches the id, the identifiers, the creation time or the
    tombstone of a row. *)
Lemma mergeOne_keeps now tid others c :
  Contact.id (mergeOne now tid others c) = Contact.id c /\
  Contact.email (mergeOne now tid others c) = Contact.email c /\
  Contact.phoneNumber (mergeOne now tid others c) = Contact.phoneNumber c /\
  Contact.createdAt (mergeOne now tid others c) = Contact.createdAt c /\
  Contact.deletedAt (mergeOne now tid others c) = Contact.deletedAt c.
Proof.
  revert c. induction others as [|o os IH]; intros c; [simpl; auto|].
  unfold mergeOne in *. simpl.
  destruct (IH (mergeStep1 now tid c o)) as (H1 & H2 & H3 & H4 & H5).
  rewrite H1, H2, H3, H4, H5. unfold mergeStep1.
  destruct (hasId (Contact.id o) c);
    match goal with |- context [if ?b then _ else _] => destruct b end;
    simpl; auto.
Qed.

Lemma mergeOne_id now tid others c :
  Contact.id (mergeOne now tid others c) = Contact.id c.
Proof. apply mergeOne_keeps. Qed.

Lemma mergeOne_notDeleted now tid others c :
  notDeleted (mergeOne now tid others c) = notDeleted c.
Proof.
  unfold notDeleted. destruct (mergeOne_keeps now tid others c) as (_ & _ & _ & _ & ->).
  reflexivity.
Qed.

Lemma primariesOf_In c all : In c (primariesOf all) <-> In c all /\ isPrimary c = true.
Proof. unfold primariesOf. rewrite sortByCreatedAt_In. apply filter_In. Qed.

(** The true primary is among the members that the response is built from. *)
Lemma truePrimary_in_cluster now req rs t others :
  primariesOf (candidatesOf req rs) = t :: others ->
  exists c, In c (clusterOf now req rs t others) /\ Contact.id c = Contact.id t.
Proof.
  intros Hp.
  assert (In t (candidatesOf req rs)) as Ht.
  { apply (proj1 (primariesOf_In t _)). rewrite Hp. left; auto. }
  destruct others as [|o os]; cbn [clusterOf].
  - exists t. auto.
  - unfold candidatesOf in Ht. apply selectRows_In in Ht. destruct Ht as [Hin Hw].
    exists (mergeOne now (Contact.id t) (o :: os) t). split.
    + apply selectRows_In. split.
      * rewrite mergeRows_map. apply in_map. exact Hin.
      * unfold membersWhere. rewrite mergeOne_notDeleted, mergeOne_id, Z.eqb_refl.
        unfold clustersWhere in Hw. apply andb_true_iff in Hw. destruct Hw as [-> _].
        reflexivity.
    + apply mergeOne_id.
Qed.

Lemma others_in_rows req rs t others o :
  primariesOf (candidatesOf req rs) = t :: others ->
  In o others -> existsb (hasId (Contact.id o)) rs = true.
Proof.
  intros Hp Ho.
  assert (In o (candidatesOf req rs)) as H.
  { apply (proj1 (primariesOf_In o _)). rewrite Hp. right; auto. }
  apply selectRows_In in H. destruct H as [Hin _].
  apply existsb_exists. exists o. split; auto. unfold hasId. apply Z.eqb_refl.
Qed.

(** Matches without a live primary among the candidates: reading
    [truePrimary.id] throws before any write. *)
Lemma identify_inconsistent_run now req w :
  failAfter w = None ->
  validRequest req = true ->
  matchesOf req (rows w) <> [] ->
  primariesOf (candidatesOf req (rows w)) = [] ->
  identifyContact now req w =
  (inl TypeError,
   mkWorld (rows w) (nextId w) (CallFindMany :: CallFindMany :: log w) None).
Proof.
  intros Hnf Hv Hm Hp. unfold identifyContact.
  rewrite (guard_valid _ Hv). unfold bind at 1.
  rewrite (findMany_run w Hnf). fold (matchesOf req (rows w)).
  rewrite length_eqb_0. destruct (matchesOf req (rows w)) as [|m ms] eqn:Em; [congruence|].
  unfold bind at 1. rewrite findMany_run by reflexivity. cbn [rows nextId log].
  rewrite <- Em. fold (candidatesOf req (rows w)). rewrite Hp. simpl.
  unfold bind at 1. unfold ret at 1.
  destruct (createsSecondary _ _ _); reflexivity.
Qed.

(** Matches with a live primary among the candidates: merge, create a
    secondary when the request brings new information, answer. *)
Lemma identify_cluster_run now req w t others :
  failAfter w = None ->
  validRequest req = true ->
  matchesOf req (rows w) <> [] ->
  primariesOf (candidatesOf req (rows w)) = t :: others ->
  exists t',
    find (hasId (Contact.id t)) (membersOf now req w t others) = Some t' /\
    identifyContact now req w =
    (inr (responseOf t' (membersOf now req w t others)),
     worldAfter now req w t others).
Proof.
  intros Hnf Hv Hm Hp.
  destruct (truePrimary_in_cluster now req (rows w) t others Hp) as (c & Hc & Hid).
  assert (exists t', find (hasId (Contact.id t)) (membersOf now req w t others) = Some t')
    as [t' Ht'].
  { apply (find_hasId_some _ _ c); auto. unfold membersOf.
    destruct (createsFor now req w t others); auto. apply in_or_app. auto. }
  exists t'. split; auto.
  destruct (find_hasId_id _ _ _ Ht') as [Hidt' _].
  unfold identifyContact.
  rewrite (guard_valid _ Hv). unfold bind at 1.
  rewrite (findMany_run w Hnf). fold (matchesOf req (rows w)).
  rewrite length_eqb_0. destruct (matchesOf req (rows w)) as [|m ms] eqn:Em; [congruence|].
  unfold bind at 1. rewrite findMany_run by reflexivity. cbn [rows nextId log].
  rewrite <- Em. fold (candidatesOf req (rows w)). rewrite Hp.
  cbn [hd_error tl idOf].
  unfold membersOf, worldAfter, createsFor in *.
  destruct others as [|o os].
  - cbn [length Nat.ltb Nat.leb clusterOf resolveCalls mergeRows fold_left app] in *.
    unfold bind at 1. unfold ret at 1.
    destruct (createsSecondary _ _ (candidatesOf req (rows w))) eqn:Ecs.
    + unfold bind at 1. unfold bind at 1. unfold ret at 1.
      unfold bind at 1. rewrite create_run by reflexivity. cbn [rows nextId log].
      unfold ret at 1. unfold bind at 1. unfold ret at 1.
      fold (secondaryFor now req w t) in *.
      rewrite (buildResponse_run _ _ _ t') by exact Ht'.
      unfold responseOf. rewrite Hidt'. reflexivity.
    + unfold bind at 1. unfold ret at 1. unfold bind at 1. unfold ret at 1.
      rewrite (buildResponse_run _ _ _ t') by exact Ht'.
      unfold responseOf. rewrite Hidt'. reflexivity.
  - set (others := o :: os) in *.
    assert ((0 <? length others)%nat = true) as -> by reflexivity.
    unfold bind at 1. unfold bind at 1.
    rewrite forEach_demoteAndRelink_run; [|reflexivity|].
    2:{ intros o' Ho'. cbn [rows]. eapply others_in_rows; eauto. }
    unfold bind at 1. unfold ret at 1. rewrite findMany_run by reflexivity.
    cbn [rows nextId log].
    assert (clusterOf now req (rows w) t others =
            selectRows (membersWhere (Contact.id t))
                       (mergeRows now (Contact.id t) others (rows w))) as Hcl
        by reflexivity.
    rewrite <- Hcl.
    assert (resolveCalls others = CallFindMany :: mergeCalls others) as Hrc by reflexivity.
    rewrite Hrc. rewrite <- !app_comm_cons.
    destruct (createsSecondary _ _ (clusterOf now req (rows w) t others)) eqn:Ecs.
    + unfold bind at 1. unfold bind at 1. unfold ret at 1.
      unfold bind at 1. rewrite create_run by reflexivity. cbn [rows nextId log].
      unfold ret at 1. unfold bind at 1. unfold ret at 1.
      fold (secondaryFor now req w t) in *.
      rewrite (buildResponse_run _ _ _ t') by exact Ht'.
      unfold responseOf. rewrite Hidt'. reflexivity.
    + unfold bind at 1. unfold ret at 1. unfold bind at 1. unfold ret at 1.
      rewrite (buildResponse_run _ _ _ t') by exact Ht'.
      unfold responseOf. rewrite Hidt'. reflexivity.
Qed.

(** ** The response lists *)

Section KeepFirst.

Let differs (a : string) : string -> bool := fun y => negb (String.eqb a y).

Lemma filter_differs_comm a b l :
  filter (differs a) (filter (differs b) l) = filter (differs b) (filter (differs a) l).
Proof.
  induction l as [|x l IH]; simpl; auto.
  destruct (differs b x) eqn:Eb, (differs a x) eqn:Ea; simpl;
    rewrite ?Ea, ?Eb, ?IH; auto.
Qed.

Lemma filter_differs_idem a l :
  filter (differs a) (filter (differs a) l) = filter (differs a) l.
Proof.
  induction l as [|x l IH]; simpl; auto.
  destruct (differs a x) eqn:Ea; simpl; rewrite ?Ea, ?IH; auto.
Qed.

Lemma keepFirst_filter a l :
  filter (differs a) (keepFirst l) = keepFirst (filter (differs a) l).
Proof.
  induction l as [|x l IH]; simpl; auto.
  fold (differs x). destruct (differs a x) eqn:Ea; simpl.
  - fold (differs x). rewrite filter_differs_comm, IH. reflexivity.
  - unfold differs in Ea. apply negb_false_iff, String.eqb_eq in Ea. subst x.
    rewrite filter_differs_idem. exact IH.
Qed.

Lemma keepFirst_In x l : In x (keepFirst l) <-> In x l.
Proof.
  revert x. induction l as [|y l IH]; intros x; simpl; [tauto|].
  rewrite filter_In, IH.
  destruct (String.eqb_spec y x) as [->|Hne]; simpl; intuition congruence.
Qed.

Lemma keepFirst_NoDup l : NoDup (keepFirst l).
Proof.
  induction l as [|y l IH]; simpl; constructor.
  - rewrite filter_In. intros [_ H]. rewrite String.eqb_refl in H. discriminate.
  - apply NoDup_filter. exact IH.
Qed.

(** A value that was seen before changes nothing. *)
Lemma keepFirst_seen acc x r :
  In x acc -> keepFirst (acc ++ x :: r) = keepFirst (acc ++ r).
Proof.
  induction acc as [|a acc IH]; simpl; intros H; [contradiction|].
  f_equal. fold (differs a). destruct (String.eqb_spec a x) as [->|Hne].
  - rewrite !keepFirst_filter. f_equal. rewrite !filter_app. simpl.
    unfold differs at 2. rewrite String.eqb_refl. reflexivity.
  - destruct H as [H|H]; [congruence|]. rewrite IH; auto.
Qed.

Lemma keepFirst_NoDup_id l : NoDup l -> keepFirst l = l.
Proof.
  induction 1 as [|x l Hx Hl IH]; simpl; auto. f_equal. rewrite IH.
  apply forallb_filter_id. apply forallb_forall. intros y Hy.
  apply negb_true_iff, String.eqb_neq. congruence.
Qed.

End KeepFirst.

Lemma existsb_eqb_In x acc : existsb (String.eqb x) acc = true <-> In x acc.
Proof.
  rewrite existsb_exists. split.
  - intros (y & Hy & E). apply String.eqb_eq in E. subst. auto.
  - intros H. exists x. split; auto. apply String.eqb_refl.
Qed.

(** The loop of lines 206-210 on one column computes the distinct present
    values, the values already pushed coming first. *)
Lemma fold_pushNew col rest acc :
  NoDup acc ->
  fold_left (fun a c => pushNew a (col c)) rest acc =
  keepFirst (acc ++ presentValues col rest).
Proof.
  revert acc. induction rest as [|c rest IH]; intros acc Hnd; simpl.
  - rewrite app_nil_r. symmetry. apply keepFirst_NoDup_id. exact Hnd.
  - unfold pushNew at 2, presentValue. destruct (col c) as [x|] eqn:Ec.
    + destruct (truthy (Some x)) eqn:Et; simpl.
      * destruct (existsb (String.eqb x) acc) eqn:Ex; simpl.
        -- apply existsb_eqb_In in Ex. rewrite keepFirst_seen by exact Ex.
           apply IH. exact Hnd.
        -- rewrite IH.
           ++ rewrite <- app_assoc. reflexivity.
           ++ apply NoDup_app; [exact Hnd| |].
              ** constructor; [intros []|constructor].
              ** intros y Hy [<-|[]]. apply existsb_eqb_In in Hy. congruence.
      * apply IH. exact Hnd.
    + simpl. apply IH. exact Hnd.
Qed.

Lemma pushTruthy_nil v : pushTruthy [] v = presentValue v.
Proof. destruct v as [x|]; simpl; auto. Qed.

Lemma presentValue_NoDup v : NoDup (presentValue v).
Proof.
  destruct v as [x|]; simpl; [|constructor].
  destruct (negb _); repeat constructor. intros [].
Qed.

(** [collect] refines the wording of the specification. *)
Lemma collect_keepFirst col p rest :
  collect col p rest = keepFirst (presentValues col (p :: rest)).
Proof.
  unfold collect. rewrite pushTruthy_nil, fold_pushNew by apply presentValue_NoDup.
  reflexivity.
Qed.

Lemma presentValues_In col members x :
  In x (presentValues col members) <->
  exists c, In c members /\ col c = Some x /\ x <> EmptyString.
Proof.
  unfold presentValues. rewrite in_flat_map. split.
  - intros (c & Hc & Hx). exists c. split; auto. unfold presentValue in Hx.
    destruct (col c) as [y|]; [|contradiction]. simpl in Hx.
    destruct (String.eqb_spec y EmptyString); simpl in Hx; [contradiction|].
    destruct Hx as [<-|[]]. auto.
  - intros (c & Hc & E & Hne). exists c. split; auto. rewrite E. simpl.
    rewrite (proj2 (String.eqb_neq x EmptyString) Hne). simpl. auto.
Qed.

Lemma collect_In col p rest x :
  In x (collect col p rest) <->
  exists c, In c (p :: rest) /\ col c = Some x /\ x <> EmptyString.
Proof. rewrite collect_keepFirst, keepFirst_In. apply presentValues_In. Qed.

Lemma collect_hd col p rest :
  truthy (col p) = true -> hd_error (collect col p rest) = col p.
Proof.
  intros H. rewrite collect_keepFirst. simpl. unfold presentValue.
  destruct (col p) as [x|]; [|discriminate]. rewrite H. reflexivity.
Qed.

(** ** The response lists (claim C5) *)

(** C5, as amended: in every response built from a primary and the cluster
    members, [emails] and [phoneNumbers] hold no duplicate, no null and no
    empty string; each is the list of the distinct values that are neither
    null nor empty, the primary's first and then those of the remaining
    members in member order, the first occurrence winning; so the primary's
    value, when it is neither null nor empty, is the first element. *)
Theorem buildResponse_lists_distinct_primary_first pid all sids w resp w' :
  buildResponse pid all sids w = (inr resp, w') ->
  exists p,
    find (hasId pid) all = Some p /\
    IdentifyResponse.emails resp =
      keepFirst (presentValues Contact.email (p :: restOf pid all)) /\
    IdentifyResponse.phoneNumbers resp =
      keepFirst (presentValues Contact.phoneNumber (p :: restOf pid all)) /\
    NoDup (IdentifyResponse.emails resp) /\
    NoDup (IdentifyResponse.phoneNumbers resp) /\
    ~ In EmptyString (IdentifyResponse.emails resp) /\
    ~ In EmptyString (IdentifyResponse.phoneNumbers resp) /\
    (truthy (Contact.email p) = true ->
     hd_error (IdentifyResponse.emails resp) = Contact.email p) /\
    (truthy (Contact.phoneNumber p) = true ->
     hd_error (IdentifyResponse.phoneNumbers resp) = Contact.phoneNumber p).
Proof.
  intros H. destruct (find (hasId pid) all) as [p|] eqn:Ef.
  - rewrite (buildResponse_run _ _ _ p) in H by exact Ef.
    injection H as <- <-. exists p. cbn [IdentifyResponse.emails IdentifyResponse.phoneNumbers].
    split; [reflexivity|].
    split; [apply collect_keepFirst|]. split; [apply collect_keepFirst|].
    split; [rewrite collect_keepFirst; apply keepFirst_NoDup|].
    split; [rewrite collect_keepFirst; apply keepFirst_NoDup|].
    split; [intros Hin; apply collect_In in Hin; destruct Hin as (c & _ & _ & Hne); congruence|].
    split; [intros Hin; apply collect_In in Hin; destruct Hin as (c & _ & _ & Hne); congruence|].
    split; apply collect_hd.
  - unfold buildResponse in H. rewrite Ef in H. discriminate.
Qed.

Lemma buildResponse_lists_witness :
  let p := Contact.mk 1 (Some "a@x.com"%string) (Some "111"%string) None primary 10 10 None in
  let s := Contact.mk 2 (Some "b@x.com"%string) (Some "111"%string) (Some 1) secondary 20 20 None in
  let w := mkWorld [p; s] 3 [] None in
  buildResponse 1 [p; s] [2] w =
    (inr (IdentifyResponse.mk 1 ["a@x.com"%string; "b@x.com"%string] ["111"%string] [2]), w) /\
  exists q,
    find (hasId 1) [p; s] = Some q /\
    ["a@x.com"%string; "b@x.com"%string] =
      keepFirst (presentValues Contact.email (q :: restOf 1 [p; s])) /\
    ["111"%string] =
      keepFirst (presentValues Contact.phoneNumber (q :: restOf 1 [p; s])) /\
    NoDup ["a@x.com"%string; "b@x.com"%string] /\
    NoDup ["111"%string] /\
    ~ In EmptyString ["a@x.com"%string; "b@x.com"%string] /\
    ~ In EmptyString ["111"%string] /\
    (truthy (Contact.email q) = true ->
     hd_error ["a@x.com"%string; "b@x.com"%string] = Contact.email q) /\
    (truthy (Contact.phoneNumber q) = true ->
     hd_error ["111"%string] = Contact.phoneNumber q).
Proof.
  intros p s w. split; [vm_compute; reflexivity|].
  apply (buildResponse_lists_distinct_primary_first 1 [p; s] [2] w
           (IdentifyResponse.mk 1 ["a@x.com"%string; "b@x.com"%string] ["111"%string] [2]) w).
  vm_compute. reflexivity.
Defined.

(** C5 as stated fails: a primary whose stored email is the empty string has
    a non-null email, yet that email is not the first element of [emails]
    (it is not in the list at all). *)
Lemma buildResponse_nonnull_email_not_first :
  let p := Contact.mk 1 (Some EmptyString) (Some "123"%string) None primary 10 10 None in
  let s := Contact.mk 2 (Some "b@x.com"%string) (Some "123"%string) (Some 1) secondary 20 20 None in
  let w := mkWorld [p; s] 3 [] None in
  buildResponse 1 [p; s] [2] w =
    (inr (IdentifyResponse.mk 1 ["b@x.com"%string] ["123"%string] [2]), w) /\
  find (hasId 1) [p; s] = Some p /\
  Contact.email p <> None /\
  hd_error ["b@x.com"%string] <> Contact.email p.
Proof.
  intros p s w. split; [vm_compute; reflexivity|].
  split; [reflexivity|]. split; simpl; discriminate.
Qed.

(** ** Requests without an identifier (claim C8) *)

(** C8: when neither [email] nor [phoneNumber] is supplied (each is absent,
    null or empty), [identifyContact] fails with the error of line 46 and
    the store is as it was: no row, no counter and no entry of the log of
    store calls has changed, so no read, create or update was attempted;
    this holds whether or not the store would have served a call. *)
Theorem invalid_request_fails_before_store_access now req w :
  truthy (IdentifyRequest.email req) = false ->
  truthy (IdentifyRequest.phoneNumber req) = false ->
  identifyContact now req w = (inl (Error invalidRequestMessage), w).
Proof.
  intros He Hp. apply identify_invalid_run. unfold validRequest.
  rewrite He, Hp. reflexivity.
Qed.

Lemma invalid_request_witness :
  let req := IdentifyRequest.mk (Some EmptyString) None in
  let w := mkWorld [Contact.mk 1 (Some EmptyString) None None primary 5 5 None] 2 []
                   (Some 0%nat) in
  truthy (IdentifyRequest.email req) = false /\
  truthy (IdentifyRequest.phoneNumber req) = false /\
  identifyContact 7 req w = (inl (Error invalidRequestMessage), w).
Proof.
  intros req w. split; [reflexivity|]. split; [reflexivity|].
  apply (invalid_request_fails_before_store_access 7 req w); reflexivity.
Defined.

(** ** Candidates without a primary (claim C7) *)

(** C7: when the candidate merge set fetched at line 89 holds no contact
    with [linkPrecedence = primary], [identifyContact] fails: reading
    [truePrimary.id] of the undefined [primaries[0]] throws, which ends the
    request; the table and the counter are untouched and the only store
    calls made are the two reads, so nothing is repaired.  The set is
    fetched: every live secondary holds a link, so that the query of line
    89 carries the ids of the roots and no [null]. *)
Theorem no_primary_is_fatal_and_not_repaired now req w :
  failAfter w = None ->
  secondariesLinked w = true ->
  validRequest req = true ->
  matchesOf req (rows w) <> [] ->
  filter isPrimary (candidatesOf req (rows w)) = [] ->
  exists w',
    identifyContact now req w = (inl TypeError, w') /\
    rows w' = rows w /\
    nextId w' = nextId w /\
    log w' = CallFindMany :: CallFindMany :: log w.
Proof.
  intros Hnf _ Hv Hm Hp. eexists. split.
  - apply identify_inconsistent_run; auto. unfold primariesOf. rewrite Hp. reflexivity.
  - auto.
Qed.

Lemma no_primary_witness :
  let d := Contact.mk 1 (Some "a@x.com"%string) None None primary 10 10 (Some 15) in
  let s := Contact.mk 2 (Some "b@x.com"%string) (Some "111"%string) (Some 1) secondary 20 20 None in
  let w := mkWorld [d; s] 3 [] None in
  let req := IdentifyRequest.mk (Some "b@x.com"%string) (Some "999"%string) in
  failAfter w = None /\
  secondariesLinked w = true /\
  validRequest req = true /\
  matchesOf req (rows w) <> [] /\
  filter isPrimary (candidatesOf req (rows w)) = [] /\
  exists w',
    identifyContact 30 req w = (inl TypeError, w') /\
    rows w' = rows w /\
    nextId w' = nextId w /\
    log w' = CallFindMany :: CallFindMany :: log w.
Proof.
  intros d s w req.
  assert (failAfter w = None) as H1 by reflexivity.
  assert (secondariesLinked w = true) as H0 by reflexivity.
  assert (validRequest req = true) as H2 by reflexivity.
  assert (matchesOf req (rows w) <> []) as H3 by (vm_compute; discriminate).
  assert (filter isPrimary (candidatesOf req (rows w)) = []) as H4 by (vm_compute; reflexivity).
  repeat split; auto.
  apply (no_primary_is_fatal_and_not_repaired 30 req w H1 H0 H2 H3 H4).
Defined.

(** ** The condition of step 6 *)

Lemma sameText_eq a b : sameText a b = true <-> a = b.
Proof.
  destruct a as [x|], b as [y|]; simpl; split; try congruence; try discriminate.
  - intros H. apply String.eqb_eq in H. congruence.
  - intros H. injection H as ->. apply String.eqb_refl.
Qed.

(** For a truthy value, [Set.has] on the truthy values of a column is
    membership in the column. *)
Lemma has_existingValues col all v :
  truthy v = true ->
  (has (existingValues col all) v = true <-> In v (map col all)).
Proof.
  intros Hv. unfold has, existingValues. rewrite existsb_exists. split.
  - intros (u & Hu & E). apply sameText_eq in E. subst u.
    apply filter_In in Hu. tauto.
  - intros H. exists v. split.
    + apply filter_In. auto.
    + apply sameText_eq. reflexivity.
Qed.

Lemma createsSecondary_iff email phoneNumber cluster :
  createsSecondary email phoneNumber cluster = true <->
  newPairing email phoneNumber cluster.
Proof.
  unfold createsSecondary, newPairing, isNew.
  destruct (truthy email) eqn:He; [|split; [|intros (_ & ? & _)]; simpl; try discriminate;
    rewrite andb_false_r; discriminate].
  destruct (truthy phoneNumber) eqn:Hp; [|split; [|intros (_ & _ & ?)]; simpl; try discriminate;
    rewrite andb_false_r; discriminate].
  pose proof (has_existingValues Contact.email cluster email He) as H1.
  pose proof (has_existingValues Contact.phoneNumber cluster phoneNumber Hp) as H2.
  simpl. rewrite andb_true_r, orb_true_iff, !negb_true_iff. split.
  - intros [H|H]; (split; [|auto]); [left|right]; intros Hin;
      [apply H1 in Hin|apply H2 in Hin]; congruence.
  - intros ([H|H] & _); [left|right].
    + destruct (has _ email); auto. exfalso. apply H, H1. reflexivity.
    + destruct (has _ phoneNumber); auto. exfalso. apply H, H2. reflexivity.
Qed.

Lemma creations_app l1 l2 : creations (l1 ++ l2) = creations l1 ++ creations l2.
Proof. unfold creations. apply flat_map_app. Qed.

Lemma creations_none l :
  (forall c, ~ In (CallCreate c) l) -> creations l = [].
Proof.
  induction l as [|x l IH]; simpl; intros H; auto.
  rewrite IH by (intros c Hc; apply (H c); auto).
  destruct x; auto. exfalso. apply (H created). auto.
Qed.

Lemma creations_mergeCalls others : creations (mergeCalls others) = [].
Proof.
  apply creations_none. intros c Hc. unfold mergeCalls in Hc.
  apply in_rev, in_flat_map in Hc. destruct Hc as (o & _ & [H|[H|[]]]); discriminate.
Qed.

Lemma creations_resolveCalls others : creations (resolveCalls others) = [].
Proof.
  destruct others as [|o os]; simpl; auto. apply (creations_mergeCalls (o :: os)).
Qed.

(** ** What any run creates, whether or not the store fails *)

Lemma sameRecords_refl w : sameRecords w w.
Proof. split; reflexivity. Qed.

Lemma sameRecords_trans w1 w2 w3 :
  sameRecords w1 w2 -> sameRecords w2 w3 -> sameRecords w1 w3.
Proof. intros [H1 H2] [H3 H4]. split; congruence. Qed.

Lemma oneMore_after w1 w2 w3 c :
  sameRecords w1 w2 -> oneMore c w2 w3 -> oneMore c w1 w3.
Proof. intros [H1 H2] [H3 H4]. split; congruence. Qed.

Lemma serve_sameRecords w w1 :
  serve w = Some w1 -> rows w1 = rows w /\ nextId w1 = nextId w /\ log w1 = log w.
Proof.
  unfold serve. destruct (failAfter w) as [[|n]|]; intros H; try discriminate;
    injection H as <-; auto.
Qed.

Lemma findMany_any where_ w r w' :
  findMany where_ w = (r, w') ->
  sameRecords w w' /\
  (r = inl StoreFailure \/ r = inr (selectRows where_ (rows w))).
Proof.
  unfold findMany. destruct (serve w) as [w1|] eqn:E; intros H; injection H as <- <-.
  - destruct (serve_sameRecords _ _ E) as (Hr & _ & Hl). split.
    + split; simpl; congruence.
    + right. rewrite Hr. reflexivity.
  - split; [apply sameRecords_refl|auto].
Qed.

Lemma update_any i data w r w' :
  (forall c, Contact.id (data c) = Contact.id c) ->
  update i data w = (r, w') -> sameRecords w w'.
Proof.
  intros Hd. unfold update. destruct (serve w) as [w1|] eqn:E.
  - destruct (serve_sameRecords _ _ E) as (Hr & _ & Hl).
    destruct (existsb (hasId i) (rows w1)); intros H; injection H as <- <-.
    + split; simpl; [congruence|]. rewrite updateRows_ids; auto. congruence.
    + split; congruence.
  - intros H; injection H as <- <-. apply sameRecords_refl.
Qed.

Lemma updateMany_any linked data w r w' :
  (forall c, Contact.id (data c) = Contact.id c) ->
  updateMany linked data w = (r, w') -> sameRecords w w'.
Proof.
  intros Hd. unfold updateMany. destruct (serve w) as [w1|] eqn:E;
    intros H; injection H as <- <-.
  - destruct (serve_sameRecords _ _ E) as (Hr & _ & Hl).
    split; simpl; [congruence|]. rewrite updateRows_ids; auto. congruence.
  - apply sameRecords_refl.
Qed.

Lemma create_any now e p l lp w r w' :
  create now e p l lp w = (r, w') ->
  (r = inl StoreFailure /\ w' = w) \/
  (r = inr (newRow (nextId w) now e p l lp) /\
   oneMore (newRow (nextId w) now e p l lp) w w').
Proof.
  unfold create. destruct (serve w) as [w1|] eqn:E; intros H; injection H as <- <-.
  - destruct (serve_sameRecords _ _ E) as (Hr & Hn & Hl). right.
    rewrite Hn. split; auto. split; simpl.
    + rewrite Hl. reflexivity.
    + rewrite map_app, Hr. reflexivity.
  - auto.
Qed.

Lemma idOf_any t w r w' : idOf t w = (r, w') -> w' = w.
Proof. destruct t; simpl; intros H; injection H as _ <-; reflexivity. Qed.

Lemma buildResponse_any pid all sids w r w' :
  buildResponse pid all sids w = (r, w') -> w' = w.
Proof.
  unfold buildResponse. destruct (find (hasId pid) all); intros H;
    injection H as _ <-; reflexivity.
Qed.

Lemma demoteAndRelink_any now t o w r w' :
  demoteAndRelink now t o w = (r, w') -> sameRecords w w'.
Proof.
  unfold demoteAndRelink. destruct t as [t|]; simpl.
  - unfold bind, ret.
    destruct (update (Contact.id o) (demote (Contact.id t) now) w) as [[e|[]] w1] eqn:E1.
    + intros H; injection H as _ <-. eapply update_any; [|exact E1]. reflexivity.
    + intros H. eapply sameRecords_trans.
      * eapply update_any; [|exact E1]. reflexivity.
      * eapply updateMany_any; [|exact H]. reflexivity.
  - unfold bind, throw. intros H; injection H as _ <-. apply sameRecords_refl.
Qed.

Lemma forEach_demoteAndRelink_any now t others w r w' :
  forEach others (demoteAndRelink now t) w = (r, w') -> sameRecords w w'.
Proof.
  revert w. induction others as [|o os IH]; intros w; simpl.
  - unfold ret. intros H; injection H as _ <-. apply sameRecords_refl.
  - unfold bind at 1. destruct (demoteAndRelink now t o w) as [[e|[]] w1] eqn:E1.
    + intros H; injection H as _ <-. eapply demoteAndRelink_any; eauto.
    + intros H. eapply sameRecords_trans.
      * eapply demoteAndRelink_any; eauto.
      * eapply IH; eauto.
Qed.

(** One step of a run: the first store call of a [bind] either fails or
    hands its result to the continuation. *)
Tactic Notation "bind_step" hyp(H) ident(a) ident(w1) ident(E) :=
  unfold bind at 1 in H;
  match type of H with
  | (let (_, _) := ?m ?w in _) = _ =>
      destruct (m w) as [[?e|a] w1] eqn:E;
      [first [discriminate H | injection H as <- <-]|]
  | match ?m ?w with pair _ _ => _ end = _ =>
      destruct (m w) as [[?e|a] w1] eqn:E;
      [first [discriminate H | injection H as <- <-]|]
  end.

Lemma identify_any now req w r w' :
  identifyContact now req w = (r, w') ->
  sameRecords w w' \/
  exists c,
    oneMore c w w' /\
    ((matchesOf req (rows w) = [] /\
      Contact.linkPrecedence c = primary /\ Contact.linkedId c = None) \/
     (matchesOf req (rows w) <> [] /\
      Contact.linkPrecedence c = secondary /\ Contact.linkedId c <> None)).
Proof.
  unfold identifyContact. intros H.
  destruct (negb (truthy (IdentifyRequest.email req)) &&
            negb (truthy (IdentifyRequest.phoneNumber req))).
  { injection H as _ <-. left. apply sameRecords_refl. }
  bind_step H ms w1 E1.
  { left. eapply findMany_any; eauto. }
  destruct (findMany_any _ _ _ _ E1) as [S1 [Hr|Hr]]; [discriminate|].
  injection Hr as Hms. fold (matchesOf req (rows w)) in Hms.
  rewrite length_eqb_0 in H. destruct ms as [|m ms'].
  - (* no match *)
    bind_step H c w2 E2.
    { left. destruct (create_any _ _ _ _ _ _ _ _ E2) as [[_ ->]|[? _]]; [auto|discriminate]. }
    destruct (create_any _ _ _ _ _ _ _ _ E2) as [[? _]|[Hc Hone]]; [discriminate|].
    injection Hc as ->. apply buildResponse_any in H. subst w'.
    right. eexists. split; [eapply oneMore_after; eauto|].
    left. auto.
  - (* matches *)
    assert (matchesOf req (rows w) <> []) as Hne by (rewrite <- Hms; discriminate).
    bind_step H cands w2 E2.
    { left. eapply sameRecords_trans; [exact S1|]. eapply findMany_any; eauto. }
    assert (sameRecords w w2) as S2.
    { eapply sameRecords_trans; [exact S1|]. eapply findMany_any; eauto. }
    clear E2 S1 E1.
    bind_step H members w3 E3.
    { left. eapply sameRecords_trans; [exact S2|].
      destruct (0 <? length (tl (primariesOf cands)))%nat.
      - bind_step E3 u w4 E4.
        { eapply forEach_demoteAndRelink_any; eauto. }
        apply forEach_demoteAndRelink_any in E4.
        bind_step E3 tid w5 E5.
        { apply idOf_any in E5. subst. exact E4. }
        apply idOf_any in E5. subst w5.
        eapply sameRecords_trans; [exact E4|]. eapply findMany_any; eauto.
      - discriminate. }
    assert (sameRecords w w3) as S3.
    { eapply sameRecords_trans; [exact S2|].
      destruct (0 <? length (tl (primariesOf cands)))%nat.
      - bind_step E3 u w4 E4.
        apply forEach_demoteAndRelink_any in E4.
        bind_step E3 tid w5 E5.
        apply idOf_any in E5. subst w5.
        eapply sameRecords_trans; [exact E4|]. eapply findMany_any; eauto.
      - injection E3 as _ <-. apply sameRecords_refl. }
    clear E3 S2.
    bind_step H members2 w4 E4.
    { destruct (createsSecondary _ _ members); [|discriminate].
      bind_step E4 tid w5 E5.
      { left. apply idOf_any in E5. subst. exact S3. }
      apply idOf_any in E5. subst w5.
      bind_step E4 c w6 E6.
      { left. destruct (create_any _ _ _ _ _ _ _ _ E6) as [[_ ->]|[? _]]; [auto|discriminate]. }
      discriminate. }
    bind_step H tid w5 E5.
    { destruct (createsSecondary _ _ members).
      - bind_step E4 tid w6 E6.
        destruct (hd_error (primariesOf cands)); simpl in E5, E6;
          [discriminate E5|discriminate E6].
      - injection E4 as _ <-. apply idOf_any in E5. subst w5. left. exact S3. }
    apply idOf_any in E5. subst w5. apply buildResponse_any in H. subst w'.
    destruct (createsSecondary _ _ members).
    + bind_step E4 tid' w6 E6.
      bind_step E4 c w7 E7.
      injection E4 as _ <-. apply idOf_any in E6. subst w6.
      destruct (create_any _ _ _ _ _ _ _ _ E7) as [[? _]|[Hc Hone]]; [discriminate|].
      injection Hc as ->.
      right. eexists. split; [eapply oneMore_after; eauto|].
      right. split; [exact Hne|]. split; [reflexivity|]. simpl. discriminate.
    + injection E4 as _ <-. left. exact S3.
Qed.

(** ** At most one record per call (claim C9) *)

(** C9: whatever the store does, a call of [identifyContact] leaves the
    records as they were or creates exactly one: a primary without a link
    when nothing matched, a linked secondary when something matched, never
    both; and when nothing matches a valid request and the store does not
    fail, the fresh primary is created. *)
Theorem at_most_one_contact_created now req w :
  let w' := snd (identifyContact now req w) in
  (sameRecords w w' \/
   exists c,
     oneMore c w w' /\
     ((matchesOf req (rows w) = [] /\
       Contact.linkPrecedence c = primary /\ Contact.linkedId c = None) \/
      (matchesOf req (rows w) <> [] /\
       Contact.linkPrecedence c = secondary /\ Contact.linkedId c <> None))) /\
  (failAfter w = None ->
   validRequest req = true ->
   matchesOf req (rows w) = [] ->
   exists c,
     oneMore c w w' /\
     Contact.linkPrecedence c = primary /\ Contact.linkedId c = None).
Proof.
  intros w'. split.
  - apply (identify_any now req w (fst (identifyContact now req w))).
    apply surjective_pairing.
  - intros Hnf Hv Hm. unfold w'.
    rewrite (identify_fresh_run now req w Hnf Hv Hm). cbn [snd].
    exists (newRow (nextId w) now (IdentifyRequest.email req)
                   (IdentifyRequest.phoneNumber req) None primary).
    split; [|split; reflexivity].
    split; cbn [rows log]; [reflexivity|]. rewrite map_app. reflexivity.
Qed.

Lemma at_most_one_contact_created_witness :
  let w := mkWorld [] 1 [] None in
  let req := IdentifyRequest.mk (Some "a@x.com"%string) None in
  let w' := snd (identifyContact 10 req w) in
  failAfter w = None /\ validRequest req = true /\ matchesOf req (rows w) = [] /\
  exists c,
    oneMore c w w' /\
    Contact.linkPrecedence c = primary /\ Contact.linkedId c = None.
Proof.
  intros w req w'.
  assert (failAfter w = None) as H1 by reflexivity.
  assert (validRequest req = true) as H2 by reflexivity.
  assert (matchesOf req (rows w) = []) as H3 by reflexivity.
  repeat split; auto.
  exact (proj2 (at_most_one_contact_created 10 req w) H1 H2 H3).
Defined.

(** ** The loop of step 5, row by row *)

(** When the true primary is not among the primaries to demote, the loop
    demotes exactly those, re-links exactly the live rows linked to one of
    them, and leaves every other row as it is. *)
Lemma mergeOne_closed now tid others c :
  isOther others tid = false ->
  mergeOne now tid others c =
  if isOther others (Contact.id c) then demote tid now c
  else if linksToOther others c then relink tid now c
  else c.
Proof.
  revert c. induction others as [|o os IH]; intros c Htid.
  - simpl. unfold linksToOther. simpl.
    destruct (notDeleted c), (Contact.linkedId c); reflexivity.
  - simpl in Htid. apply orb_false_iff in Htid. destruct Htid as [Ho Hos].
    unfold hasId in Ho. apply Z.eqb_neq in Ho.
    unfold mergeOne in *. simpl fold_left. rewrite (IH _ Hos). clear IH.
    unfold mergeStep1, linkedToWhere, linksToOther, isOther, hasId.
    cbn [existsb].
    destruct (Z.eqb_spec (Contact.id c) (Contact.id o)) as [Eid|Nid].
    + (* the row is the primary being demoted *)
      cbn [demote Contact.linkedId Contact.id linkIs notDeleted Contact.deletedAt].
      rewrite (proj2 (Z.eqb_neq tid (Contact.id o))) by congruence.
      cbn [andb]. cbn [demote Contact.linkedId Contact.id notDeleted Contact.deletedAt].
      fold (hasId tid). fold (isOther os tid). rewrite Hos.
      rewrite Eid, Z.eqb_refl. cbn [orb].
      destruct (existsb _ os); [reflexivity|].
      rewrite andb_false_r. reflexivity.
    + rewrite (proj2 (Z.eqb_neq (Contact.id o) (Contact.id c))) by congruence.
      cbn [orb].
      destruct (Contact.linkedId c) as [l|] eqn:El; cbn [linkIs].
      * destruct (Z.eqb_spec l (Contact.id o)) as [El'|Nl].
        -- destruct (Contact.deletedAt c) as [d|] eqn:Ed.
           ++ (* tombstoned: not re-linked *)
              unfold notDeleted. rewrite Ed. cbn [andb]. rewrite El, Ed. cbn [andb].
              reflexivity.
           ++ (* live and linked to the primary being demoted *)
              unfold notDeleted. rewrite Ed. cbn [andb].
              cbn [relink Contact.linkedId Contact.id Contact.deletedAt].
              rewrite Ed. cbn [andb].
              fold (hasId tid). fold (isOther os tid). rewrite Hos.
              subst l. rewrite Z.eqb_refl. cbn [orb].
              destruct (existsb _ os); reflexivity.
        -- cbn [andb]. rewrite El.
           rewrite (proj2 (Z.eqb_neq (Contact.id o) l)) by congruence.
           cbn [orb]. reflexivity.
      * cbn [andb]. rewrite El. reflexivity.
Qed.

(** ** Distinct ids *)

Lemma distinctIds_NoDup ids : distinctIds ids = true <-> NoDup ids.
Proof.
  induction ids as [|i l IH]; simpl.
  - split; auto. constructor.
  - rewrite andb_true_iff, negb_true_iff, IH. split.
    + intros [H1 H2]. constructor; auto. intros Hin.
      assert (existsb (Z.eqb i) l = true) as E.
      { apply existsb_exists. exists i. split; auto. apply Z.eqb_refl. }
      congruence.
    + intros H. inversion H as [|? ? Hni Hnd]; subst. split; auto.
      destruct (existsb (Z.eqb i) l) eqn:E; auto.
      apply existsb_exists in E. destruct E as (j & Hj & E).
      apply Z.eqb_eq in E. subst j. contradiction.
Qed.

Lemma NoDup_map_filter {A B} (g : A -> B) (f : A -> bool) l :
  NoDup (map g l) -> NoDup (map g (filter f l)).
Proof.
  induction l as [|x l IH]; simpl; intros H; auto.
  inversion H as [|? ? Hni Hnd]; subst. destruct (f x); simpl; auto.
  constructor; auto. intros Hin. apply Hni.
  apply in_map_iff in Hin. destruct Hin as (y & E & Hy).
  apply filter_In in Hy. apply in_map_iff. exists y. tauto.
Qed.

Lemma insertByCreatedAt_ids_NoDup x l :
  NoDup (map Contact.id (x :: l)) -> NoDup (map Contact.id (insertByCreatedAt x l)).
Proof.
  induction l as [|y l IH]; simpl; intros H; auto.
  destruct (Contact.createdAt x <=? Contact.createdAt y); simpl; auto.
  inversion H as [|? ? Hx Hnd]; subst. inversion Hnd as [|? ? Hy Hl]; subst.
  simpl in Hx. constructor.
  - intros Hin. apply in_map_iff in Hin. destruct Hin as (z & E & Hz).
    apply insertByCreatedAt_In in Hz. destruct Hz as [->|Hz].
    + apply Hx. left. auto.
    + apply Hy. apply in_map_iff. exists z. auto.
  - apply IH. simpl. constructor; auto.
Qed.

Lemma sortByCreatedAt_ids_NoDup l :
  NoDup (map Contact.id l) -> NoDup (map Contact.id (sortByCreatedAt l)).
Proof.
  induction l as [|x l IH]; simpl; intros H; [constructor|].
  inversion H as [|? ? Hx Hnd]; subst.
  apply insertByCreatedAt_ids_NoDup. simpl. constructor; [|apply IH; exact Hnd].
  intros Hin. apply Hx. apply in_map_iff in Hin. destruct Hin as (z & E & Hz).
  rewrite sortByCreatedAt_In in Hz. apply in_map_iff. exists z. auto.
Qed.

Lemma selectRows_ids_NoDup f rs :
  NoDup (map Contact.id rs) -> NoDup (map Contact.id (selectRows f rs)).
Proof. intros H. apply sortByCreatedAt_ids_NoDup, NoDup_map_filter, H. Qed.

Lemma primaries_ids_NoDup req rs :
  NoDup (map Contact.id rs) ->
  NoDup (map Contact.id (primariesOf (candidatesOf req rs))).
Proof.
  intros H. apply sortByCreatedAt_ids_NoDup, NoDup_map_filter, selectRows_ids_NoDup, H.
Qed.

Lemma isOther_In others i :
  isOther others i = true <-> In i (map Contact.id others).
Proof.
  unfold isOther. rewrite existsb_exists, in_map_iff. unfold hasId.
  split; intros (o & H1 & H2); exists o.
  - apply Z.eqb_eq in H2. auto.
  - split; auto. apply Z.eqb_eq. auto.
Qed.

(** With distinct ids, the true primary is not one of the primaries that
    step 5 demotes. *)
Lemma truePrimary_not_other req rs t others :
  NoDup (map Contact.id rs) ->
  primariesOf (candidatesOf req rs) = t :: others ->
  isOther others (Contact.id t) = false.
Proof.
  intros Hnd Hp. pose proof (primaries_ids_NoDup req rs Hnd) as H.
  rewrite Hp in H. simpl in H. inversion H as [|? ? Hni _]; subst.
  destruct (isOther others (Contact.id t)) eqn:E; auto.
  apply isOther_In in E. contradiction.
Qed.

Lemma isOther_false_neq others i o :
  isOther others i = false -> In o others -> Contact.id o <> i.
Proof.
  intros H Ho E. assert (isOther others i = true); [|congruence].
  apply isOther_In. rewrite <- E. apply in_map. exact Ho.
Qed.

Lemma identify_inr_valid now req w resp w' :
  identifyContact now req w = (inr resp, w') -> validRequest req = true.
Proof.
  intros H. destruct (validRequest req) eqn:E; auto.
  rewrite (identify_invalid_run now req w E) in H. discriminate.
Qed.

(** The rows of the table after a call that found a true primary. *)
Lemma worldAfter_rows now req w t others c :
  In c (rows (worldAfter now req w t others)) ->
  (exists c0, In c0 (rows w) /\ c = mergeOne now (Contact.id t) others c0) \/
  (createsFor now req w t others = true /\ c = secondaryFor now req w t).
Proof.
  unfold worldAfter. destruct (createsFor now req w t others); cbn [rows]; intros H.
  - apply in_app_or in H. destruct H as [H|[<-|[]]]; [left|right; auto].
    rewrite mergeRows_map in H. apply in_map_iff in H. destruct H as (c0 & <- & H). eauto.
  - left. rewrite mergeRows_map in H. apply in_map_iff in H.
    destruct H as (c0 & <- & H). eauto.
Qed.

Lemma worldAfter_log now req w t others :
  exists later,
    log (worldAfter now req w t others) =
    later ++ mergeCalls others ++ CallFindMany :: CallFindMany :: log w.
Proof.
  unfold worldAfter.
  destruct (createsFor now req w t others), others as [|o os]; cbn [log resolveCalls].
  - exists [CallCreate (secondaryFor now req w t)]. reflexivity.
  - exists [CallCreate (secondaryFor now req w t); CallFindMany]. reflexivity.
  - exists []. reflexivity.
  - exists [CallFindMany]. reflexivity.
Qed.

(** ** Demotion and re-link of a stale primary (claim C6) *)

(** C6, as amended: for each stale primary the demotion and the re-link of
    the contacts linked to it are two consecutive store calls, the demotion
    first; when no store call fails both take effect, so that after the
    call the stale primary is a secondary linked to the true primary and no
    non-deleted contact is linked to it any more. *)
Theorem stale_primary_demoted_and_relinked_when_no_call_fails
  now req w t others resp w' :
  failAfter w = None ->
  distinctIds (map Contact.id (rows w)) = true ->
  matchesOf req (rows w) <> [] ->
  primariesOf (candidatesOf req (rows w)) = t :: others ->
  identifyContact now req w = (inr resp, w') ->
  (forall o, In o others ->
     (forall c, In c (rows w') -> Contact.id c = Contact.id o ->
        Contact.linkPrecedence c = secondary /\
        Contact.linkedId c = Some (Contact.id t)) /\
     (forall c, In c (rows w') -> notDeleted c = true ->
        Contact.linkedId c <> Some (Contact.id o))) /\
  exists later,
    log w' = later ++ mergeCalls others ++ CallFindMany :: CallFindMany :: log w.
Proof.
  intros Hnf Hd Hm Hp Hrun.
  pose proof (identify_inr_valid _ _ _ _ _ Hrun) as Hv.
  destruct (identify_cluster_run now req w t others Hnf Hv Hm Hp) as (t' & _ & Hr).
  rewrite Hr in Hrun. injection Hrun as _ <-.
  apply distinctIds_NoDup in Hd.
  pose proof (truePrimary_not_other req (rows w) t others Hd Hp) as Ht.
  split; [|apply worldAfter_log].
  intros o Ho. split.
  - intros c Hc Hid. apply worldAfter_rows in Hc.
    destruct Hc as [(c0 & Hc0 & ->)|[_ ->]]; [|split; reflexivity].
    rewrite mergeOne_id in Hid. rewrite (mergeOne_closed now _ others c0 Ht).
    assert (isOther others (Contact.id c0) = true) as ->.
    { apply isOther_In. rewrite Hid. apply in_map. exact Ho. }
    split; reflexivity.
  - intros c Hc Hlive Hlink. apply worldAfter_rows in Hc.
    pose proof (isOther_false_neq others _ o Ht Ho) as Hne.
    destruct Hc as [(c0 & Hc0 & ->)|[_ ->]].
    + rewrite mergeOne_notDeleted in Hlive.
      rewrite (mergeOne_closed now _ others c0 Ht) in Hlink.
      destruct (isOther others (Contact.id c0)); [simpl in Hlink; congruence|].
      destruct (linksToOther others c0) eqn:El; [simpl in Hlink; congruence|].
      unfold linksToOther in El. rewrite Hlive, Hlink in El. simpl in El.
      apply (isOther_false_neq others _ o El Ho). reflexivity.
    + simpl in Hlink. congruence.
Qed.

Lemma stale_primary_witness :
  let p1 := Contact.mk 1 (Some "a@x.com"%string) (Some "111"%string) None primary 10 10 None in
  let p2 := Contact.mk 2 (Some "b@x.com"%string) (Some "222"%string) None primary 20 20 None in
  let s3 := Contact.mk 3 (Some "c@x.com"%string) (Some "222"%string) (Some 2) secondary 25 25 None in
  let w := mkWorld [p1; p2; s3] 4 [] None in
  let req := IdentifyRequest.mk (Some "a@x.com"%string) (Some "222"%string) in
  let w' := snd (identifyContact 30 req w) in
  rows w' = [p1; demote 1 30 p2; relink 1 30 s3] /\
  (forall o, In o [p2] ->
     (forall c, In c (rows w') -> Contact.id c = Contact.id o ->
        Contact.linkPrecedence c = secondary /\ Contact.linkedId c = Some 1) /\
     (forall c, In c (rows w') -> notDeleted c = true ->
        Contact.linkedId c <> Some (Contact.id o))) /\
  exists later,
    log w' = later ++ mergeCalls [p2] ++ CallFindMany :: CallFindMany :: log w.
Proof.
  intros p1 p2 s3 w req w'. split; [vm_compute; reflexivity|].
  assert (failAfter w = None) as H1 by reflexivity.
  assert (distinctIds (map Contact.id (rows w)) = true) as H2 by reflexivity.
  assert (matchesOf req (rows w) <> []) as H3 by (vm_compute; discriminate).
  assert (primariesOf (candidatesOf req (rows w)) = p1 :: [p2]) as H4
      by (vm_compute; reflexivity).
  assert (identifyContact 30 req w = (inr (IdentifyResponse.mk 1
            ["a@x.com"%string; "b@x.com"%string; "c@x.com"%string]
            ["111"%string; "222"%string] [2; 3]), w')) as H5
      by (vm_compute; reflexivity).
  exact (stale_primary_demoted_and_relinked_when_no_call_fails 30 req w p1 [p2] _ w'
           H1 H2 H3 H4 H5).
Defined.

(** C6 as stated fails: the two store calls are not one atomic unit.  When
    the store serves the demotion of the stale primary (the third call) and
    fails on the re-link (the fourth), the call ends with the stale primary
    demoted and its secondary still linked to it. *)
Lemma demotion_without_relink_observable :
  let p1 := Contact.mk 1 (Some "a@x.com"%string) (Some "111"%string) None primary 10 10 None in
  let p2 := Contact.mk 2 (Some "b@x.com"%string) (Some "222"%string) None primary 20 20 None in
  let s3 := Contact.mk 3 (Some "c@x.com"%string) (Some "222"%string) (Some 2) secondary 25 25 None in
  let w := mkWorld [p1; p2; s3] 4 [] (Some 3%nat) in
  let req := IdentifyRequest.mk (Some "a@x.com"%string) (Some "222"%string) in
  let r := identifyContact 30 req w in
  fst r = inl StoreFailure /\
  rows (snd r) = [p1; demote 1 30 p2; s3] /\
  Contact.linkPrecedence (demote 1 30 p2) = secondary /\
  Contact.linkedId s3 = Some (Contact.id p2) /\
  notDeleted s3 = true.
Proof. vm_compute. repeat split; reflexivity. Qed.

(** ** The head of the sorted primaries *)

Lemma firstEarliest_cons x l : firstEarliest (x :: l) = earlierOpt x (firstEarliest l).
Proof. reflexivity. Qed.

Lemma earlierOpt_swap x y o :
  Contact.createdAt y < Contact.createdAt x ->
  match earlierOpt x o with
  | Some z => earlierOpt y (Some z)
  | None => None
  end =
  match earlierOpt y o with
  | Some z => earlierOpt x (Some z)
  | None => None
  end.
Proof.
  intros H. destruct o as [z|]; cbn [earlierOpt]; unfold earlier.
  - destruct (Z.leb_spec (Contact.createdAt x) (Contact.createdAt z));
      destruct (Z.leb_spec (Contact.createdAt y) (Contact.createdAt z));
      repeat match goal with
             | |- context [Z.leb ?a ?b] => destruct (Z.leb_spec a b)
             end;
      try reflexivity; lia.
  - destruct (Z.leb_spec (Contact.createdAt y) (Contact.createdAt x));
      destruct (Z.leb_spec (Contact.createdAt x) (Contact.createdAt y));
      try reflexivity; lia.
Qed.

(** An element may move behind elements that are strictly earlier. *)
Lemma firstEarliest_move x l1 l2 :
  Forall (fun y => Contact.createdAt y < Contact.createdAt x) l1 ->
  firstEarliest (l1 ++ x :: l2) = firstEarliest (x :: l1 ++ l2).
Proof.
  induction 1 as [|y l1 Hy Hl IH]; [reflexivity|].
  simpl app. rewrite firstEarliest_cons, IH.
  rewrite (firstEarliest_cons x (y :: l1 ++ l2)), (firstEarliest_cons y (l1 ++ l2)).
  rewrite (firstEarliest_cons x (l1 ++ l2)).
  pose proof (earlierOpt_swap x y (firstEarliest (l1 ++ l2)) Hy) as E.
  destruct (firstEarliest (l1 ++ l2)); simpl in *; congruence.
Qed.

Lemma insertByCreatedAt_split x l :
  exists l1 l2,
    l = l1 ++ l2 /\ insertByCreatedAt x l = l1 ++ x :: l2 /\
    Forall (fun y => Contact.createdAt y < Contact.createdAt x) l1.
Proof.
  induction l as [|y l IH]; simpl.
  - exists [], []. auto.
  - destruct (Z.leb_spec (Contact.createdAt x) (Contact.createdAt y)).
    + exists [], (y :: l). auto.
    + destruct IH as (l1 & l2 & -> & -> & H1). exists (y :: l1), l2. auto.
Qed.

(** The sort is stable: among the rows that a filter keeps, the first of
    the earliest is the same before and after sorting. *)
Lemma firstEarliest_filter_sort f l :
  firstEarliest (filter f (sortByCreatedAt l)) = firstEarliest (filter f l).
Proof.
  induction l as [|x l IH]; [reflexivity|]. simpl sortByCreatedAt.
  destruct (insertByCreatedAt_split x (sortByCreatedAt l)) as (l1 & l2 & E & -> & H1).
  rewrite E in IH. rewrite filter_app in *. simpl. destruct (f x).
  - rewrite firstEarliest_move.
    + rewrite !firstEarliest_cons, IH. reflexivity.
    + apply Forall_forall. intros y Hy. apply filter_In in Hy.
      rewrite Forall_forall in H1. apply H1. tauto.
  - exact IH.
Qed.

(** Line 108: [primaries[0]] is the first, in the order of the table, of the
    earliest primaries among the candidates. *)
Lemma truePrimary_firstEarliest req rs :
  hd_error (primariesOf (candidatesOf req rs)) = firstEarliest (candidatePrimaries req rs).
Proof.
  unfold primariesOf, candidatesOf, selectRows, candidatePrimaries.
  rewrite hd_sortByCreatedAt. apply firstEarliest_filter_sort.
Qed.

Lemma candidatePrimaries_In req rs c :
  In c (candidatePrimaries req rs) <->
  In c (candidatesOf req rs) /\ isPrimary c = true.
Proof.
  unfold candidatePrimaries, candidatesOf. rewrite filter_In, selectRows_In, filter_In.
  tauto.
Qed.

Lemma StronglySorted_filter {A} (R : A -> A -> Prop) f l :
  StronglySorted R l -> StronglySorted R (filter f l).
Proof.
  induction 1 as [|x l Hl IH Hx]; simpl; [constructor|].
  destruct (f x); auto. constructor; auto.
  apply Forall_forall. intros y Hy. apply filter_In in Hy.
  rewrite Forall_forall in Hx. apply Hx. tauto.
Qed.

Lemma StronglySorted_after {A} (R : A -> A -> Prop) l1 x l2 y :
  StronglySorted R (l1 ++ x :: l2) -> In y l2 -> R x y.
Proof.
  induction l1 as [|z l1 IH]; simpl; intros H Hy.
  - inversion H as [|? ? _ Hx]; subst. rewrite Forall_forall in Hx. auto.
  - inversion H; subst. auto.
Qed.

(** A call that answers, having found matches, selected the head of the
    sorted primaries. *)
Lemma identify_selected now req w resp w' :
  failAfter w = None ->
  matchesOf req (rows w) <> [] ->
  identifyContact now req w = (inr resp, w') ->
  exists t others,
    primariesOf (candidatesOf req (rows w)) = t :: others /\
    IdentifyResponse.primaryContactId resp = Contact.id t /\
    w' = worldAfter now req w t others.
Proof.
  intros Hnf Hm Hrun. pose proof (identify_inr_valid _ _ _ _ _ Hrun) as Hv.
  destruct (primariesOf (candidatesOf req (rows w))) as [|t others] eqn:Hp.
  - rewrite (identify_inconsistent_run now req w Hnf Hv Hm Hp) in Hrun. discriminate.
  - destruct (identify_cluster_run now req w t others Hnf Hv Hm Hp) as (t' & Hf & Hr).
    rewrite Hr in Hrun. injection Hrun as <- <-. exists t, others.
    split; [reflexivity|]. split; [|reflexivity].
    apply find_hasId_id in Hf. simpl. tauto.
Qed.

(** ** The choice of the true primary (claim C4) *)

(** C4, as amended: the true primary is the candidate primary with the
    earliest [createdAt]; among several that share the earliest [createdAt]
    it is the one that comes first in the order in which the store returns
    rows of equal [createdAt], which is the one with the smallest id when
    the table is in ascending order of id; the choice depends on the table
    and the request only, so it is the same on every run with the same
    store state and inputs. *)
Theorem true_primary_is_first_of_earliest now req w resp w' :
  failAfter w = None ->
  matchesOf req (rows w) <> [] ->
  identifyContact now req w = (inr resp, w') ->
  exists t,
    firstEarliest (candidatePrimaries req (rows w)) = Some t /\
    IdentifyResponse.primaryContactId resp = Contact.id t /\
    (forall c, In c (candidatePrimaries req (rows w)) ->
       Contact.createdAt t <= Contact.createdAt c) /\
    (ascendingIds (rows w) ->
     forall c, In c (candidatePrimaries req (rows w)) ->
       Contact.createdAt c = Contact.createdAt t -> Contact.id t <= Contact.id c) /\
    (forall now2 w2 resp2 w2',
       rows w2 = rows w -> failAfter w2 = None ->
       identifyContact now2 req w2 = (inr resp2, w2') ->
       IdentifyResponse.primaryContactId resp2 = IdentifyResponse.primaryContactId resp).
Proof.
  intros Hnf Hm Hrun.
  destruct (identify_selected _ _ _ _ _ Hnf Hm Hrun) as (t & others & Hp & Hid & _).
  pose proof (truePrimary_firstEarliest req (rows w)) as Hfe.
  rewrite Hp in Hfe. simpl in Hfe. symmetry in Hfe.
  exists t. split; [exact Hfe|]. split; [exact Hid|].
  destruct (firstEarliest_split _ _ Hfe) as (l1 & l2 & El & H1 & H2).
  rewrite Forall_forall in H1, H2.
  split; [|split].
  - intros c Hc. rewrite El in Hc. apply in_app_or in Hc.
    destruct Hc as [Hc|[<-|Hc]]; [apply H1 in Hc|..|apply H2 in Hc]; lia.
  - intros Hasc c Hc Hsame.
    assert (StronglySorted (fun a b => Contact.id a < Contact.id b)
                           (candidatePrimaries req (rows w))) as Hs.
    { unfold candidatePrimaries. apply StronglySorted_filter, StronglySorted_filter, Hasc. }
    rewrite El in Hc, Hs. apply in_app_or in Hc.
    destruct Hc as [Hc|[<-|Hc]].
    + apply H1 in Hc. lia.
    + lia.
    + pose proof (StronglySorted_after _ _ _ _ _ Hs Hc). simpl in *. lia.
  - intros now2 w2 resp2 w2' Hrows Hnf2 Hrun2. rewrite <- Hrows in Hm, Hp.
    destruct (identify_selected _ _ _ _ _ Hnf2 Hm Hrun2) as (t2 & others2 & Hp2 & Hid2 & _).
    rewrite Hp in Hp2. injection Hp2 as <- _. congruence.
Qed.

Lemma true_primary_witness :
  let a := Contact.mk 1 (Some "a@x.com"%string) (Some "111"%string) None primary 10 10 None in
  let b := Contact.mk 2 (Some "b@x.com"%string) (Some "222"%string) None primary 10 10 None in
  let w := mkWorld [a; b] 3 [] None in
  let req := IdentifyRequest.mk (Some "b@x.com"%string) (Some "111"%string) in
  ascendingIds (rows w) /\
  candidatePrimaries req (rows w) = [a; b] /\
  exists resp, fst (identifyContact 30 req w) = inr resp /\
  exists t,
    firstEarliest (candidatePrimaries req (rows w)) = Some t /\
    IdentifyResponse.primaryContactId resp = Contact.id t /\
    (forall c, In c (candidatePrimaries req (rows w)) ->
       Contact.createdAt t <= Contact.createdAt c) /\
    (ascendingIds (rows w) ->
     forall c, In c (candidatePrimaries req (rows w)) ->
       Contact.createdAt c = Contact.createdAt t -> Contact.id t <= Contact.id c) /\
    (forall now2 w2 resp2 w2',
       rows w2 = rows w -> failAfter w2 = None ->
       identifyContact now2 req w2 = (inr resp2, w2') ->
       IdentifyResponse.primaryContactId resp2 = IdentifyResponse.primaryContactId resp).
Proof.
  intros a b w req.
  split.
  { repeat constructor. }
  split; [vm_compute; reflexivity|].
  assert (failAfter w = None) as H1 by reflexivity.
  assert (matchesOf req (rows w) <> []) as H2 by (vm_compute; discriminate).
  destruct (identifyContact 30 req w) as [r w'] eqn:E.
  assert (exists resp, r = inr resp) as [resp ->].
  { vm_compute in E. injection E as <- _. eexists. reflexivity. }
  exists resp. split; [reflexivity|].
  exact (true_primary_is_first_of_earliest 30 req w resp w' H1 H2 E).
Defined.

(** C4 as stated fails: two primaries share the earliest [createdAt] and the
    store returns the one with id 2 before the one with id 1; the true
    primary is the one with id 2, not the one with the smallest id. *)
Lemma tie_not_broken_by_smallest_id :
  let b := Contact.mk 2 (Some "b@x.com"%string) (Some "222"%string) None primary 10 10 None in
  let a := Contact.mk 1 (Some "a@x.com"%string) (Some "111"%string) None primary 10 10 None in
  let w := mkWorld [b; a] 3 [] None in
  let req := IdentifyRequest.mk (Some "a@x.com"%string) (Some "222"%string) in
  candidatePrimaries req (rows w) = [b; a] /\
  Contact.createdAt a = Contact.createdAt b /\
  Contact.id a < Contact.id b /\
  fst (identifyContact 30 req w) =
    inr (IdentifyResponse.mk 2 ["b@x.com"%string; "a@x.com"%string]
                             ["222"%string; "111"%string] [1]).
Proof. vm_compute. repeat split; reflexivity. Qed.

(** ** Forests without orphans *)

Lemma livePrimaryAt_iff rs i :
  livePrimaryAt rs i = true <->
  exists p, In p rs /\ Contact.id p = i /\ notDeleted p = true /\ isPrimary p = true.
Proof.
  unfold livePrimaryAt. rewrite existsb_exists. unfold hasId.
  split; intros (p & Hp & H); exists p.
  - rewrite !andb_true_iff, Z.eqb_eq in H. tauto.
  - rewrite !andb_true_iff, Z.eqb_eq. tauto.
Qed.

Lemma wellLinked_primary rs c :
  wellLinked rs c = true -> notDeleted c = true -> isPrimary c = true ->
  Contact.linkedId c = None.
Proof.
  unfold wellLinked, isPrimary. intros H Hl Hp. rewrite Hl in H. simpl in H.
  destruct (Contact.linkPrecedence c); [|discriminate].
  destruct (Contact.linkedId c); [discriminate|reflexivity].
Qed.

Lemma wellLinked_secondary rs c :
  wellLinked rs c = true -> notDeleted c = true -> isPrimary c = false ->
  exists l, Contact.linkedId c = Some l /\ livePrimaryAt rs l = true.
Proof.
  unfold wellLinked, isPrimary. intros H Hl Hp. rewrite Hl in H. simpl in H.
  destruct (Contact.linkPrecedence c); [discriminate|].
  destruct (Contact.linkedId c) as [l|]; [eauto|discriminate].
Qed.

Lemma liveForest_elim w :
  liveForest w = true ->
  NoDup (map Contact.id (rows w)) /\
  (forall c, In c (rows w) -> Contact.id c < nextId w) /\
  (forall c, In c (rows w) -> wellLinked (rows w) c = true).
Proof.
  unfold liveForest. rewrite !andb_true_iff, distinctIds_NoDup, !forallb_forall.
  intros [[H1 H2] H3]. repeat split; auto.
  intros c Hc. apply Z.ltb_lt. auto.
Qed.

Lemma liveForest_intro w :
  NoDup (map Contact.id (rows w)) ->
  (forall c, In c (rows w) -> Contact.id c < nextId w) ->
  (forall c, In c (rows w) -> wellLinked (rows w) c = true) ->
  liveForest w = true.
Proof.
  intros H1 H2 H3. unfold liveForest.
  rewrite !andb_true_iff, distinctIds_NoDup, !forallb_forall. repeat split; auto.
  intros c Hc. apply Z.ltb_lt. auto.
Qed.

(** Rows with the same id are the same row. *)
Lemma same_id_same_row rs a b :
  NoDup (map Contact.id rs) -> In a rs -> In b rs ->
  Contact.id a = Contact.id b -> a = b.
Proof.
  induction rs as [|x rs IH]; simpl; intros Hnd Ha Hb E; [contradiction|].
  inversion Hnd as [|? ? Hx Hrs]; subst.
  destruct Ha as [->|Ha], Hb as [->|Hb]; auto.
  - exfalso. apply Hx. rewrite E. apply in_map. exact Hb.
  - exfalso. apply Hx. rewrite <- E. apply in_map. exact Ha.
Qed.

(** In a forest, the root of a live row is the id of a live primary. *)
Lemma liveForest_root w c :
  liveForest w = true -> In c (rows w) -> notDeleted c = true ->
  exists p,
    In p (rows w) /\ rootId c = Some (Contact.id p) /\
    notDeleted p = true /\ isPrimary p = true /\
    (isPrimary c = true -> p = c).
Proof.
  intros Hf Hc Hl. destruct (liveForest_elim w Hf) as (_ & _ & Hw).
  specialize (Hw c Hc). destruct (isPrimary c) eqn:Ep.
  - exists c. repeat split; auto.
    unfold rootId. unfold isPrimary in Ep.
    destruct (Contact.linkPrecedence c); [reflexivity|discriminate].
  - destruct (wellLinked_secondary _ _ Hw Hl Ep) as (l & El & Hp).
    apply livePrimaryAt_iff in Hp. destruct Hp as (p & Hp & <- & Hpl & Hpp).
    exists p. repeat split; auto; [|discriminate].
    unfold rootId. unfold isPrimary in Ep.
    destruct (Contact.linkPrecedence c); [discriminate|exact El].
Qed.

(** ** The forest invariant of the data model *)

Lemma primaryAt_iff rs i :
  primaryAt rs i = true <->
  exists p, In p rs /\ Contact.id p = i /\ isPrimary p = true.
Proof.
  unfold primaryAt. rewrite existsb_exists. unfold hasId.
  split; intros (p & Hp & H); exists p.
  - rewrite !andb_true_iff, Z.eqb_eq in H. tauto.
  - rewrite !andb_true_iff, Z.eqb_eq. tauto.
Qed.

Lemma treeLinked_primary rs c :
  treeLinked rs c = true -> notDeleted c = true -> isPrimary c = true ->
  Contact.linkedId c = None.
Proof.
  unfold treeLinked, isPrimary. intros H Hl Hp. rewrite Hl in H. simpl in H.
  destruct (Contact.linkPrecedence c); [|discriminate].
  destruct (Contact.linkedId c); [discriminate|reflexivity].
Qed.

Lemma treeLinked_secondary rs c :
  treeLinked rs c = true -> notDeleted c = true -> isPrimary c = false ->
  exists l, Contact.linkedId c = Some l /\ primaryAt rs l = true.
Proof.
  unfold treeLinked, isPrimary. intros H Hl Hp. rewrite Hl in H. simpl in H.
  destruct (Contact.linkPrecedence c); [discriminate|].
  destruct (Contact.linkedId c) as [l|]; [eauto|discriminate].
Qed.

Lemma forest_elim w :
  forest w = true ->
  NoDup (map Contact.id (rows w)) /\
  (forall c, In c (rows w) -> Contact.id c < nextId w) /\
  (forall c, In c (rows w) -> treeLinked (rows w) c = true).
Proof.
  unfold forest. rewrite !andb_true_iff, distinctIds_NoDup, !forallb_forall.
  intros [[H1 H2] H3]. repeat split; auto.
  intros c Hc. apply Z.ltb_lt. auto.
Qed.

Lemma forest_intro w :
  NoDup (map Contact.id (rows w)) ->
  (forall c, In c (rows w) -> Contact.id c < nextId w) ->
  (forall c, In c (rows w) -> treeLinked (rows w) c = true) ->
  forest w = true.
Proof.
  intros H1 H2 H3. unfold forest.
  rewrite !andb_true_iff, distinctIds_NoDup, !forallb_forall. repeat split; auto.
  intros c Hc. apply Z.ltb_lt. auto.
Qed.

Lemma livePrimaryAt_primaryAt rs i :
  livePrimaryAt rs i = true -> primaryAt rs i = true.
Proof.
  rewrite livePrimaryAt_iff, primaryAt_iff. intros (p & H1 & H2 & _ & H3). eauto.
Qed.

Lemma wellLinked_treeLinked rs c : wellLinked rs c = true -> treeLinked rs c = true.
Proof.
  unfold wellLinked, treeLinked. destruct (negb (notDeleted c)); simpl; auto.
  destruct (Contact.linkPrecedence c), (Contact.linkedId c); auto.
  apply livePrimaryAt_primaryAt.
Qed.

(** A forest without orphans is a forest. *)
Lemma liveForest_forest w : liveForest w = true -> forest w = true.
Proof.
  intros H. destruct (liveForest_elim w H) as (H1 & H2 & H3).
  apply forest_intro; auto. intros c Hc. apply wellLinked_treeLinked. auto.
Qed.

(** ** A merge in a forest *)

Lemma candidatesOf_In req rs c :
  In c (candidatesOf req rs) -> In c rs /\ notDeleted c = true.
Proof.
  unfold candidatesOf. rewrite selectRows_In. unfold clustersWhere.
  rewrite andb_true_iff. tauto.
Qed.

Section MergeInForest.

Variable now : Z.
Variable req : IdentifyRequest.t.
Variable w : World.
Variable t : Contact.t.
Variable others : list Contact.t.

Hypothesis Hforest : forest w = true.
Hypothesis Hprimaries : primariesOf (candidatesOf req (rows w)) = t :: others.

Local Abbreviation tid := (Contact.id t).
Local Abbreviation w' := (worldAfter now req w t others).

Lemma primaries_in_rows p :
  In p (t :: others) -> In p (rows w) /\ notDeleted p = true /\ isPrimary p = true.
Proof.
  intros Hp. rewrite <- Hprimaries in Hp. apply primariesOf_In in Hp.
  destruct Hp as [Hc Hpp]. apply candidatesOf_In in Hc. tauto.
Qed.

Lemma truePrimary_not_demoted : isOther others tid = false.
Proof.
  apply (truePrimary_not_other req (rows w)); [|exact Hprimaries].
  apply (forest_elim w Hforest).
Qed.

(** A primary that is not demoted is not touched by the loop. *)
Lemma kept_primary_unchanged p :
  In p (rows w) -> isPrimary p = true ->
  isOther others (Contact.id p) = false ->
  mergeOne now tid others p = p.
Proof.
  intros Hp Hpp Ho. rewrite (mergeOne_closed _ _ _ _ truePrimary_not_demoted), Ho.
  destruct (forest_elim w Hforest) as (_ & _ & Hw).
  unfold linksToOther. destruct (notDeleted p) eqn:Hl; [|reflexivity].
  rewrite (treeLinked_primary _ _ (Hw p Hp) Hl Hpp). reflexivity.
Qed.

Lemma truePrimary_unchanged : mergeOne now tid others t = t.
Proof.
  destruct (primaries_in_rows t (or_introl eq_refl)) as (H1 & H2 & H3).
  apply kept_primary_unchanged; auto. apply truePrimary_not_demoted.
Qed.

Lemma merged_in_after c0 : In c0 (rows w) -> In (mergeOne now tid others c0) (rows w').
Proof.
  intros H. unfold worldAfter.
  destruct (createsFor now req w t others); cbn [rows];
    [apply in_or_app; left|]; rewrite mergeRows_map; apply in_map; exact H.
Qed.

Lemma truePrimary_in_after : In t (rows w').
Proof.
  pose proof (merged_in_after t (proj1 (primaries_in_rows t (or_introl eq_refl)))) as H.
  rewrite truePrimary_unchanged in H. exact H.
Qed.

Lemma truePrimary_live_after : livePrimaryAt (rows w') tid = true.
Proof.
  apply livePrimaryAt_iff. exists t.
  destruct (primaries_in_rows t (or_introl eq_refl)) as (H1 & H2 & H3).
  repeat split; auto. apply truePrimary_in_after.
Qed.

(** What the loop makes of a live row of the forest. *)
Lemma merged_row c0 :
  In c0 (rows w) -> notDeleted c0 = true ->
  (isPrimary (mergeOne now tid others c0) = false /\
   Contact.linkedId (mergeOne now tid others c0) = Some tid) \/
  (mergeOne now tid others c0 = c0 /\
   isOther others (Contact.id c0) = false /\ linksToOther others c0 = false).
Proof.
  intros Hc0 Hl.
  rewrite (mergeOne_closed _ _ _ _ truePrimary_not_demoted).
  destruct (isOther others (Contact.id c0)) eqn:Eo; [left; split; reflexivity|].
  destruct (linksToOther others c0) eqn:El; [left|right; auto].
  split; [|reflexivity]. destruct (isPrimary c0) eqn:Ep.
  - destruct (forest_elim w Hforest) as (_ & _ & Hw).
    pose proof (treeLinked_primary _ _ (Hw c0 Hc0) Hl Ep) as Hn.
    unfold linksToOther in El. rewrite Hn, andb_false_r in El. discriminate.
  - exact Ep.
Qed.

Lemma after_ids :
  map Contact.id (rows w') =
  map Contact.id (rows w) ++
  (if createsFor now req w t others then [nextId w] else []).
Proof.
  unfold worldAfter. destruct (createsFor now req w t others); cbn [rows].
  - rewrite map_app, mergeRows_ids. reflexivity.
  - rewrite mergeRows_ids, app_nil_r. reflexivity.
Qed.

Lemma after_nextId :
  nextId w' = if createsFor now req w t others then nextId w + 1 else nextId w.
Proof. unfold worldAfter. destruct (createsFor now req w t others); reflexivity. Qed.

Lemma after_distinct_fresh :
  NoDup (map Contact.id (rows w')) /\
  (forall c, In c (rows w') -> Contact.id c < nextId w').
Proof.
  destruct (forest_elim w Hforest) as (Hnd & Hfresh & _). split.
  - rewrite after_ids. destruct (createsFor now req w t others).
    + apply NoDup_app; auto.
      * constructor; [intros []|constructor].
      * intros i Hi [<-|[]]. apply in_map_iff in Hi. destruct Hi as (c & E & Hc).
        specialize (Hfresh c Hc). lia.
    + rewrite app_nil_r. exact Hnd.
  - intros c Hc. apply worldAfter_rows in Hc. rewrite after_nextId.
    destruct Hc as [(c0 & Hc0 & ->)|[-> ->]].
    + rewrite mergeOne_id. specialize (Hfresh c0 Hc0).
      destruct (createsFor now req w t others); lia.
    + simpl. lia.
Qed.

(** The call preserves the forest invariant. *)
Lemma forest_after : forest w' = true.
Proof.
  destruct (forest_elim w Hforest) as (_ & _ & Hw).
  destruct after_distinct_fresh as [Hnd' Hfresh'].
  pose proof (livePrimaryAt_primaryAt _ _ truePrimary_live_after) as Ht.
  apply forest_intro; auto.
  intros c Hc. apply worldAfter_rows in Hc.
  destruct Hc as [(c0 & Hc0 & ->)|[_ ->]].
  - destruct (notDeleted c0) eqn:Hl.
    + destruct (merged_row c0 Hc0 Hl) as [[Hs Hlink]|(E & Ho & Hlo)].
      * unfold treeLinked. unfold isPrimary in Hs.
        destruct (Contact.linkPrecedence (mergeOne now tid others c0)); [discriminate|].
        rewrite Hlink, Ht. apply orb_true_r.
      * rewrite E. specialize (Hw c0 Hc0). destruct (isPrimary c0) eqn:Ep.
        -- unfold treeLinked. rewrite (treeLinked_primary _ _ Hw Hl Ep).
           unfold isPrimary in Ep. destruct (Contact.linkPrecedence c0); [|discriminate].
           apply orb_true_r.
        -- destruct (treeLinked_secondary _ _ Hw Hl Ep) as (l & El & Hp).
           unfold treeLinked. unfold isPrimary in Ep. rewrite El.
           destruct (Contact.linkPrecedence c0); [discriminate|].
           apply primaryAt_iff in Hp. destruct Hp as (p & Hp & <- & Hpp).
           assert (primaryAt (rows w') (Contact.id p) = true) as ->;
             [|apply orb_true_r].
           apply primaryAt_iff. exists p. repeat split; auto.
           rewrite <- (kept_primary_unchanged p Hp Hpp).
           ++ apply merged_in_after. exact Hp.
           ++ unfold linksToOther in Hlo. rewrite Hl, El in Hlo. exact Hlo.
    + unfold treeLinked. rewrite mergeOne_notDeleted, Hl. reflexivity.
  - unfold treeLinked. simpl. exact Ht.
Qed.

(** The call creates no orphan. *)
Lemma liveForest_after : liveForest w = true -> liveForest w' = true.
Proof.
  intros Hlive. destruct (liveForest_elim w Hlive) as (_ & _ & Hw).
  destruct after_distinct_fresh as [Hnd' Hfresh'].
  apply liveForest_intro; auto.
  intros c Hc. apply worldAfter_rows in Hc.
  destruct Hc as [(c0 & Hc0 & ->)|[_ ->]].
  - destruct (notDeleted c0) eqn:Hl.
    + destruct (merged_row c0 Hc0 Hl) as [[Hs Hlink]|(E & Ho & Hlo)].
      * unfold wellLinked. unfold isPrimary in Hs.
        destruct (Contact.linkPrecedence (mergeOne now tid others c0)); [discriminate|].
        rewrite Hlink, truePrimary_live_after. apply orb_true_r.
      * rewrite E. specialize (Hw c0 Hc0). destruct (isPrimary c0) eqn:Ep.
        -- unfold wellLinked. rewrite (wellLinked_primary _ _ Hw Hl Ep).
           unfold isPrimary in Ep. destruct (Contact.linkPrecedence c0); [|discriminate].
           apply orb_true_r.
        -- destruct (wellLinked_secondary _ _ Hw Hl Ep) as (l & El & Hp).
           unfold wellLinked. unfold isPrimary in Ep. rewrite El.
           destruct (Contact.linkPrecedence c0); [discriminate|].
           apply livePrimaryAt_iff in Hp. destruct Hp as (p & Hp & <- & Hpl & Hpp).
           assert (livePrimaryAt (rows w') (Contact.id p) = true) as ->;
             [|apply orb_true_r].
           apply livePrimaryAt_iff. exists p. repeat split; auto.
           rewrite <- (kept_primary_unchanged p Hp Hpp).
           ++ apply merged_in_after. exact Hp.
           ++ unfold linksToOther in Hlo. rewrite Hl, El in Hlo. exact Hlo.
    + unfold wellLinked. rewrite mergeOne_notDeleted, Hl. reflexivity.
  - unfold wellLinked. simpl. apply truePrimary_live_after.
Qed.

End MergeInForest.

(** The true primary is an earliest primary of the candidate set. *)
Lemma truePrimary_earliest req rs t others c :
  primariesOf (candidatesOf req rs) = t :: others ->
  In c (candidatesOf req rs) -> isPrimary c = true ->
  Contact.createdAt t <= Contact.createdAt c.
Proof.
  intros Hp Hc Hcp. pose proof (truePrimary_firstEarliest req rs) as Hfe.
  rewrite Hp in Hfe. simpl in Hfe. symmetry in Hfe.
  destruct (firstEarliest_split _ _ Hfe) as (l1 & l2 & El & H1 & H2).
  rewrite Forall_forall in H1, H2.
  assert (In c (candidatePrimaries req rs)) as Hin by (apply candidatePrimaries_In; auto).
  rewrite El in Hin. apply in_app_or in Hin.
  destruct Hin as [Hin|[<-|Hin]]; [apply H1 in Hin|..|apply H2 in Hin]; lia.
Qed.

(** ** Merge of clusters (claim C2) *)

(** C2, as amended: after a call whose candidate set spans more than one
    primary, on a store that satisfies the forest invariant and does not
    fail, the primary with the earliest [createdAt] remains primary; every
    other primary of the candidate set is a secondary with [linkedId =
    truePrimary.id]; every non-deleted contact whose [linkedId] pointed at a
    demoted primary is linked to [truePrimary.id]; and the forest invariant
    holds again: every non-deleted secondary is linked to a primary, none to
    a secondary.  If no live secondary was an orphan of a tombstoned
    primary before the call, none is after it. *)
Theorem merge_keeps_one_level_forest now req w t others resp w' :
  failAfter w = None ->
  forest w = true ->
  matchesOf req (rows w) <> [] ->
  primariesOf (candidatesOf req (rows w)) = t :: others ->
  others <> [] ->
  identifyContact now req w = (inr resp, w') ->
  (In t (rows w') /\ Contact.linkPrecedence t = primary /\
   IdentifyResponse.primaryContactId resp = Contact.id t /\
   forall p, In p (candidatesOf req (rows w)) -> isPrimary p = true ->
             Contact.createdAt t <= Contact.createdAt p) /\
  (forall o, In o (candidatesOf req (rows w)) -> isPrimary o = true -> o <> t ->
     exists c, In c (rows w') /\ Contact.id c = Contact.id o /\
               Contact.linkPrecedence c = secondary /\
               Contact.linkedId c = Some (Contact.id t)) /\
  (forall o c, In o (candidatesOf req (rows w)) -> isPrimary o = true -> o <> t ->
     In c (rows w) -> notDeleted c = true ->
     Contact.linkedId c = Some (Contact.id o) ->
     exists c', In c' (rows w') /\ Contact.id c' = Contact.id c /\
                Contact.linkedId c' = Some (Contact.id t)) /\
  forest w' = true /\
  (forall c, In c (rows w') -> notDeleted c = true ->
     Contact.linkPrecedence c = secondary ->
     exists p, In p (rows w') /\ Contact.linkedId c = Some (Contact.id p) /\
               Contact.linkPrecedence p = primary) /\
  (liveForest w = true -> liveForest w' = true).
Proof.
  intros Hnf Hf Hm Hp Hothers Hrun.
  destruct (identify_selected _ _ _ _ _ Hnf Hm Hrun) as (t0 & others0 & Hp0 & Hid & Hw').
  rewrite Hp in Hp0. injection Hp0 as <- <-. subst w'.
  pose proof (truePrimary_not_demoted req w t others Hf Hp) as Ht.
  assert (forall o, In o (candidatesOf req (rows w)) -> isPrimary o = true -> o <> t ->
                    In o others) as Hoth.
  { intros o Ho Hop Hne.
    assert (In o (t :: others)) as [E|H]; [|congruence|exact H].
    rewrite <- Hp. apply primariesOf_In. auto. }
  pose proof (forest_after now req w t others Hf Hp) as Hf'.
  split; [|split; [|split; [|split; [|split]]]].
  - split; [eapply truePrimary_in_after; eauto|].
    destruct (primaries_in_rows req w t others Hp t (or_introl eq_refl)) as (_ & _ & Htp).
    split; [|split; [exact Hid|]].
    + unfold isPrimary in Htp. destruct (Contact.linkPrecedence t); [reflexivity|discriminate].
    + intros p. apply truePrimary_earliest with (others := others). exact Hp.
  - intros o Ho Hop Hne. specialize (Hoth o Ho Hop Hne).
    exists (mergeOne now (Contact.id t) others o). split.
    + apply merged_in_after. apply candidatesOf_In in Ho. tauto.
    + rewrite mergeOne_id. split; [reflexivity|].
      rewrite (mergeOne_closed _ _ _ _ Ht).
      assert (isOther others (Contact.id o) = true) as ->
          by (apply isOther_In, in_map, Hoth).
      split; reflexivity.
  - intros o c Ho Hop Hne Hc Hl Hlink. specialize (Hoth o Ho Hop Hne).
    exists (mergeOne now (Contact.id t) others c). split; [apply merged_in_after; exact Hc|].
    rewrite mergeOne_id. split; [reflexivity|].
    destruct (merged_row now req w t others Hf Hp c Hc Hl) as [[_ H]|(_ & _ & H)]; [exact H|].
    unfold linksToOther in H. rewrite Hl, Hlink in H. simpl in H.
    assert (isOther others (Contact.id o) = true) by (apply isOther_In, in_map, Hoth).
    congruence.
  - exact Hf'.
  - intros c Hc Hl Hs.
    destruct (forest_elim _ Hf') as (_ & _ & Hw).
    assert (isPrimary c = false) as Hcp by (unfold isPrimary; rewrite Hs; reflexivity).
    destruct (treeLinked_secondary _ _ (Hw c Hc) Hl Hcp) as (l & El & Hat).
    apply primaryAt_iff in Hat. destruct Hat as (p & Hpin & <- & Hpp).
    exists p. repeat split; auto.
    unfold isPrimary in Hpp. destruct (Contact.linkPrecedence p); [reflexivity|discriminate].
  - apply liveForest_after; auto.
Qed.

Lemma merge_keeps_one_level_forest_witness :
  let p1 := Contact.mk 1 (Some "a@x.com"%string) (Some "111"%string) None primary 10 10 None in
  let p2 := Contact.mk 2 (Some "b@x.com"%string) (Some "222"%string) None primary 20 20 None in
  let s3 := Contact.mk 3 (Some "c@x.com"%string) (Some "222"%string) (Some 2) secondary 25 25 None in
  let w := mkWorld [p1; p2; s3] 4 [] None in
  let req := IdentifyRequest.mk (Some "a@x.com"%string) (Some "222"%string) in
  let w' := snd (identifyContact 30 req w) in
  forest w = true /\
  primariesOf (candidatesOf req (rows w)) = [p1; p2] /\
  rows w' = [p1; demote 1 30 p2; relink 1 30 s3] /\
  forest w' = true.
Proof.
  intros p1 p2 s3 w req w'.
  assert (failAfter w = None) as H1 by reflexivity.
  assert (forest w = true) as H2 by (vm_compute; reflexivity).
  assert (matchesOf req (rows w) <> []) as H3 by (vm_compute; discriminate).
  assert (primariesOf (candidatesOf req (rows w)) = p1 :: [p2]) as H4
      by (vm_compute; reflexivity).
  assert ([p2] <> []) as H5 by discriminate.
  assert (identifyContact 30 req w = (inr (IdentifyResponse.mk 1
            ["a@x.com"%string; "b@x.com"%string; "c@x.com"%string]
            ["111"%string; "222"%string] [2; 3]), w')) as H6
      by (vm_compute; reflexivity).
  split; [exact H2|]. split; [exact H4|]. split; [vm_compute; reflexivity|].
  exact (proj1 (proj2 (proj2 (proj2
    (merge_keeps_one_level_forest 30 req w p1 [p2] _ w' H1 H2 H3 H4 H5 H6))))).
Defined.

(** C2 as stated fails for tombstoned contacts: the re-link of lines 125-134
    selects [deletedAt: null], so a deleted contact whose [linkedId] pointed
    at the demoted primary keeps pointing at it. *)
Lemma deleted_contact_not_relinked :
  let p1 := Contact.mk 1 (Some "a@x.com"%string) (Some "111"%string) None primary 10 10 None in
  let p2 := Contact.mk 2 (Some "b@x.com"%string) (Some "222"%string) None primary 20 20 None in
  let d3 := Contact.mk 3 (Some "c@x.com"%string) (Some "333"%string) (Some 2) secondary 25 25 (Some 27) in
  let w := mkWorld [p1; p2; d3] 4 [] None in
  let req := IdentifyRequest.mk (Some "a@x.com"%string) (Some "222"%string) in
  let r := identifyContact 30 req w in
  primariesOf (candidatesOf req (rows w)) = [p1; p2] /\
  Contact.linkedId d3 = Some (Contact.id p2) /\
  fst r = inr (IdentifyResponse.mk 1 ["a@x.com"%string; "b@x.com"%string]
                                   ["111"%string; "222"%string] [2]) /\
  rows (snd r) = [p1; demote 1 30 p2; d3] /\
  Contact.linkedId d3 <> Some (Contact.id p1).
Proof. vm_compute. repeat split; try reflexivity. discriminate. Qed.

(** ** The set of root ids *)

Lemma collectRootIds_acc ms acc r :
  In r (fold_left (fun s contact => set_add optZ_eq_dec (rootId contact) s) ms acc) <->
  In r acc \/ exists m, In m ms /\ rootId m = r.
Proof.
  revert acc. induction ms as [|m ms IH]; intros acc; simpl.
  - split; [auto|]. intros [H|(m & [] & _)]. exact H.
  - rewrite IH, set_add_iff. split.
    + intros [[->|H]|(m' & Hm' & E)]; eauto.
    + intros [H|(m' & [<-|Hm'] & E)]; eauto.
Qed.

Lemma collectRootIds_In ms r :
  In r (collectRootIds ms) <-> exists m, In m ms /\ rootId m = r.
Proof.
  unfold collectRootIds. rewrite collectRootIds_acc. simpl. tauto.
Qed.

Lemma inIds_iff i ids : inIds (Some i) ids = true <-> In (Some i) ids.
Proof.
  unfold inIds. split.
  - apply set_mem_correct1.
  - apply set_mem_correct2.
Qed.

Lemma bool_eq_iff (a b : bool) : (a = true <-> b = true) -> a = b.
Proof. destruct a, b; intuition congruence. Qed.

(** When every root is the same id, the query of line 89 selects the
    cluster of that id. *)
Lemma clustersWhere_single roots tid c :
  (forall r, In r roots <-> r = Some tid) ->
  clustersWhere roots c = membersWhere tid c.
Proof.
  intros H. unfold clustersWhere, membersWhere. f_equal. f_equal.
  - apply bool_eq_iff. rewrite inIds_iff, H, Z.eqb_eq. split; congruence.
  - destruct (Contact.linkedId c) as [l|]; simpl; [|reflexivity].
    apply bool_eq_iff. fold (inIds (Some l) roots).
    rewrite inIds_iff, H, Z.eqb_eq. split; congruence.
Qed.

Lemma single_root ms tid :
  ms <> [] -> (forall m, In m ms -> rootId m = Some tid) ->
  forall r, In r (collectRootIds ms) <-> r = Some tid.
Proof.
  intros Hne Hall r. rewrite collectRootIds_In. split.
  - intros (m & Hm & <-). auto.
  - intros ->. destruct ms as [|m ms]; [congruence|]. exists m. split; [left|]; auto.
    apply Hall. left. reflexivity.
Qed.

Lemma singleton_by_id (l : list Contact.t) t :
  NoDup (map Contact.id l) -> (forall x, In x l -> x = t) -> In t l -> l = [t].
Proof.
  intros Hnd Hall Ht. destruct l as [|a l]; [contradiction|].
  assert (a = t) as -> by (apply Hall; left; reflexivity).
  destruct l as [|b l]; [reflexivity|].
  assert (b = t) as -> by (apply Hall; right; left; reflexivity).
  simpl in Hnd. inversion Hnd as [|? ? Hni _]; subst. exfalso. apply Hni. left. reflexivity.
Qed.

Lemma createsSecondary_false email phoneNumber cluster :
  createsSecondary email phoneNumber cluster = false <->
  (truthy email = true -> truthy phoneNumber = true ->
   In email (map Contact.email cluster) /\
   In phoneNumber (map Contact.phoneNumber cluster)).
Proof.
  unfold createsSecondary, isNew.
  destruct (truthy email) eqn:He;
    [|split; [discriminate|intros _; simpl; rewrite ?andb_false_r; reflexivity]].
  destruct (truthy phoneNumber) eqn:Hp;
    [|split; [discriminate|intros _; simpl; rewrite ?andb_false_r; reflexivity]].
  pose proof (has_existingValues Contact.email cluster email He) as H1.
  pose proof (has_existingValues Contact.phoneNumber cluster phoneNumber Hp) as H2.
  simpl. rewrite andb_true_r, orb_false_iff, !negb_false_iff. split.
  - intros [Ha Hb] _ _. split; [apply H1|apply H2]; assumption.
  - intros H. destruct (H eq_refl eq_refl) as [Ha Hb]. split; [apply H1|apply H2]; assumption.
Qed.

(** ** A call on a settled cluster *)

(** When every match of the request lies in the cluster of one live primary
    of a forest and the request brings nothing new, the call answers from
    that cluster and writes nothing. *)
Lemma identify_settled now req w t :
  failAfter w = None ->
  liveForest w = true ->
  validRequest req = true ->
  In t (rows w) -> notDeleted t = true -> isPrimary t = true ->
  matchesOf req (rows w) <> [] ->
  (forall m, In m (matchesOf req (rows w)) -> rootId m = Some (Contact.id t)) ->
  createsSecondary (IdentifyRequest.email req) (IdentifyRequest.phoneNumber req)
                   (candidatesOf req (rows w)) = false ->
  identifyContact now req w =
  (inr (responseOf t (candidatesOf req (rows w))),
   mkWorld (rows w) (nextId w) (CallFindMany :: CallFindMany :: log w) None).
Proof.
  intros Hnf Hf Hv Ht Htl Htp Hm Hroots Hcs.
  destruct (liveForest_elim w Hf) as (Hnd & _ & Hw).
  pose proof (single_root _ _ Hm Hroots) as Hsingle.
  assert (forall c, In c (candidatesOf req (rows w)) <->
                    In c (rows w) /\ membersWhere (Contact.id t) c = true) as Hcands.
  { intros c. unfold candidatesOf. rewrite selectRows_In.
    rewrite (clustersWhere_single _ _ c Hsingle). tauto. }
  assert (In t (candidatesOf req (rows w))) as Htc.
  { apply Hcands. split; auto. unfold membersWhere. rewrite Htl, Z.eqb_refl. reflexivity. }
  assert (primariesOf (candidatesOf req (rows w)) = [t]) as Hp.
  { apply singleton_by_id.
    - apply primaries_ids_NoDup. exact Hnd.
    - intros x Hx. apply primariesOf_In in Hx. destruct Hx as [Hx Hxp].
      apply Hcands in Hx. destruct Hx as [Hx Hmem].
      unfold membersWhere in Hmem. apply andb_true_iff in Hmem. destruct Hmem as [Hxl Hmem].
      rewrite (wellLinked_primary _ _ (Hw x Hx) Hxl Hxp) in Hmem. simpl in Hmem.
      rewrite orb_false_r in Hmem. apply Z.eqb_eq in Hmem.
      apply (same_id_same_row (rows w)); auto.
    - apply primariesOf_In. auto. }
  destruct (identify_cluster_run now req w t [] Hnf Hv Hm Hp) as (t' & Hfind & Hrun).
  unfold membersOf, worldAfter, createsFor in Hfind, Hrun. cbn [clusterOf] in Hfind, Hrun.
  rewrite Hcs in Hfind, Hrun. rewrite Hrun.
  apply find_hasId_id in Hfind. destruct Hfind as [Hid Hin].
  assert (t' = t) as ->.
  { apply (same_id_same_row (rows w)); auto. apply Hcands in Hin. tauto. }
  reflexivity.
Qed.

Lemma settled_candidates req w t :
  matchesOf req (rows w) <> [] ->
  (forall m, In m (matchesOf req (rows w)) -> rootId m = Some (Contact.id t)) ->
  forall c, In c (candidatesOf req (rows w)) <->
            In c (rows w) /\ membersWhere (Contact.id t) c = true.
Proof.
  intros Hm Hroots c. unfold candidatesOf. rewrite selectRows_In.
  rewrite (clustersWhere_single _ _ c (single_root _ _ Hm Hroots)). tauto.
Qed.

(** ** The store after a call, seen by the next call *)

Lemma matchingWhere_keeps email phoneNumber c c' :
  Contact.deletedAt c' = Contact.deletedAt c ->
  Contact.email c' = Contact.email c ->
  Contact.phoneNumber c' = Contact.phoneNumber c ->
  matchingWhere email phoneNumber c' = matchingWhere email phoneNumber c.
Proof.
  intros Hd He Hp. unfold matchingWhere, notDeleted, matchingOR. rewrite Hd.
  destruct (truthy email), (truthy phoneNumber); simpl; rewrite ?He, ?Hp; reflexivity.
Qed.

Lemma matchingWhere_mergeOne email phoneNumber now tid others c :
  matchingWhere email phoneNumber (mergeOne now tid others c) =
  matchingWhere email phoneNumber c.
Proof.
  destruct (mergeOne_keeps now tid others c) as (_ & He & Hp & _ & Hd).
  apply matchingWhere_keeps; assumption.
Qed.

Lemma matchesOf_In req rs m :
  In m (matchesOf req rs) <->
  In m rs /\
  matchingWhere (IdentifyRequest.email req) (IdentifyRequest.phoneNumber req) m = true.
Proof. apply selectRows_In. Qed.

Lemma matchingWhere_live email phoneNumber c :
  matchingWhere email phoneNumber c = true -> notDeleted c = true.
Proof. unfold matchingWhere. rewrite andb_true_iff. tauto. Qed.

Lemma rootId_secondary c :
  isPrimary c = false -> rootId c = Contact.linkedId c.
Proof.
  unfold isPrimary, rootId. destruct (Contact.linkPrecedence c); [discriminate|reflexivity].
Qed.

Lemma In_map_ext {A B} (f : A -> B) l1 l2 v :
  (forall c, In c l1 -> In c l2) -> In v (map f l1) -> In v (map f l2).
Proof.
  intros H Hv. apply in_map_iff in Hv. destruct Hv as (c & <- & Hc).
  apply in_map. auto.
Qed.

(** The root of a match is one of the primaries of the candidate set. *)
Lemma match_root req w t others m :
  liveForest w = true ->
  primariesOf (candidatesOf req (rows w)) = t :: others ->
  In m (matchesOf req (rows w)) ->
  exists p, In p (t :: others) /\ rootId m = Some (Contact.id p) /\
            (isPrimary m = true -> p = m).
Proof.
  intros Hforest Hprimaries Hm.
  pose proof Hm as Hm'. apply matchesOf_In in Hm'. destruct Hm' as [Hin Hw].
  apply matchingWhere_live in Hw.
  destruct (liveForest_root w m Hforest Hin Hw) as (p & Hp & Hroot & Hpl & Hpp & Hsame).
  exists p. split; [|auto]. rewrite <- Hprimaries. apply primariesOf_In. split; [|exact Hpp].
  unfold candidatesOf. apply selectRows_In. split; [exact Hp|].
  unfold clustersWhere. rewrite Hpl. simpl. apply orb_true_iff. left.
  apply inIds_iff, collectRootIds_In. exists m. auto.
Qed.

(** The members fetched by step 5 are the cluster of the true primary in
    the merged table. *)
Lemma cluster_members now req w t others x :
  liveForest w = true ->
  matchesOf req (rows w) <> [] ->
  primariesOf (candidatesOf req (rows w)) = t :: others ->
  In x (clusterOf now req (rows w) t others) <->
  In x (mergeRows now (Contact.id t) others (rows w)) /\
  membersWhere (Contact.id t) x = true.
Proof.
  intros Hforest Hmatches Hprimaries. destruct others as [|o os].
  - cbn [clusterOf mergeRows fold_left]. apply settled_candidates; [exact Hmatches|].
    intros m Hm.
    destruct (match_root req w t [] m Hforest Hprimaries Hm) as (p & [<-|[]] & Hroot & _).
    exact Hroot.
  - cbn [clusterOf]. apply selectRows_In.
Qed.

Section AfterCall.

Variable now : Z.
Variable req : IdentifyRequest.t.
Variable w : World.
Variable t : Contact.t.
Variable others : list Contact.t.

Hypothesis Hforest : liveForest w = true.
Hypothesis Hmatches : matchesOf req (rows w) <> [].
Hypothesis Hprimaries : primariesOf (candidatesOf req (rows w)) = t :: others.

Local Abbreviation tid := (Contact.id t).
Local Abbreviation w' := (worldAfter now req w t others).
Local Abbreviation email := (IdentifyRequest.email req).
Local Abbreviation phoneNumber := (IdentifyRequest.phoneNumber req).

Lemma matches_after m' :
  In m' (matchesOf req (rows w')) -> rootId m' = Some tid.
Proof.
  intros Hm'. apply matchesOf_In in Hm'. destruct Hm' as [Hin Hw].
  apply worldAfter_rows in Hin. destruct Hin as [(m0 & Hm0 & ->)|[_ ->]]; [|reflexivity].
  rewrite matchingWhere_mergeOne in Hw.
  assert (In m0 (matchesOf req (rows w))) as Hmatch by (apply matchesOf_In; auto).
  pose proof (matchingWhere_live _ _ _ Hw) as Hl.
  destruct (merged_row now req w t others (liveForest_forest w Hforest) Hprimaries m0 Hm0 Hl)
    as [[Hs Hlink]|(E & Ho & Hlo)].
  - rewrite rootId_secondary; assumption.
  - rewrite E.
    destruct (match_root req w t others m0 Hforest Hprimaries Hmatch)
      as (p & [<-|Hp] & Hroot & Hsame);
      [exact Hroot|exfalso].
    assert (isOther others (Contact.id p) = true) as Hop by (apply isOther_In, in_map, Hp).
    destruct (isPrimary m0) eqn:Ep.
    + rewrite (Hsame eq_refl) in Hop. congruence.
    + rewrite (rootId_secondary _ Ep) in Hroot. unfold linksToOther in Hlo.
      rewrite Hl, Hroot, Hop in Hlo. discriminate.
Qed.

Lemma matches_after_nonempty : matchesOf req (rows w') <> [].
Proof.
  destruct (matchesOf req (rows w)) as [|m0 ms] eqn:E; [congruence|].
  assert (In m0 (matchesOf req (rows w))) as Hm0 by (rewrite E; left; reflexivity).
  apply matchesOf_In in Hm0. destruct Hm0 as [Hin Hw].
  intros Hnil.
  assert (In (mergeOne now tid others m0) (matchesOf req (rows w'))) as H.
  { apply matchesOf_In. split.
    - apply merged_in_after. exact Hin.
    - rewrite matchingWhere_mergeOne. exact Hw. }
  rewrite Hnil in H. contradiction.
Qed.

(** The members the response is built from are the cluster of the true
    primary in the store that the call leaves. *)
Lemma members_after c :
  In c (membersOf now req w t others) <->
  In c (rows w') /\ membersWhere tid c = true.
Proof.
  pose proof (fun x => cluster_members now req w t others x Hforest Hmatches Hprimaries)
    as Hcl.
  unfold membersOf, worldAfter.
  destruct (createsFor now req w t others); cbn [rows].
  - rewrite !in_app_iff, Hcl. split.
    + intros [[H1 H2]|[<-|[]]]; [auto|]. split; [right; left; reflexivity|].
      unfold membersWhere, secondaryFor, newRow. simpl.
      rewrite Z.eqb_refl. apply orb_true_r.
    + intros [[H|[<-|[]]] H2]; auto. right. left. reflexivity.
  - apply Hcl.
Qed.

Lemma candidates_after c :
  In c (candidatesOf req (rows w')) <-> In c (membersOf now req w t others).
Proof.
  rewrite members_after. apply settled_candidates.
  - apply matches_after_nonempty.
  - apply matches_after.
Qed.

(** After the call the request brings nothing new. *)
Lemma nothing_new_after :
  createsSecondary email phoneNumber (candidatesOf req (rows w')) = false.
Proof.
  apply createsSecondary_false. intros He Hp.
  assert (In email (map Contact.email (membersOf now req w t others)) /\
          In phoneNumber (map Contact.phoneNumber (membersOf now req w t others)))
    as [H1 H2].
  { unfold membersOf. destruct (createsFor now req w t others) eqn:Ec.
    - rewrite !map_app, !in_app_iff. split; right; left; reflexivity.
    - unfold createsFor in Ec. apply createsSecondary_false in Ec; auto. }
  split; [eapply In_map_ext; [|exact H1]|eapply In_map_ext; [|exact H2]];
    intros c Hc; apply candidates_after; exact Hc.
Qed.

End AfterCall.

(** ** The response as a function of the set of members *)

Lemma restOf_In i l c : In c (restOf i l) <-> In c l /\ hasId i c = false.
Proof. unfold restOf. rewrite filter_In, negb_true_iff. tauto. Qed.

Lemma collect_ext col t l1 l2 x :
  (forall c, In c l1 <-> In c l2) ->
  In x (collect col t (restOf (Contact.id t) l1)) ->
  In x (collect col t (restOf (Contact.id t) l2)).
Proof.
  intros H Hx. apply collect_In in Hx. apply collect_In.
  destruct Hx as (c & [<-|Hc] & Hcol & Hne).
  - exists t. simpl. auto.
  - exists c. split; [|auto]. right. apply restOf_In in Hc. apply restOf_In.
    rewrite <- H. exact Hc.
Qed.

Lemma responseOf_ext t l1 l2 :
  (forall c, In c l1 <-> In c l2) ->
  IdentifyResponse.primaryContactId (responseOf t l1) =
  IdentifyResponse.primaryContactId (responseOf t l2) /\
  (forall x, In x (IdentifyResponse.emails (responseOf t l1)) <->
             In x (IdentifyResponse.emails (responseOf t l2))) /\
  (forall x, In x (IdentifyResponse.phoneNumbers (responseOf t l1)) <->
             In x (IdentifyResponse.phoneNumbers (responseOf t l2))).
Proof.
  intros H. assert (forall c, In c l2 <-> In c l1) as H' by (intros c; symmetry; apply H).
  unfold responseOf. cbn [IdentifyResponse.primaryContactId IdentifyResponse.emails
                          IdentifyResponse.phoneNumbers].
  split; [reflexivity|]. split; intros x; split; apply collect_ext; assumption.
Qed.

(** ** The store after the creation of a fresh primary *)

Lemma livePrimaryAt_app rs extra i :
  livePrimaryAt rs i = true -> livePrimaryAt (rs ++ extra) i = true.
Proof.
  unfold livePrimaryAt. rewrite existsb_app. intros ->. reflexivity.
Qed.

Lemma wellLinked_app rs extra c :
  wellLinked rs c = true -> wellLinked (rs ++ extra) c = true.
Proof.
  unfold wellLinked. destruct (negb (notDeleted c)); simpl; [reflexivity|].
  destruct (Contact.linkPrecedence c), (Contact.linkedId c); auto.
  apply livePrimaryAt_app.
Qed.

Section AfterFreshPrimary.

Variable now : Z.
Variable req : IdentifyRequest.t.
Variable w : World.

Hypothesis Hforest : liveForest w = true.
Hypothesis Hvalid : validRequest req = true.
Hypothesis Hnomatch : matchesOf req (rows w) = [].

Local Abbreviation c :=
  (newRow (nextId w) now (IdentifyRequest.email req) (IdentifyRequest.phoneNumber req)
          None primary).
Local Abbreviation w' :=
  (mkWorld (rows w ++ [c]) (nextId w + 1) (CallCreate c :: CallFindMany :: log w) None).

Lemma liveForest_fresh : liveForest w' = true.
Proof.
  destruct (liveForest_elim w Hforest) as (Hnd & Hfresh & Hw).
  apply liveForest_intro; cbn [rows nextId].
  - rewrite map_app. apply NoDup_app; auto.
    + constructor; [intros []|constructor].
    + intros i Hi [<-|[]]. apply in_map_iff in Hi. destruct Hi as (x & E & Hx).
      specialize (Hfresh x Hx). simpl in E. lia.
  - intros x Hx. apply in_app_or in Hx. destruct Hx as [Hx|[<-|[]]].
    + specialize (Hfresh x Hx). lia.
    + simpl. lia.
  - intros x Hx. apply in_app_or in Hx. destruct Hx as [Hx|[<-|[]]].
    + apply wellLinked_app, Hw, Hx.
    + reflexivity.
Qed.

Lemma fresh_matches_request :
  matchingWhere (IdentifyRequest.email req) (IdentifyRequest.phoneNumber req) c = true.
Proof.
  unfold matchingWhere, matchingOR. simpl. unfold validRequest in Hvalid.
  destruct (truthy (IdentifyRequest.email req)); simpl.
  - rewrite (proj2 (sameText_eq _ _) eq_refl). reflexivity.
  - simpl in Hvalid. rewrite Hvalid. simpl.
    rewrite (proj2 (sameText_eq _ _) eq_refl). reflexivity.
Qed.

Lemma fresh_only_match m : In m (matchesOf req (rows w')) -> m = c.
Proof.
  intros Hm. apply matchesOf_In in Hm. cbn [rows] in Hm. destruct Hm as [Hin Hw].
  apply in_app_or in Hin. destruct Hin as [Hin|[<-|[]]]; [|reflexivity].
  exfalso. assert (In m (matchesOf req (rows w))) as H by (apply matchesOf_In; auto).
  rewrite Hnomatch in H. contradiction.
Qed.

Lemma fresh_matches_nonempty : matchesOf req (rows w') <> [].
Proof.
  intros Hnil.
  assert (In c (matchesOf req (rows w'))) as H.
  { apply matchesOf_In. cbn [rows]. split; [apply in_or_app; right; left; reflexivity|].
    apply fresh_matches_request. }
  rewrite Hnil in H. contradiction.
Qed.

Lemma fresh_roots m : In m (matchesOf req (rows w')) -> rootId m = Some (Contact.id c).
Proof. intros Hm. rewrite (fresh_only_match m Hm). reflexivity. Qed.

(** The cluster of the fresh primary is the fresh primary alone. *)
Lemma fresh_candidates x : In x (candidatesOf req (rows w')) <-> In x [c].
Proof.
  rewrite (settled_candidates req w' c fresh_matches_nonempty fresh_roots x).
  cbn [rows]. destruct (liveForest_elim w Hforest) as (Hnd & Hfresh & Hw). split.
  - intros [Hin Hmem]. apply in_app_or in Hin. destruct Hin as [Hin|Hin]; [exfalso|exact Hin].
    unfold membersWhere in Hmem. apply andb_true_iff in Hmem. destruct Hmem as [Hl Hmem].
    specialize (Hfresh x Hin). simpl in Hmem.
    apply orb_true_iff in Hmem. destruct Hmem as [Hmem|Hmem].
    + apply Z.eqb_eq in Hmem. lia.
    + destruct (liveForest_root w x Hforest Hin Hl) as (p & Hp & Hroot & _ & _ & _).
      pose proof (liveForest_elim w Hforest) as (_ & Hfresh' & _). specialize (Hfresh' p Hp).
      destruct (isPrimary x) eqn:Ep.
      * rewrite (wellLinked_primary _ _ (Hw x Hin) Hl Ep) in Hmem. discriminate.
      * rewrite (rootId_secondary _ Ep) in Hroot. rewrite Hroot in Hmem.
        simpl in Hmem. apply Z.eqb_eq in Hmem. lia.
  - intros [<-|[]]. split; [apply in_or_app; right; left; reflexivity|].
    unfold membersWhere. simpl. rewrite Z.eqb_refl. reflexivity.
Qed.

Lemma fresh_nothing_new :
  createsSecondary (IdentifyRequest.email req) (IdentifyRequest.phoneNumber req)
                   (candidatesOf req (rows w')) = false.
Proof.
  apply createsSecondary_false. intros _ _.
  split; eapply In_map_ext;
    try (intros x Hx; apply fresh_candidates; exact Hx); left; reflexivity.
Qed.

End AfterFreshPrimary.

Lemma worldAfter_failAfter now req w t others :
  failAfter (worldAfter now req w t others) = None.
Proof. unfold worldAfter. destruct (createsFor now req w t others); reflexivity. Qed.

(** ** Idempotence (claim C1) *)

(** C1, as amended: on a store that is a forest without orphans (distinct
    ids below the counter, every non-deleted primary without a link, every
    non-deleted secondary linked to a non-deleted primary) and does not
    fail, a successful call of [identifyContact] leaves a store on which
    the same request, run again at any time, succeeds with the same
    [primaryContactId] and the same sets of [emails] and [phoneNumbers],
    creates no record and leaves the table as it is. *)
Theorem identify_twice_same_answer_no_new_record now now2 req w resp w1 :
  failAfter w = None ->
  liveForest w = true ->
  identifyContact now req w = (inr resp, w1) ->
  exists resp2 w2,
    identifyContact now2 req w1 = (inr resp2, w2) /\
    IdentifyResponse.primaryContactId resp2 = IdentifyResponse.primaryContactId resp /\
    (forall x, In x (IdentifyResponse.emails resp2) <->
               In x (IdentifyResponse.emails resp)) /\
    (forall x, In x (IdentifyResponse.phoneNumbers resp2) <->
               In x (IdentifyResponse.phoneNumbers resp)) /\
    rows w2 = rows w1 /\
    nextId w2 = nextId w1 /\
    creations (log w2) = creations (log w1).
Proof.
  intros Hnf Hf Hrun. pose proof (identify_inr_valid _ _ _ _ _ Hrun) as Hv.
  destruct (matchesOf req (rows w)) as [|m0 ms] eqn:Hm.
  - (* the first call created a fresh primary *)
    rewrite (identify_fresh_run now req w Hnf Hv Hm) in Hrun.
    injection Hrun as <- <-.
    set (c := newRow (nextId w) now (IdentifyRequest.email req)
                     (IdentifyRequest.phoneNumber req) None primary).
    set (w1 := mkWorld (rows w ++ [c]) (nextId w + 1)
                       (CallCreate c :: CallFindMany :: log w) None).
    assert (identifyContact now2 req w1 =
            (inr (responseOf c (candidatesOf req (rows w1))),
             mkWorld (rows w1) (nextId w1) (CallFindMany :: CallFindMany :: log w1) None))
      as Hrun2.
    { apply identify_settled; auto.
      - apply liveForest_fresh; auto.
      - cbn [rows]. apply in_or_app. right. left. reflexivity.
      - apply fresh_matches_nonempty; auto.
      - apply fresh_roots; auto.
      - apply fresh_nothing_new; auto. }
    eexists. eexists. split; [exact Hrun2|].
    destruct (responseOf_ext c (candidatesOf req (rows w1)) [c]
                (fresh_candidates now req w Hf Hv Hm)) as (H1 & H2 & H3).
    repeat split; auto; try apply H2; try apply H3.
  - (* the first call found a cluster *)
    assert (matchesOf req (rows w) <> []) as Hne by (rewrite Hm; discriminate).
    clear Hm. destruct (identify_selected _ _ _ _ _ Hnf Hne Hrun) as (t & others & Hp & _ & _).
    destruct (identify_cluster_run now req w t others Hnf Hv Hne Hp) as (t' & Hfind & Hr).
    rewrite Hr in Hrun. injection Hrun as <- <-.
    set (w1 := worldAfter now req w t others) in *.
    pose proof (liveForest_forest w Hf) as Hweak.
    pose proof (liveForest_after now req w t others Hweak Hp Hf) as Hf1. fold w1 in Hf1.
    pose proof (truePrimary_in_after now req w t others Hweak Hp) as Ht1. fold w1 in Ht1.
    destruct (primaries_in_rows req w t others Hp t (or_introl eq_refl)) as (_ & Htl & Htp).
    assert (t' = t) as ->.
    { apply find_hasId_id in Hfind. destruct Hfind as [Hid Hin].
      apply (members_after now req w t others Hf Hne Hp) in Hin.
      apply (same_id_same_row (rows w1)); auto; [apply (liveForest_elim w1 Hf1)|tauto]. }
    assert (identifyContact now2 req w1 =
            (inr (responseOf t (candidatesOf req (rows w1))),
             mkWorld (rows w1) (nextId w1) (CallFindMany :: CallFindMany :: log w1) None))
      as Hrun2.
    { apply identify_settled; auto.
      - apply worldAfter_failAfter.
      - apply matches_after_nonempty; auto.
      - apply matches_after; auto.
      - apply nothing_new_after; auto. }
    eexists. eexists. split; [exact Hrun2|].
    destruct (responseOf_ext t (candidatesOf req (rows w1)) (membersOf now req w t others)
                (candidates_after now req w t others Hf Hne Hp)) as (H1 & H2 & H3).
    repeat split; auto; try apply H2; try apply H3.
Qed.

Lemma identify_twice_witness :
  let p1 := Contact.mk 1 (Some "a@x.com"%string) (Some "111"%string) None primary 10 10 None in
  let p2 := Contact.mk 2 (Some "b@x.com"%string) (Some "222"%string) None primary 20 20 None in
  let s3 := Contact.mk 3 (Some "c@x.com"%string) (Some "222"%string) (Some 2) secondary 25 25 None in
  let w := mkWorld [p1; p2; s3] 4 [] None in
  let req := IdentifyRequest.mk (Some "a@x.com"%string) (Some "222"%string) in
  let resp := IdentifyResponse.mk 1
                ["a@x.com"%string; "b@x.com"%string; "c@x.com"%string]
                ["111"%string; "222"%string] [2; 3] in
  let w1 := snd (identifyContact 30 req w) in
  failAfter w = None /\
  liveForest w = true /\
  identifyContact 30 req w = (inr resp, w1) /\
  exists resp2 w2,
    identifyContact 31 req w1 = (inr resp2, w2) /\
    IdentifyResponse.primaryContactId resp2 = IdentifyResponse.primaryContactId resp /\
    (forall x, In x (IdentifyResponse.emails resp2) <->
               In x (IdentifyResponse.emails resp)) /\
    (forall x, In x (IdentifyResponse.phoneNumbers resp2) <->
               In x (IdentifyResponse.phoneNumbers resp)) /\
    rows w2 = rows w1 /\
    nextId w2 = nextId w1 /\
    creations (log w2) = creations (log w1).
Proof.
  intros p1 p2 s3 w req resp w1.
  assert (failAfter w = None) as H1 by reflexivity.
  assert (liveForest w = true) as H2 by (vm_compute; reflexivity).
  assert (identifyContact 30 req w = (inr resp, w1)) as H3 by (vm_compute; reflexivity).
  split; [exact H1|]. split; [exact H2|]. split; [exact H3|].
  exact (identify_twice_same_answer_no_new_record 30 31 req w resp w1 H1 H2 H3).
Defined.

(** C1 as stated fails on a store, a forest, in which a live secondary is
    linked to a tombstoned primary: the first call merges two clusters and
    answers from the re-read cluster of the true primary, which leaves the
    orphaned secondary out; the second call has nothing to merge, answers
    from the candidate set, and reports the email of the orphan as well. *)
Lemma second_run_answers_differently :
  let p1 := Contact.mk 1 (Some "a@x.com"%string) (Some "111"%string) None primary 10 10 None in
  let p2 := Contact.mk 2 (Some "b@x.com"%string) (Some "222"%string) None primary 20 20 None in
  let d3 := Contact.mk 3 (Some "d@x.com"%string) (Some "333"%string) None primary 22 22 (Some 27) in
  let s4 := Contact.mk 4 (Some "c@x.com"%string) (Some "222"%string) (Some 3) secondary 25 25 None in
  let w := mkWorld [p1; p2; d3; s4] 5 [] None in
  let req := IdentifyRequest.mk (Some "a@x.com"%string) (Some "222"%string) in
  let first := identifyContact 30 req w in
  let second := identifyContact 40 req (snd first) in
  let resp1 := IdentifyResponse.mk 1 ["a@x.com"%string; "b@x.com"%string]
                                   ["111"%string; "222"%string] [2] in
  let resp2 := IdentifyResponse.mk 1
                 ["a@x.com"%string; "b@x.com"%string; "c@x.com"%string]
                 ["111"%string; "222"%string] [2; 4] in
  forest w = true /\
  fst first = inr resp1 /\
  fst second = inr resp2 /\
  ~ (forall x, In x (IdentifyResponse.emails resp2) <->
               In x (IdentifyResponse.emails resp1)).
Proof.
  cbv zeta. split; [vm_compute; reflexivity|].
  split; [vm_compute; reflexivity|]. split; [vm_compute; reflexivity|].
  intros H. destruct (H "c@x.com"%string) as [H1 _].
  assert (In "c@x.com"%string ["a@x.com"%string; "b@x.com"%string]) as Hin
      by (apply H1; right; right; left; reflexivity).
  destruct Hin as [E|[E|[]]]; discriminate.
Qed.

(** ** Empty strings in the request *)

Lemma truthy_absentIfEmpty v : truthy (absentIfEmpty v) = truthy v.
Proof. unfold absentIfEmpty. destruct (truthy v) eqn:E; auto. Qed.

Lemma absentIfEmpty_truthy v : truthy v = true -> absentIfEmpty v = v.
Proof. unfold absentIfEmpty. intros ->. reflexivity. Qed.

(** An empty string is never a predicate of the matching query. *)
Lemma matchingWhere_withoutEmpty email phoneNumber c :
  matchingWhere (absentIfEmpty email) (absentIfEmpty phoneNumber) c =
  matchingWhere email phoneNumber c.
Proof.
  unfold matchingWhere, matchingOR. rewrite !truthy_absentIfEmpty.
  destruct (truthy email) eqn:He, (truthy phoneNumber) eqn:Hp;
    rewrite ?(absentIfEmpty_truthy _ He), ?(absentIfEmpty_truthy _ Hp); reflexivity.
Qed.

(** An empty string is never new information. *)
Lemma createsSecondary_withoutEmpty email phoneNumber members :
  createsSecondary (absentIfEmpty email) (absentIfEmpty phoneNumber) members =
  createsSecondary email phoneNumber members.
Proof.
  unfold createsSecondary, isNew. rewrite !truthy_absentIfEmpty.
  destruct (truthy email) eqn:He, (truthy phoneNumber) eqn:Hp;
    rewrite ?(absentIfEmpty_truthy _ He), ?(absentIfEmpty_truthy _ Hp);
    simpl; rewrite ?andb_false_r; reflexivity.
Qed.

Lemma createsSecondary_both email phoneNumber members :
  createsSecondary email phoneNumber members = true ->
  truthy email = true /\ truthy phoneNumber = true.
Proof.
  unfold createsSecondary. rewrite !andb_true_iff. tauto.
Qed.

Lemma findMany_ext f g w :
  (forall c, f c = g c) -> findMany f w = findMany g w.
Proof.
  intros H. unfold findMany. destruct (serve w); [|reflexivity].
  rewrite (selectRows_ext f g); auto.
Qed.

Lemma bind_ext_run {A B} (m : M A) (k k' : A -> M B) w :
  (forall a w1, m w = (inr a, w1) -> k a w1 = k' a w1) ->
  bind m k w = bind m k' w.
Proof. intros H. unfold bind. destruct (m w) as [[e|a] w1]; auto. Qed.

Lemma bind_findMany_ext {B} f g (k k' : list Contact.t -> M B) w :
  (forall c, f c = g c) ->
  (forall ms w1, findMany g w = (inr ms, w1) -> k ms w1 = k' ms w1) ->
  bind (findMany f) k w = bind (findMany g) k' w.
Proof.
  intros Hfg H. unfold bind. rewrite (findMany_ext f g w Hfg).
  destruct (findMany g w) as [[e|a] w1]; auto.
Qed.

Lemma findMany_result f w ms w1 :
  findMany f w = (inr ms, w1) -> ms = selectRows f (rows w).
Proof.
  intros H. destruct (findMany_any _ _ _ _ H) as [_ [E|E]]; [discriminate|].
  injection E as ->. reflexivity.
Qed.

(** When something matches, a request with an empty string runs exactly as
    the request without that field, store calls included. *)
Lemma identify_withoutEmpty_matched now req w :
  matchesOf req (rows w) <> [] ->
  identifyContact now (withoutEmpty req) w = identifyContact now req w.
Proof.
  intros Hm. unfold identifyContact, withoutEmpty.
  cbn [IdentifyRequest.email IdentifyRequest.phoneNumber].
  rewrite !truthy_absentIfEmpty.
  destruct (negb (truthy (IdentifyRequest.email req)) &&
            negb (truthy (IdentifyRequest.phoneNumber req))); [reflexivity|].
  apply bind_findMany_ext; [intros c; apply matchingWhere_withoutEmpty|].
  intros ms w1 Hrun. apply findMany_result in Hrun.
  fold (matchesOf req (rows w)) in Hrun. subst ms.
  rewrite length_eqb_0. destruct (matchesOf req (rows w)); [congruence|].
  apply bind_ext_run. intros cands w2 _.
  apply bind_ext_run. intros members w3 _.
  rewrite createsSecondary_withoutEmpty.
  destruct (createsSecondary _ _ members) eqn:E; [|reflexivity].
  apply createsSecondary_both in E. destruct E as [He Hp].
  rewrite (absentIfEmpty_truthy _ He), (absentIfEmpty_truthy _ Hp). reflexivity.
Qed.

Lemma bind_findMany_fst_ext {B} f g (k k' : list Contact.t -> M B) w :
  (forall c, f c = g c) ->
  (forall ms w1, findMany g w = (inr ms, w1) -> fst (k ms w1) = fst (k' ms w1)) ->
  fst (bind (findMany f) k w) = fst (bind (findMany g) k' w).
Proof.
  intros Hfg H. unfold bind. rewrite (findMany_ext f g w Hfg).
  destruct (findMany g w) as [[e|a] w1]; auto.
Qed.

Lemma pushTruthy_absentIfEmpty v : pushTruthy [] (absentIfEmpty v) = pushTruthy [] v.
Proof.
  unfold absentIfEmpty. destruct (truthy v) eqn:E; [reflexivity|].
  destruct v as [x|]; simpl in *; [rewrite E|]; reflexivity.
Qed.

(** The response to a request with an empty string is the response to the
    request without that field, whatever the store does. *)
Lemma identify_withoutEmpty_response now req w :
  fst (identifyContact now (withoutEmpty req) w) = fst (identifyContact now req w).
Proof.
  destruct (matchesOf req (rows w)) as [|m ms] eqn:Hm.
  - unfold identifyContact, withoutEmpty.
    cbn [IdentifyRequest.email IdentifyRequest.phoneNumber].
    rewrite !truthy_absentIfEmpty.
    destruct (negb (truthy (IdentifyRequest.email req)) &&
              negb (truthy (IdentifyRequest.phoneNumber req))); [reflexivity|].
    apply bind_findMany_fst_ext; [intros c; apply matchingWhere_withoutEmpty|].
    intros ms w1 Hrun. apply findMany_result in Hrun.
    fold (matchesOf req (rows w)) in Hrun. subst ms. rewrite Hm, length_eqb_0.
    unfold bind, create. destruct (serve w1) as [w2|]; [|reflexivity].
    cbv zeta.
    rewrite (buildResponse_run _ _ _
               (newRow (nextId w2) now (absentIfEmpty (IdentifyRequest.email req))
                       (absentIfEmpty (IdentifyRequest.phoneNumber req)) None primary))
      by (simpl; unfold hasId; simpl; rewrite Z.eqb_refl; reflexivity).
    rewrite (buildResponse_run _ _ _
               (newRow (nextId w2) now (IdentifyRequest.email req)
                       (IdentifyRequest.phoneNumber req) None primary))
      by (simpl; unfold hasId; simpl; rewrite Z.eqb_refl; reflexivity).
    cbn [fst]. unfold restOf, collect, hasId, newRow.
    cbn [filter Contact.id Contact.email Contact.phoneNumber].
    rewrite Z.eqb_refl. cbn [negb fold_left].
    rewrite !pushTruthy_absentIfEmpty. reflexivity.
  - rewrite identify_withoutEmpty_matched; [reflexivity|].
    rewrite Hm. discriminate.
Qed.

(** ** The empty string as an identifier (claim C10) *)

(** C10: a request whose email is the empty string should behave exactly as
    the request without an email.  On the empty store the two requests get
    the same response, but they do not leave the same store: the fresh
    primary of the first holds the empty string as its email ([email ??
    null] at line 65 keeps it), that of the second holds null. *)
Theorem empty_email_is_stored_as_given :
  let w := mkWorld [] 1 [] None in
  let given :=
    identifyContact 10 (IdentifyRequest.mk (Some EmptyString) (Some "123"%string)) w in
  let absent :=
    identifyContact 10 (IdentifyRequest.mk None (Some "123"%string)) w in
  fst given = inr (IdentifyResponse.mk 1 [] ["123"%string] []) /\
  fst absent = fst given /\
  map Contact.email (rows (snd given)) = [Some EmptyString] /\
  map Contact.email (rows (snd absent)) = [None] /\
  snd given <> snd absent.
Proof.
  vm_compute. repeat split; try reflexivity. discriminate.
Qed.

(** ** Any run, whether or not the store fails: what is kept *)

Lemma sameContacts_refl w : sameContacts w w.
Proof. split; reflexivity. Qed.

Lemma sameContacts_trans w1 w2 w3 :
  sameContacts w1 w2 -> sameContacts w2 w3 -> sameContacts w1 w3.
Proof. intros [H1 H2] [H3 H4]. split; congruence. Qed.

Lemma updateRows_identity where_ data rs :
  (forall c, identityOf (data c) = identityOf c) ->
  map identityOf (updateRows where_ data rs) = map identityOf rs.
Proof.
  intros H. unfold updateRows. rewrite map_map. apply map_ext.
  intros c. destruct (where_ c); auto.
Qed.

Lemma sameContacts_In w w' c :
  sameContacts w w' -> In c (rows w) ->
  exists c', In c' (rows w') /\ identityOf c' = identityOf c.
Proof.
  intros [H _] Hin. apply (in_map identityOf) in Hin. rewrite <- H in Hin.
  apply in_map_iff in Hin. destruct Hin as (c' & E & Hin'). eauto.
Qed.

Lemma findMany_keeps where_ w r w' :
  findMany where_ w = (r, w') ->
  sameContacts w w' /\
  (r = inl StoreFailure \/ r = inr (selectRows where_ (rows w))).
Proof.
  unfold findMany. destruct (serve w) as [w1|] eqn:E; intros H; injection H as <- <-.
  - destruct (serve_sameRecords _ _ E) as (Hr & Hn & _). split.
    + split; simpl; congruence.
    + right. rewrite Hr. reflexivity.
  - split; [apply sameContacts_refl|auto].
Qed.

Lemma update_keeps i data w r w' :
  (forall c, identityOf (data c) = identityOf c) ->
  update i data w = (r, w') -> sameContacts w w'.
Proof.
  intros Hd. unfold update. destruct (serve w) as [w1|] eqn:E.
  - destruct (serve_sameRecords _ _ E) as (Hr & Hn & _).
    destruct (existsb (hasId i) (rows w1)); intros H; injection H as <- <-.
    + split; simpl; [|congruence]. rewrite updateRows_identity; auto. congruence.
    + split; congruence.
  - intros H; injection H as <- <-. apply sameContacts_refl.
Qed.

Lemma updateMany_keeps linked data w r w' :
  (forall c, identityOf (data c) = identityOf c) ->
  updateMany linked data w = (r, w') -> sameContacts w w'.
Proof.
  intros Hd. unfold updateMany. destruct (serve w) as [w1|] eqn:E;
    intros H; injection H as <- <-.
  - destruct (serve_sameRecords _ _ E) as (Hr & Hn & _).
    split; simpl; [|congruence]. rewrite updateRows_identity; auto. congruence.
  - apply sameContacts_refl.
Qed.

Lemma create_appends now e p l lp w r w' :
  create now e p l lp w = (r, w') ->
  (r = inl StoreFailure /\ w' = w) \/
  (r = inr (newRow (nextId w) now e p l lp) /\
   rows w' = rows w ++ [newRow (nextId w) now e p l lp] /\
   nextId w' = nextId w + 1).
Proof.
  unfold create. destruct (serve w) as [w1|] eqn:E; intros H; injection H as <- <-.
  - destruct (serve_sameRecords _ _ E) as (Hr & Hn & _). right.
    simpl. rewrite Hr, Hn. auto.
  - auto.
Qed.

Lemma demoteAndRelink_keeps now t o w r w' :
  demoteAndRelink now t o w = (r, w') -> sameContacts w w'.
Proof.
  unfold demoteAndRelink. destruct t as [t|]; simpl.
  - unfold bind, ret.
    destruct (update (Contact.id o) (demote (Contact.id t) now) w) as [[e|[]] w1] eqn:E1.
    + intros H; injection H as _ <-. eapply update_keeps; [|exact E1]. reflexivity.
    + intros H. eapply sameContacts_trans.
      * eapply update_keeps; [|exact E1]. reflexivity.
      * eapply updateMany_keeps; [|exact H]. reflexivity.
  - unfold bind, throw. intros H; injection H as _ <-. apply sameContacts_refl.
Qed.

Lemma forEach_demoteAndRelink_keeps now t others w r w' :
  forEach others (demoteAndRelink now t) w = (r, w') -> sameContacts w w'.
Proof.
  revert w. induction others as [|o os IH]; intros w; simpl.
  - unfold ret. intros H; injection H as _ <-. apply sameContacts_refl.
  - unfold bind at 1. destruct (demoteAndRelink now t o w) as [[e|[]] w1] eqn:E1.
    + intros H; injection H as _ <-. eapply demoteAndRelink_keeps; eauto.
    + intros H. eapply sameContacts_trans.
      * eapply demoteAndRelink_keeps; eauto.
      * eapply IH; eauto.
Qed.

(** Step 5 of any run: the table keeps its contacts, and when the step
    hands on a list of members, a row with the id of the true primary is
    one of them. *)
Lemma resolve_keeps now cands t others w2 r w3 :
  In t cands ->
  (forall c, In c cands -> In c (rows w2) /\ notDeleted c = true) ->
  (if (0 <? length others)%nat
   then forEach others (demoteAndRelink now (Some t)) ;;;
        tid <- idOf (Some t) ;;
        findMany (membersWhere tid)
   else ret cands) w2 = (r, w3) ->
  sameContacts w2 w3 /\
  forall members, r = inr members ->
    exists c, In c members /\ Contact.id c = Contact.id t.
Proof.
  intros Hin Hc H.
  destruct (0 <? length others)%nat.
  - bind_step H u w4 E4.
    { split; [eapply forEach_demoteAndRelink_keeps; eauto|discriminate]. }
    apply forEach_demoteAndRelink_keeps in E4.
    cbn [idOf] in H. unfold bind at 1, ret at 1 in H.
    destruct (findMany_keeps _ _ _ _ H) as [S [->| ->]].
    + split; [eapply sameContacts_trans; eauto|discriminate].
    + split; [eapply sameContacts_trans; eauto|].
      intros members Hm. injection Hm as <-.
      destruct (Hc t Hin) as [Hrow Hlive].
      destruct (sameContacts_In _ _ _ E4 Hrow) as (t' & Hin' & Eid).
      unfold identityOf in Eid. injection Eid as E1 _ _ _ E5.
      exists t'. split; auto. apply selectRows_In. split; auto.
      unfold membersWhere, notDeleted in *. rewrite E5, E1, Z.eqb_refl.
      rewrite Hlive. reflexivity.
  - injection H as <- <-. split; [apply sameContacts_refl|].
    intros members Hm. injection Hm as <-. eauto.
Qed.

(** Any run of [identifyContact]: the store calls keep the contacts of the
    table, and the one call that adds a row is the last store call of a run
    that answers. *)
Lemma identify_trace now req w r w' :
  identifyContact now req w = (r, w') ->
  sameContacts w w' \/
  exists w1 l lp,
    sameContacts w w1 /\
    rows w' = rows w1 ++ [newRow (nextId w) now (IdentifyRequest.email req)
                                 (IdentifyRequest.phoneNumber req) l lp] /\
    nextId w' = nextId w + 1 /\
    (exists resp, r = inr resp) /\
    (matchesOf req (rows w) = [] \/
     truthy (IdentifyRequest.email req) = true /\
     truthy (IdentifyRequest.phoneNumber req) = true).
Proof.
  unfold identifyContact. intros H.
  destruct (negb (truthy (IdentifyRequest.email req)) &&
            negb (truthy (IdentifyRequest.phoneNumber req))).
  { injection H as _ <-. left. apply sameContacts_refl. }
  bind_step H ms w1 E1.
  { left. eapply findMany_keeps; eauto. }
  destruct (findMany_keeps _ _ _ _ E1) as [S1 [Hr|Hr]]; [discriminate|].
  injection Hr as Hms. fold (matchesOf req (rows w)) in Hms.
  rewrite length_eqb_0 in H. destruct ms as [|m ms'].
  - (* no match *)
    bind_step H c w2 E2.
    { left. destruct (create_appends _ _ _ _ _ _ _ _ E2) as [[_ ->]|[? _]];
        [auto|discriminate]. }
    destruct (create_appends _ _ _ _ _ _ _ _ E2) as [[? _]|(Hc & Hrows & Hn)];
      [discriminate|].
    injection Hc as ->.
    rewrite (buildResponse_run _ _ _ (newRow (nextId w1) now (IdentifyRequest.email req)
                                             (IdentifyRequest.phoneNumber req) None primary))
      in H by (simpl; unfold hasId; simpl; rewrite Z.eqb_refl; reflexivity).
    injection H as <- <-.
    right. exists w1, None, primary.
    destruct S1 as [S1 Hn1]. rewrite Hn1 in *.
    repeat split; eauto.
  - (* matches *)
    bind_step H cands w2 E2.
    { left. eapply sameContacts_trans; [exact S1|]. eapply findMany_keeps; eauto. }
    destruct (findMany_keeps _ _ _ _ E2) as [S2 [Hr|Hr]]; [discriminate|].
    injection Hr as Hcands.
    assert (forall c, In c cands -> In c (rows w2) /\ notDeleted c = true) as Hc.
    { intros c Hin. rewrite Hcands in Hin. apply selectRows_In in Hin.
      destruct Hin as [Hin Hw]. unfold clustersWhere in Hw.
      apply andb_true_iff in Hw. split; [|tauto].
      unfold findMany in E2. destruct (serve w1) as [w1'|] eqn:Es; [|discriminate].
      injection E2 as _ <-. cbn [rows].
      destruct (serve_sameRecords _ _ Es) as (-> & _). exact Hin. }
    assert (sameContacts w w2) as S02 by (eapply sameContacts_trans; eauto).
    clear E1 E2 S1 S2 Hcands.
    destruct (primariesOf cands) as [|t others] eqn:Ep; cbn [hd_error tl] in H.
    + (* no primary among the candidates *)
      left. cbn [length Nat.ltb Nat.leb] in H.
      unfold bind at 1, ret at 1 in H.
      destruct (createsSecondary _ _ cands); cbn [idOf] in H;
        unfold bind, throw, ret in H; injection H as _ <-; exact S02.
    + assert (In t cands) as Hin.
      { apply (proj1 (primariesOf_In t cands)). rewrite Ep. left; auto. }
      bind_step H members w3 E3.
      { left. eapply sameContacts_trans; [exact S02|].
        eapply resolve_keeps; eauto. }
      destruct (resolve_keeps _ _ _ _ _ _ _ Hin Hc E3) as [S3 Hmem].
      destruct (Hmem members eq_refl) as (c0 & Hc0 & Hid0).
      assert (sameContacts w w3) as S03 by (eapply sameContacts_trans; eauto).
      clear E3 Hmem S3 S02 Hc.
      destruct (createsSecondary _ _ members) eqn:Ecs.
      * bind_step H members2 w4 E4.
        { cbn [idOf] in E4. unfold bind at 1, ret at 1 in E4.
          bind_step E4 c w5 E5; [|discriminate].
          left. destruct (create_appends _ _ _ _ _ _ _ _ E5) as [[_ ->]|[? _]];
            [auto|discriminate]. }
        cbn [idOf] in E4. unfold bind at 1, ret at 1 in E4.
        bind_step E4 c w5 E5. injection E4 as <- <-.
        destruct (create_appends _ _ _ _ _ _ _ _ E5) as [[? _]|(Hc & Hrows & Hn)];
          [discriminate|].
        injection Hc as ->.
        cbn [idOf] in H. unfold bind at 1, ret at 1 in H.
        destruct (find_hasId_some (Contact.id t)
                    (members ++ [newRow (nextId w3) now (IdentifyRequest.email req)
                                        (IdentifyRequest.phoneNumber req)
                                        (Some (Contact.id t)) secondary]) c0)
          as [t' Ht']; [apply in_or_app; auto|auto|].
        rewrite (buildResponse_run _ _ _ t' _ Ht') in H. injection H as <- <-.
        right. exists w3, (Some (Contact.id t)), secondary.
        destruct S03 as [S03 Hn3]. rewrite Hn3 in *.
        split; [split; auto|]. split; [exact Hrows|]. split; [exact Hn|].
        split; [eauto|]. right. eapply createsSecondary_both; eauto.
      * left. unfold bind at 1, ret at 1 in H. cbn [idOf] in H.
        unfold bind at 1, ret at 1 in H.
        apply buildResponse_any in H. subst w'. exact S03.
Qed.

Lemma identityOf_ids l1 l2 :
  map identityOf l1 = map identityOf l2 -> map Contact.id l1 = map Contact.id l2.
Proof.
  intros H.
  assert (forall l, map Contact.id l =
                    map (fun k => fst (fst (fst (fst k)))) (map identityOf l)) as E.
  { intros l. rewrite map_map. reflexivity. }
  rewrite (E l1), (E l2), H. reflexivity.
Qed.

Lemma freshIds_iff w :
  freshIds w = true <->
  NoDup (map Contact.id (rows w)) /\
  Forall (fun i => i < nextId w) (map Contact.id (rows w)).
Proof.
  unfold freshIds. rewrite andb_true_iff, distinctIds_NoDup, forallb_forall, Forall_forall.
  split; intros [H1 H2]; split; auto.
  - intros i Hi. apply in_map_iff in Hi. destruct Hi as (c & <- & Hc).
    apply Z.ltb_lt. auto.
  - intros c Hc. apply Z.ltb_lt. apply H2. apply in_map. exact Hc.
Qed.

(** X1 (identifyContact, lines 40-182; the [data] of lines 117-121 and
    130-133): whatever the request and the store, and whether the call
    answers, throws or is cut short by a failing store call, every contact of
    the table is still there afterwards, in its place, with the id, email,
    phoneNumber, createdAt and deletedAt it had; the only other change to
    the set of rows is at most one row appended. *)
Theorem identify_keeps_every_contact now req w :
  exists added,
    map identityOf (rows (snd (identifyContact now req w))) =
    map identityOf (rows w) ++ map identityOf added /\
    (length added <= 1)%nat.
Proof.
  destruct (identifyContact now req w) as [r w'] eqn:E. cbn [snd].
  destruct (identify_trace _ _ _ _ _ E) as [[S _]|(w1 & l & lp & [S _] & Hrows & _)].
  - exists []. rewrite app_nil_r. split; [exact S|simpl; lia].
  - eexists [_]. rewrite Hrows, map_app, S. split; [reflexivity|simpl; lia].
Qed.

(** X2 (identifyContact, lines 62-73 and 167-177): a call that fails, with
    any error and at any store call, has created no contact: the table holds
    the contacts it held, and the counter of ids has not moved.  The row
    is inserted by the last store call of a run, and nothing after it
    throws. *)
Theorem failed_call_creates_nothing now req w e :
  fst (identifyContact now req w) = inl e ->
  sameContacts w (snd (identifyContact now req w)).
Proof.
  destruct (identifyContact now req w) as [r w'] eqn:E. cbn [fst snd]. intros ->.
  destruct (identify_trace _ _ _ _ _ E) as [S|(w1 & l & lp & _ & _ & _ & [resp Hr] & _)].
  - exact S.
  - discriminate.
Qed.

Lemma failed_call_creates_nothing_witness :
  let p1 := Contact.mk 1 (Some "a@x.com"%string) (Some "111"%string) None primary 10 10 None in
  let p2 := Contact.mk 2 (Some "b@x.com"%string) (Some "222"%string) None primary 20 20 None in
  let w := mkWorld [p1; p2] 3 [] (Some 3%nat) in
  let req := IdentifyRequest.mk (Some "a@x.com"%string) (Some "222"%string) in
  fst (identifyContact 30 req w) = inl StoreFailure /\
  rows (snd (identifyContact 30 req w)) = [p1; demote 1 30 p2] /\
  sameContacts w (snd (identifyContact 30 req w)).
Proof.
  intros p1 p2 w req. split; [reflexivity|]. split; [reflexivity|].
  apply (failed_call_creates_nothing 30 req w StoreFailure). reflexivity.
Defined.

(** X3 (identifyContact, lines 62 and 164-167): when some contact matches
    and the request carries only one truthy identifier, no run creates a
    contact, whether or not the store fails: [hasBothFields] is false, and
    the only other [create] is on the branch without a match. *)
Theorem one_identifier_with_match_creates_nothing now req w :
  matchesOf req (rows w) <> [] ->
  truthy (IdentifyRequest.email req) && truthy (IdentifyRequest.phoneNumber req) = false ->
  sameContacts w (snd (identifyContact now req w)).
Proof.
  intros Hm Hb.
  destruct (identifyContact now req w) as [r w'] eqn:E. cbn [snd].
  destruct (identify_trace _ _ _ _ _ E)
    as [S|(w1 & l & lp & _ & _ & _ & _ & [Hno|[He Hp]])].
  - exact S.
  - contradiction.
  - rewrite He, Hp in Hb. discriminate.
Qed.

Lemma one_identifier_with_match_witness :
  let p1 := Contact.mk 1 (Some "a@x.com"%string) (Some "111"%string) None primary 10 10 None in
  let p2 := Contact.mk 2 (Some "a@x.com"%string) (Some "222"%string) None primary 20 20 None in
  let w := mkWorld [p1; p2] 3 [] None in
  let req := IdentifyRequest.mk (Some "a@x.com"%string) None in
  matchesOf req (rows w) = [p1; p2] /\
  rows (snd (identifyContact 30 req w)) = [p1; demote 1 30 p2] /\
  sameContacts w (snd (identifyContact 30 req w)).
Proof.
  intros p1 p2 w req. split; [reflexivity|]. split; [reflexivity|].
  apply (one_identifier_with_match_creates_nothing 30 req w).
  - discriminate.
  - reflexivity.
Defined.

(** X4 (identifyContact, lines 62-73 and 167-177, with the auto-increment
    of the store): distinct ids below the counter stay distinct and below
    the counter through any run, whether or not the store fails. *)
Theorem identify_keeps_ids_fresh now req w :
  freshIds w = true ->
  freshIds (snd (identifyContact now req w)) = true.
Proof.
  intros Hf. apply freshIds_iff in Hf. destruct Hf as [Hnd Hlt].
  destruct (identifyContact now req w) as [r w'] eqn:E. cbn [snd].
  apply freshIds_iff.
  destruct (identify_trace _ _ _ _ _ E) as [[S Hn]|(w1 & l & lp & [S _] & Hrows & Hn & _)].
  - apply identityOf_ids in S. rewrite S, Hn. auto.
  - apply identityOf_ids in S. rewrite Hrows, map_app, S, Hn. cbn [map newRow Contact.id].
    split.
    + apply NoDup_app; auto.
      * constructor; [simpl; tauto|constructor].
      * intros i Hi [<-|[]]. rewrite Forall_forall in Hlt. specialize (Hlt _ Hi). lia.
    + apply Forall_app. split.
      * eapply Forall_impl; [|exact Hlt]. simpl. intros; lia.
      * constructor; [lia|constructor].
Qed.

Lemma identify_keeps_ids_fresh_witness :
  let p1 := Contact.mk 1 (Some "a@x.com"%string) (Some "111"%string) None primary 10 10 None in
  let w := mkWorld [p1] 2 [] None in
  let req := IdentifyRequest.mk (Some "a@x.com"%string) (Some "222"%string) in
  freshIds w = true /\
  map Contact.id (rows (snd (identifyContact 30 req w))) = [1; 2] /\
  freshIds (snd (identifyContact 30 req w)) = true.
Proof.
  intros p1 w req. split; [reflexivity|]. split; [reflexivity|].
  apply (identify_keeps_ids_fresh 30 req w). reflexivity.
Defined.

(** ** The outcomes of a call on a store that does not fail *)

Lemma matches_valid req rs : matchesOf req rs <> [] -> validRequest req = true.
Proof.
  intros H. destruct (validRequest req) eqn:E; auto. exfalso. apply H.
  unfold validRequest in E. apply orb_false_iff in E. destruct E as [E1 E2].
  unfold matchesOf, selectRows.
  rewrite (filter_ext _ (fun _ => false)).
  - clear. induction rs; simpl; auto.
  - intros c. unfold matchingWhere, matchingOR. rewrite E1, E2. apply andb_false_r.
Qed.

(** X5 (identifyContact, lines 40-182): on a store that does not fail,
    and in a table where every live secondary holds a link, the call has
    three outcomes and no other.  It answers exactly when the
    request is valid and either nothing matches or the candidates hold a
    primary; it throws the error of line 46 exactly when no identifier is
    truthy; it throws a TypeError exactly when something matches and the
    candidates hold no primary.  The [update] of line 115 never misses its
    row, and [buildResponse] always finds the primary. *)
Theorem identify_outcomes now req w :
  failAfter w = None ->
  secondariesLinked w = true ->
  match fst (identifyContact now req w) with
  | inr _ =>
      validRequest req = true /\
      (matchesOf req (rows w) = [] \/ primariesOf (candidatesOf req (rows w)) <> [])
  | inl (Error message) =>
      validRequest req = false /\ message = invalidRequestMessage
  | inl TypeError =>
      validRequest req = true /\ matchesOf req (rows w) <> [] /\
      primariesOf (candidatesOf req (rows w)) = []
  | inl RecordNotFound => False
  | inl StoreFailure => False
  end.
Proof.
  intros Hnf _. destruct (validRequest req) eqn:Hv.
  - destruct (matchesOf req (rows w)) as [|m ms] eqn:Hm.
    + pose proof (identify_fresh_run now req w Hnf Hv Hm) as E. cbv zeta in E.
      rewrite E. simpl. auto.
    + assert (matchesOf req (rows w) <> []) as Hne by (rewrite Hm; discriminate).
      destruct (primariesOf (candidatesOf req (rows w))) as [|t others] eqn:Hp.
      * rewrite (identify_inconsistent_run now req w Hnf Hv Hne Hp). simpl.
        repeat split; auto. discriminate.
      * destruct (identify_cluster_run now req w t others Hnf Hv Hne Hp) as (t' & _ & ->).
        simpl. split; auto. right. discriminate.
  - rewrite (identify_invalid_run now req w Hv). simpl. auto.
Qed.

Lemma identify_outcomes_witness :
  let s1 := Contact.mk 1 (Some "a@x.com"%string) (Some "111"%string) (Some 9) secondary 10 10 None in
  let w := mkWorld [s1] 2 [] None in
  let req := IdentifyRequest.mk (Some "a@x.com"%string) None in
  secondariesLinked w = true /\
  fst (identifyContact 30 req w) = inl TypeError /\
  validRequest req = true /\ matchesOf req (rows w) <> [] /\
  primariesOf (candidatesOf req (rows w)) = [].
Proof.
  intros s1 w req. split; [reflexivity|]. split; [reflexivity|].
  exact (identify_outcomes 30 req w eq_refl eq_refl).
Defined.

(** In a forest without orphans the root of a match is a live primary, and
    it is among the candidates. *)
Lemma live_match_has_primary req w :
  liveForest w = true -> matchesOf req (rows w) <> [] ->
  primariesOf (candidatesOf req (rows w)) <> [].
Proof.
  intros Hf Hm. destruct (matchesOf req (rows w)) as [|m ms] eqn:Em; [congruence|].
  assert (In m (matchesOf req (rows w))) as Hin by (rewrite Em; left; auto).
  pose proof Hin as Hin'. apply matchesOf_In in Hin'. destruct Hin' as [Hrow Hw].
  apply matchingWhere_live in Hw.
  destruct (liveForest_root w m Hf Hrow Hw) as (p & Hp & Hroot & Hlive & Hprim & _).
  assert (In p (primariesOf (candidatesOf req (rows w)))) as H.
  { apply primariesOf_In. split; auto. unfold candidatesOf. apply selectRows_In.
    split; auto. unfold clustersWhere. rewrite Hlive. simpl.
    apply orb_true_iff. left. apply inIds_iff. apply collectRootIds_In.
    exists m. rewrite Em in *. auto. }
  intros E. rewrite E in H. contradiction.
Qed.

(** In a forest without orphans, on a store that does not fail, a valid
    request is answered. *)
Lemma liveForest_answers now req w :
  failAfter w = None ->
  liveForest w = true ->
  validRequest req = true ->
  exists resp, fst (identifyContact now req w) = inr resp.
Proof.
  intros Hnf Hf Hv.
  destruct (matchesOf req (rows w)) as [|m ms] eqn:Hm.
  - pose proof (identify_fresh_run now req w Hnf Hv Hm) as E. cbv zeta in E.
    rewrite E. simpl. eauto.
  - assert (matchesOf req (rows w) <> []) as Hne by (rewrite Hm; discriminate).
    pose proof (live_match_has_primary req w Hf Hne) as Hp.
    destruct (primariesOf (candidatesOf req (rows w))) as [|t others] eqn:Ep; [congruence|].
    destruct (identify_cluster_run now req w t others Hnf Hv Hne Ep) as (t' & _ & ->).
    simpl. eauto.
Qed.

(** X6 (identifyContact, lines 45-47 and 101-106): in a forest without
    orphans, on a store that does not fail, every request with a truthy
    identifier is answered: [primaries[0]] is never [undefined]. *)
Theorem valid_request_is_answered now req w :
  failAfter w = None ->
  liveForest w = true ->
  validRequest req = true ->
  exists resp, fst (identifyContact now req w) = inr resp.
Proof. apply liveForest_answers. Qed.

Lemma valid_request_is_answered_witness :
  let p1 := Contact.mk 1 (Some "a@x.com"%string) (Some "111"%string) None primary 10 10 None in
  let s2 := Contact.mk 2 (Some "b@x.com"%string) (Some "111"%string) (Some 1) secondary 20 20 None in
  let w := mkWorld [p1; s2] 3 [] None in
  let req := IdentifyRequest.mk (Some "b@x.com"%string) None in
  liveForest w = true /\ validRequest req = true /\
  exists resp, fst (identifyContact 30 req w) = inr resp.
Proof.
  intros p1 s2 w req. split; [reflexivity|]. split; [reflexivity|].
  apply (valid_request_is_answered 30 req w); reflexivity.
Defined.


(** ** The invariants, call after call *)

Lemma primaryAt_app rs extra i :
  primaryAt rs i = true -> primaryAt (rs ++ extra) i = true.
Proof.
  unfold primaryAt. rewrite existsb_app. intros ->. reflexivity.
Qed.

Lemma treeLinked_app rs extra c :
  treeLinked rs c = true -> treeLinked (rs ++ extra) c = true.
Proof.
  unfold treeLinked. destruct (negb (notDeleted c)); simpl; [reflexivity|].
  destruct (Contact.linkPrecedence c), (Contact.linkedId c); auto.
  apply primaryAt_app.
Qed.

(** A fresh primary at the end of a forest. *)
Lemma forest_fresh w now e p calls :
  forest w = true ->
  forest (mkWorld (rows w ++ [newRow (nextId w) now e p None primary])
                  (nextId w + 1) calls None) = true.
Proof.
  intros Hforest. destruct (forest_elim w Hforest) as (Hnd & Hfresh & Hw).
  apply forest_intro; cbn [rows nextId].
  - rewrite map_app. apply NoDup_app; auto.
    + constructor; [intros []|constructor].
    + intros i Hi [<-|[]]. apply in_map_iff in Hi. destruct Hi as (x & E & Hx).
      specialize (Hfresh x Hx). simpl in E. lia.
  - intros x Hx. apply in_app_or in Hx. destruct Hx as [Hx|[<-|[]]].
    + specialize (Hfresh x Hx). lia.
    + simpl. lia.
  - intros x Hx. apply in_app_or in Hx. destruct Hx as [Hx|[<-|[]]].
    + apply treeLinked_app, Hw, Hx.
    + reflexivity.
Qed.

(** One call on a store that does not fail: the store still does not fail,
    and both invariants of the table hold after it if they held before. *)
Lemma identify_invariants now req w :
  failAfter w = None ->
  failAfter (snd (identifyContact now req w)) = None /\
  (forest w = true -> forest (snd (identifyContact now req w)) = true) /\
  (liveForest w = true -> liveForest (snd (identifyContact now req w)) = true).
Proof.
  intros Hnf. destruct (validRequest req) eqn:Hv.
  - destruct (matchesOf req (rows w)) as [|m ms] eqn:Hm.
    + pose proof (identify_fresh_run now req w Hnf Hv Hm) as E. cbv zeta in E.
      rewrite E. cbn [snd]. split; [reflexivity|]. split; intros Hf.
      * apply forest_fresh. exact Hf.
      * apply liveForest_fresh. exact Hf.
    + assert (matchesOf req (rows w) <> []) as Hne by (rewrite Hm; discriminate).
      destruct (primariesOf (candidatesOf req (rows w))) as [|t others] eqn:Hp.
      * rewrite (identify_inconsistent_run now req w Hnf Hv Hne Hp). cbn [snd].
        split; [reflexivity|]. split; intros Hf; exact Hf.
      * destruct (identify_cluster_run now req w t others Hnf Hv Hne Hp) as (t' & _ & ->).
        cbn [snd]. split; [apply worldAfter_failAfter|]. split; intros Hf.
        -- apply forest_after; auto.
        -- apply liveForest_after; auto. apply liveForest_forest. exact Hf.
  - rewrite (identify_invalid_run now req w Hv). cbn [snd]. auto.
Qed.

(** X7 (identifyContact, lines 40-182): on a store that does not fail, every
    call, whether it answers or throws, and whether it merges, creates or
    only reads, keeps the forest invariant of the table (distinct ids below
    the counter, live primaries without a link, live secondaries linked to
    a primary), and keeps the table free of orphans if it was. *)
Theorem every_call_keeps_the_forest now req w :
  failAfter w = None ->
  (forest w = true -> forest (snd (identifyContact now req w)) = true) /\
  (liveForest w = true -> liveForest (snd (identifyContact now req w)) = true).
Proof. intros Hnf. apply (identify_invariants now req w Hnf). Qed.

Lemma every_call_keeps_the_forest_witness :
  let p1 := Contact.mk 1 (Some "a@x.com"%string) (Some "111"%string) None primary 10 10 None in
  let p2 := Contact.mk 2 (Some "b@x.com"%string) (Some "222"%string) None primary 20 20 None in
  let w := mkWorld [p1; p2] 3 [] None in
  let req := IdentifyRequest.mk (Some "b@x.com"%string) (Some "111"%string) in
  liveForest w = true /\
  map Contact.linkedId (rows (snd (identifyContact 30 req w))) = [None; Some 1] /\
  liveForest (snd (identifyContact 30 req w)) = true.
Proof.
  intros p1 p2 w req. split; [reflexivity|]. split; [reflexivity|].
  apply (every_call_keeps_the_forest 30 req w); reflexivity.
Defined.



(** ** The response and the table after the call *)

Lemma members_ids_NoDup now req w t others :
  NoDup (map Contact.id (rows w)) ->
  (forall c, In c (rows w) -> Contact.id c < nextId w) ->
  NoDup (map Contact.id (membersOf now req w t others)).
Proof.
  intros Hnd Hlt.
  assert (NoDup (map Contact.id (clusterOf now req (rows w) t others)) /\
          forall c, In c (clusterOf now req (rows w) t others) -> Contact.id c < nextId w)
    as [Hcl Hcllt].
  { destruct others as [|o os]; cbn [clusterOf]; split.
    - apply selectRows_ids_NoDup. exact Hnd.
    - intros c Hc. apply candidatesOf_In in Hc. apply Hlt. tauto.
    - apply selectRows_ids_NoDup. rewrite mergeRows_ids. exact Hnd.
    - intros c Hc. apply selectRows_In in Hc. destruct Hc as [Hc _].
      apply (in_map Contact.id) in Hc. rewrite mergeRows_ids in Hc.
      apply in_map_iff in Hc. destruct Hc as (c0 & <- & Hc0). auto. }
  unfold membersOf. destruct (createsFor now req w t others); auto.
  rewrite map_app. apply NoDup_app; auto.
  - constructor; [intros []|constructor].
  - intros i Hi [<-|[]]. apply in_map_iff in Hi. destruct Hi as (c & E & Hc).
    specialize (Hcllt c Hc). simpl in E. lia.
Qed.

(** With distinct ids, a list of the response holds the present values of
    the members, whichever row [find] returned for the primary. *)
Lemma responseOf_In col t members x :
  NoDup (map Contact.id members) -> In t members ->
  In x (collect col t (restOf (Contact.id t) members)) <->
  exists c, In c members /\ col c = Some x /\ x <> EmptyString.
Proof.
  intros Hnd Ht. rewrite collect_In. split; intros (c & Hc & H); exists c; split; auto.
  - destruct Hc as [<-|Hc]; auto. apply restOf_In in Hc. tauto.
  - destruct (hasId (Contact.id t) c) eqn:E.
    + left. unfold hasId in E. apply Z.eqb_eq in E.
      symmetry. apply (same_id_same_row members); auto.
    + right. apply restOf_In. auto.
Qed.

(** In a table without orphans the secondaries among the members of a
    primary are the members other than the primary. *)
Lemma secondaries_In rs t members i :
  (forall c, In c rs -> wellLinked rs c = true) ->
  NoDup (map Contact.id members) ->
  (forall c, In c members <-> In c rs /\ membersWhere (Contact.id t) c = true) ->
  In t members -> isPrimary t = true ->
  In i (map Contact.id (filter isSecondary members)) <->
  i <> Contact.id t /\ exists c, In c members /\ Contact.id c = i.
Proof.
  intros Hw Hnd Hm Ht Hp. rewrite in_map_iff. split.
  - intros (c & <- & Hc). apply filter_In in Hc. destruct Hc as [Hc Hs]. split; eauto.
    intros E. assert (c = t) by (apply (same_id_same_row members); auto). subst c.
    unfold isPrimary, isSecondary in *. destruct (Contact.linkPrecedence t); discriminate.
  - intros (Hne & c & Hc & <-). exists c. split; auto. apply filter_In. split; auto.
    destruct (proj1 (Hm c) Hc) as [Hrow Hmw]. specialize (Hw c Hrow).
    unfold membersWhere in Hmw. apply andb_true_iff in Hmw. destruct Hmw as [Hl Hor].
    apply orb_true_iff in Hor. destruct Hor as [E|E]; [apply Z.eqb_eq in E; contradiction|].
    unfold wellLinked in Hw. rewrite Hl in Hw. simpl in Hw. unfold isSecondary.
    unfold linkIs in E.
    destruct (Contact.linkPrecedence c), (Contact.linkedId c); auto; discriminate.
Qed.

(** An answered call in a forest without orphans: the response is built
    from a live primary and the list of its members in the table after
    the call, and for the same request that table is settled. *)
Lemma identify_settles now req w resp :
  failAfter w = None ->
  liveForest w = true ->
  fst (identifyContact now req w) = inr resp ->
  liveForest (snd (identifyContact now req w)) = true /\
  exists t members,
    resp = responseOf t members /\
    In t members /\ isPrimary t = true /\
    NoDup (map Contact.id members) /\
    (forall c, In c members <->
               In c (rows (snd (identifyContact now req w))) /\
               membersWhere (Contact.id t) c = true) /\
    (forall c, In c (candidatesOf req (rows (snd (identifyContact now req w)))) <->
               In c members) /\
    createsSecondary (IdentifyRequest.email req) (IdentifyRequest.phoneNumber req)
      (candidatesOf req (rows (snd (identifyContact now req w)))) = false /\
    matchesOf req (rows (snd (identifyContact now req w))) <> [] /\
    (forall m, In m (matchesOf req (rows (snd (identifyContact now req w)))) ->
               rootId m = Some (Contact.id t)).
Proof.
  intros Hnf Hf Hrun.
  assert (validRequest req = true) as Hv.
  { destruct (identifyContact now req w) as [r w'] eqn:E. simpl in Hrun. subst r.
    eapply identify_inr_valid; eauto. }
  destruct (liveForest_elim w Hf) as (Hnd & Hlt & Hwl).
  pose proof (liveForest_forest w Hf) as Hwf.
  destruct (matchesOf req (rows w)) as [|m ms] eqn:Hm.
  - pose proof (identify_fresh_run now req w Hnf Hv Hm) as E. cbv zeta in E.
    rewrite E in *. cbn [fst snd] in *. injection Hrun as <-.
    split; [apply liveForest_fresh; exact Hf|].
    eexists _, [_]. split; [reflexivity|].
    split; [left; reflexivity|]. split; [reflexivity|].
    split; [repeat constructor; intros []|].
    pose proof (fresh_candidates now req w Hf Hv Hm) as Hc.
    pose proof (fresh_roots now req w Hm) as Hr.
    pose proof (fresh_matches_nonempty now req w Hv) as Hne.
    split; [|split; [exact Hc|split; [apply fresh_nothing_new; auto|split; auto]]].
    intros c. rewrite <- Hc. apply settled_candidates; auto.
  - assert (matchesOf req (rows w) <> []) as Hne by (rewrite Hm; discriminate).
    clear Hm.
    pose proof (live_match_has_primary req w Hf Hne) as Hp.
    destruct (primariesOf (candidatesOf req (rows w))) as [|t others] eqn:Ep; [congruence|].
    destruct (identify_cluster_run now req w t others Hnf Hv Hne Ep) as (t' & Ht' & E).
    rewrite E in *. cbn [fst snd] in *. injection Hrun as <-.
    pose proof (liveForest_after now req w t others Hwf Ep Hf) as Hf'.
    split; [exact Hf'|].
    destruct (liveForest_elim _ Hf') as (Hnd' & _ & _).
    apply find_hasId_id in Ht'. destruct Ht' as [Hid Hin].
    pose proof (members_after now req w t others Hf Hne Ep) as Hmem.
    assert (t' = t) as ->.
    { apply (same_id_same_row (rows (worldAfter now req w t others))); auto.
      - apply Hmem. exact Hin.
      - apply truePrimary_in_after; auto. }
    exists t, (membersOf now req w t others).
    split; [reflexivity|]. split; [exact Hin|].
    split; [apply (primaries_in_rows req w t others Ep t); left; reflexivity|].
    split; [apply members_ids_NoDup; auto|].
    split; [exact Hmem|].
    split; [apply candidates_after; auto|].
    split; [apply nothing_new_after; auto|].
    split; [apply matches_after_nonempty; auto|apply matches_after; auto].
Qed.

Lemma root_member tid m :
  notDeleted m = true -> rootId m = Some tid -> membersWhere tid m = true.
Proof.
  intros Hl Hr. unfold membersWhere, rootId, linkIs in *. rewrite Hl. simpl.
  destruct (Contact.linkPrecedence m).
  - injection Hr as ->. rewrite Z.eqb_refl. reflexivity.
  - rewrite Hr, Z.eqb_refl. apply orb_true_r.
Qed.

(** When every match has the same root and the request brings nothing new,
    each truthy identifier of the request is held by a candidate. *)
Lemma settled_request_present req w t :
  matchesOf req (rows w) <> [] ->
  (forall m, In m (matchesOf req (rows w)) -> rootId m = Some (Contact.id t)) ->
  createsSecondary (IdentifyRequest.email req) (IdentifyRequest.phoneNumber req)
                   (candidatesOf req (rows w)) = false ->
  (truthy (IdentifyRequest.email req) = true ->
   In (IdentifyRequest.email req) (map Contact.email (candidatesOf req (rows w)))) /\
  (truthy (IdentifyRequest.phoneNumber req) = true ->
   In (IdentifyRequest.phoneNumber req)
      (map Contact.phoneNumber (candidatesOf req (rows w)))).
Proof.
  intros Hne Hroots Hcs.
  destruct (matchesOf req (rows w)) as [|m ms] eqn:Em; [congruence|].
  assert (In m (matchesOf req (rows w))) as Hin by (rewrite Em; left; auto).
  rewrite <- Em in Hroots, Hne. clear Em ms.
  pose proof (Hroots m Hin) as Hroot.
  apply matchesOf_In in Hin. destruct Hin as [Hrow Hmw].
  pose proof (matchingWhere_live _ _ _ Hmw) as Hlive.
  assert (In m (candidatesOf req (rows w))) as Hcand.
  { apply (settled_candidates req w t Hne Hroots). split; auto.
    apply root_member; auto. }
  pose proof (proj1 (createsSecondary_false _ _ _) Hcs) as Hboth.
  unfold matchingWhere, matchingOR in Hmw. rewrite Hlive in Hmw. simpl in Hmw.
  destruct (truthy (IdentifyRequest.email req)) eqn:He,
           (truthy (IdentifyRequest.phoneNumber req)) eqn:Hp;
    simpl in Hmw; try discriminate.
  - split; intros _; apply Hboth; auto.
  - split; [intros _|discriminate]. rewrite orb_false_r in Hmw.
    apply sameText_eq in Hmw. rewrite <- Hmw. apply in_map. exact Hcand.
  - split; [discriminate|intros _]. rewrite orb_false_r in Hmw.
    apply sameText_eq in Hmw. rewrite <- Hmw. apply in_map. exact Hcand.
Qed.

(** X9 (identifyContact, lines 137-147 and 180-181; buildResponse, lines
    184-220): in a forest without orphans, on a store that does not fail,
    the response describes the cluster of its primary as the table holds
    it after the call.  [primaryContactId] is the id of a live primary;
    [secondaryContactIds] are, each once, the ids of the other rows that
    the query of lines 139-145 selects for that primary; [emails] and
    [phoneNumbers] are the non-empty values of the rows it selects. *)
Theorem response_is_the_cluster_of_its_primary now req w resp :
  failAfter w = None ->
  liveForest w = true ->
  fst (identifyContact now req w) = inr resp ->
  let rs := rows (snd (identifyContact now req w)) in
  let pid := IdentifyResponse.primaryContactId resp in
  livePrimaryAt rs pid = true /\
  (forall i, In i (IdentifyResponse.secondaryContactIds resp) <->
     i <> pid /\
     exists c, In c rs /\ membersWhere pid c = true /\ Contact.id c = i) /\
  NoDup (IdentifyResponse.secondaryContactIds resp) /\
  (forall x, In x (IdentifyResponse.emails resp) <->
     exists c, In c rs /\ membersWhere pid c = true /\
               Contact.email c = Some x /\ x <> EmptyString) /\
  (forall x, In x (IdentifyResponse.phoneNumbers resp) <->
     exists c, In c rs /\ membersWhere pid c = true /\
               Contact.phoneNumber c = Some x /\ x <> EmptyString).
Proof.
  intros Hnf Hf Hrun rs pid.
  destruct (identify_settles now req w resp Hnf Hf Hrun)
    as (Hf' & t & members & -> & Ht & Hp & Hnd & Hmem & _).
  destruct (liveForest_elim _ Hf') as (_ & _ & Hwl).
  subst rs pid. cbn [responseOf IdentifyResponse.primaryContactId
    IdentifyResponse.secondaryContactIds IdentifyResponse.emails
    IdentifyResponse.phoneNumbers].
  split; [|split; [|split; [|split]]].
  - apply livePrimaryAt_iff. exists t. destruct (proj1 (Hmem t) Ht) as [Hrow Hmw].
    unfold membersWhere in Hmw. apply andb_true_iff in Hmw. tauto.
  - intros i. rewrite (secondaries_In _ t members i Hwl Hnd Hmem Ht Hp).
    split; intros (Hne & c & H); split; auto; exists c.
    + destruct H as [Hc Hid]. apply Hmem in Hc. tauto.
    + destruct H as (Hc & Hmw & Hid). split; auto. apply Hmem. auto.
  - apply NoDup_map_filter. exact Hnd.
  - intros x. rewrite (responseOf_In Contact.email t members x Hnd Ht).
    split; intros (c & H); exists c.
    + destruct H as (Hc & Hx). apply Hmem in Hc. tauto.
    + destruct H as (Hc & Hmw & Hx). split; auto. apply Hmem. auto.
  - intros x. rewrite (responseOf_In Contact.phoneNumber t members x Hnd Ht).
    split; intros (c & H); exists c.
    + destruct H as (Hc & Hx). apply Hmem in Hc. tauto.
    + destruct H as (Hc & Hmw & Hx). split; auto. apply Hmem. auto.
Qed.

Lemma response_is_the_cluster_witness :
  let p1 := Contact.mk 1 (Some "a@x.com"%string) (Some "111"%string) None primary 10 10 None in
  let p2 := Contact.mk 2 (Some "b@x.com"%string) (Some "222"%string) None primary 20 20 None in
  let s3 := Contact.mk 3 (Some "c@x.com"%string) (Some "222"%string) (Some 2) secondary 25 25 None in
  let p4 := Contact.mk 4 (Some "d@x.com"%string) (Some "444"%string) None primary 28 28 None in
  let w := mkWorld [p1; p2; s3; p4] 5 [] None in
  let req := IdentifyRequest.mk (Some "a@x.com"%string) (Some "222"%string) in
  let resp := IdentifyResponse.mk 1 ["a@x.com"%string; "b@x.com"%string; "c@x.com"%string]
                                  ["111"%string; "222"%string] [2; 3] in
  liveForest w = true /\
  fst (identifyContact 30 req w) = inr resp /\
  forall i, In i (IdentifyResponse.secondaryContactIds resp) <->
     i <> 1 /\
     exists c, In c (rows (snd (identifyContact 30 req w))) /\
               membersWhere 1 c = true /\ Contact.id c = i.
Proof.
  intros p1 p2 s3 p4 w req resp. split; [reflexivity|]. split; [reflexivity|].
  apply (response_is_the_cluster_of_its_primary 30 req w resp); reflexivity.
Defined.

(** X10 (identifyContact, lines 50-59 and 158-177; buildResponse, lines
    199-217): in a forest without orphans, on a store that does not fail,
    the response to a request lists every truthy identifier of the request:
    the identifier is held by a member, or the call has created the
    secondary that holds it. *)
Theorem response_lists_the_request now req w resp :
  failAfter w = None ->
  liveForest w = true ->
  fst (identifyContact now req w) = inr resp ->
  (forall x, IdentifyRequest.email req = Some x -> x <> EmptyString ->
             In x (IdentifyResponse.emails resp)) /\
  (forall x, IdentifyRequest.phoneNumber req = Some x -> x <> EmptyString ->
             In x (IdentifyResponse.phoneNumbers resp)).
Proof.
  intros Hnf Hf Hrun.
  destruct (identify_settles now req w resp Hnf Hf Hrun)
    as (_ & t & members & -> & Ht & _ & Hnd & _ & Hcand & Hcs & Hne & Hroots).
  destruct (settled_request_present req _ t Hne Hroots Hcs) as [He Hp].
  cbn [responseOf IdentifyResponse.emails IdentifyResponse.phoneNumbers].
  split; intros x Ex Hx.
  - apply (responseOf_In Contact.email t members x Hnd Ht).
    rewrite Ex in He. apply in_map_iff in He.
    + destruct He as (c & Ec & Hc). exists c. split; [apply Hcand; exact Hc|auto].
    + simpl. destruct (String.eqb_spec x EmptyString); [contradiction|reflexivity].
  - apply (responseOf_In Contact.phoneNumber t members x Hnd Ht).
    rewrite Ex in Hp. apply in_map_iff in Hp.
    + destruct Hp as (c & Ec & Hc). exists c. split; [apply Hcand; exact Hc|auto].
    + simpl. destruct (String.eqb_spec x EmptyString); [contradiction|reflexivity].
Qed.

Lemma response_lists_the_request_witness :
  let p1 := Contact.mk 1 (Some "a@x.com"%string) (Some "111"%string) None primary 10 10 None in
  let w := mkWorld [p1] 2 [] None in
  let req := IdentifyRequest.mk (Some "b@x.com"%string) (Some "111"%string) in
  let resp := IdentifyResponse.mk 1 ["a@x.com"%string; "b@x.com"%string] ["111"%string] [2] in
  liveForest w = true /\
  fst (identifyContact 30 req w) = inr resp /\
  In "b@x.com"%string (IdentifyResponse.emails resp) /\
  In "111"%string (IdentifyResponse.phoneNumbers resp).
Proof.
  intros p1 w req resp. split; [reflexivity|]. split; [reflexivity|].
  destruct (response_lists_the_request 30 req w resp eq_refl eq_refl eq_refl) as [He Hp].
  split; [apply (He "b@x.com"%string)|apply (Hp "111"%string)];
    try reflexivity; discriminate.
Defined.

(** ** What a call writes *)

(** X11 (identifyContact, lines 111, 164-167 and 180-181): on a store that
    does not fail, in a table where every live secondary holds a link, when
    the candidates hold one primary only and the request brings no new
    pairing, the call only reads: the table and the counter
    are as they were, and the store has served the two [findMany] of steps 1
    and 3 and nothing else. *)
Theorem known_request_only_reads now req w :
  failAfter w = None ->
  secondariesLinked w = true ->
  matchesOf req (rows w) <> [] ->
  length (primariesOf (candidatesOf req (rows w))) = 1%nat ->
  createsSecondary (IdentifyRequest.email req) (IdentifyRequest.phoneNumber req)
                   (candidatesOf req (rows w)) = false ->
  (exists resp, fst (identifyContact now req w) = inr resp) /\
  rows (snd (identifyContact now req w)) = rows w /\
  nextId (snd (identifyContact now req w)) = nextId w /\
  log (snd (identifyContact now req w)) = CallFindMany :: CallFindMany :: log w.
Proof.
  intros Hnf _ Hne Hlen Hcs.
  pose proof (matches_valid req (rows w) Hne) as Hv.
  destruct (primariesOf (candidatesOf req (rows w))) as [|t [|o os]] eqn:Ep;
    try discriminate.
  destruct (identify_cluster_run now req w t [] Hnf Hv Hne Ep) as (t' & _ & ->).
  cbn [fst snd]. unfold worldAfter, createsFor. cbn [clusterOf]. rewrite Hcs.
  cbn [rows nextId log resolveCalls app mergeRows fold_left]. eauto.
Qed.

Lemma known_request_only_reads_witness :
  let p1 := Contact.mk 1 (Some "a@x.com"%string) (Some "111"%string) None primary 10 10 None in
  let s2 := Contact.mk 2 (Some "b@x.com"%string) (Some "111"%string) (Some 1) secondary 20 20 None in
  let w := mkWorld [p1; s2] 3 [] None in
  let req := IdentifyRequest.mk (Some "b@x.com"%string) (Some "111"%string) in
  secondariesLinked w = true /\
  matchesOf req (rows w) = [p1; s2] /\
  rows (snd (identifyContact 30 req w)) = rows w /\
  log (snd (identifyContact 30 req w)) = [CallFindMany; CallFindMany].
Proof.
  intros p1 s2 w req. split; [reflexivity|]. split; [reflexivity|].
  destruct (known_request_only_reads 30 req w) as (_ & Hr & _ & Hl);
    try reflexivity; [discriminate|]. split; assumption.
Defined.

(** X12 (identifyContact, lines 113-135 and 167-177): the table after an
    answered call, row by row, when ids are distinct, every live secondary
    holds a link and the store does not fail.  Each of the other primaries is demoted; each live row linked to
    one of them is re-linked; every other row, the true primary among them,
    is left as it was, [updatedAt] included; and the only row added is the
    new secondary, at the end. *)
Theorem table_after_an_answered_call now req w t others :
  failAfter w = None ->
  distinctIds (map Contact.id (rows w)) = true ->
  secondariesLinked w = true ->
  matchesOf req (rows w) <> [] ->
  primariesOf (candidatesOf req (rows w)) = t :: others ->
  rows (snd (identifyContact now req w)) =
  map (fun c =>
         if isOther others (Contact.id c) then demote (Contact.id t) now c
         else if linksToOther others c then relink (Contact.id t) now c
         else c) (rows w) ++
  (if createsFor now req w t others then [secondaryFor now req w t] else []).
Proof.
  intros Hnf Hd _ Hne Hp.
  pose proof (matches_valid req (rows w) Hne) as Hv.
  apply distinctIds_NoDup in Hd.
  pose proof (truePrimary_not_other req (rows w) t others Hd Hp) as Ht.
  destruct (identify_cluster_run now req w t others Hnf Hv Hne Hp) as (t' & _ & ->).
  cbn [snd]. unfold worldAfter.
  rewrite mergeRows_map.
  rewrite (map_ext _ _ (fun c => mergeOne_closed now (Contact.id t) others c Ht)).
  destruct (createsFor now req w t others); cbn [rows]; [reflexivity|].
  rewrite app_nil_r. reflexivity.
Qed.

Lemma table_after_an_answered_call_witness :
  let p1 := Contact.mk 1 (Some "a@x.com"%string) (Some "111"%string) None primary 10 10 None in
  let p2 := Contact.mk 2 (Some "b@x.com"%string) (Some "222"%string) None primary 20 20 None in
  let s3 := Contact.mk 3 (Some "c@x.com"%string) (Some "222"%string) (Some 2) secondary 25 25 None in
  let p4 := Contact.mk 4 (Some "d@x.com"%string) (Some "444"%string) None primary 28 28 None in
  let w := mkWorld [p1; p2; s3; p4] 5 [] None in
  let req := IdentifyRequest.mk (Some "a@x.com"%string) (Some "222"%string) in
  secondariesLinked w = true /\
  primariesOf (candidatesOf req (rows w)) = [p1; p2] /\
  rows (snd (identifyContact 30 req w)) = [p1; demote 1 30 p2; relink 1 30 s3; p4].
Proof.
  intros p1 p2 s3 p4 w req. split; [reflexivity|]. split; [reflexivity|].
  rewrite (table_after_an_answered_call 30 req w p1 [p2]); try reflexivity.
  discriminate.
Defined.

(** The members that the response is built from are live rows of the table
    after the call. *)
Lemma members_live now req w t others c :
  In c (membersOf now req w t others) ->
  In c (rows (worldAfter now req w t others)) /\ notDeleted c = true.
Proof.
  assert (forall x, In x (clusterOf now req (rows w) t others) ->
            In x (mergeRows now (Contact.id t) others (rows w)) /\ notDeleted x = true)
    as Hcl.
  { intros x Hx. destruct others as [|o os]; cbn [clusterOf] in Hx.
    - apply candidatesOf_In in Hx. exact Hx.
    - apply selectRows_In in Hx. destruct Hx as [Hx Hmw]. split; auto.
      unfold membersWhere in Hmw. apply andb_true_iff in Hmw. tauto. }
  unfold membersOf, worldAfter. destruct (createsFor now req w t others); cbn [rows].
  - intros H. apply in_app_or in H. destruct H as [H|[<-|[]]].
    + destruct (Hcl c H). split; auto. apply in_or_app. auto.
    + split; [apply in_or_app; right; left|]; reflexivity.
  - apply Hcl.
Qed.

(** X13 (identifyContact, lines 52, 91 and 140, the [deletedAt: null] of
    the three reads; buildResponse, lines 184-220): on a store that does not
    fail, in any table where every live secondary holds a link, forest or
    not, whatever the response lists comes from a row that is live in the
    table after the call: each email and
    each phone number is the value of a non-deleted contact, and each id
    of [secondaryContactIds] is the id of a non-deleted secondary. *)
Theorem response_comes_from_live_rows now req w resp :
  failAfter w = None ->
  secondariesLinked w = true ->
  fst (identifyContact now req w) = inr resp ->
  let rs := rows (snd (identifyContact now req w)) in
  (forall x, In x (IdentifyResponse.emails resp) ->
     exists c, In c rs /\ notDeleted c = true /\ Contact.email c = Some x) /\
  (forall x, In x (IdentifyResponse.phoneNumbers resp) ->
     exists c, In c rs /\ notDeleted c = true /\ Contact.phoneNumber c = Some x) /\
  (forall i, In i (IdentifyResponse.secondaryContactIds resp) ->
     exists c, In c rs /\ notDeleted c = true /\ Contact.id c = i /\
               Contact.linkPrecedence c = secondary).
Proof.
  intros Hnf _ Hrun rs.
  assert (validRequest req = true) as Hv.
  { destruct (identifyContact now req w) as [r w'] eqn:E. simpl in Hrun. subst r.
    eapply identify_inr_valid; eauto. }
  assert (exists t members,
            resp = responseOf t members /\ In t members /\
            forall c, In c members -> In c rs /\ notDeleted c = true)
    as (t & members & -> & Ht & Hmem).
  { subst rs. destruct (matchesOf req (rows w)) as [|m ms] eqn:Hm.
    - pose proof (identify_fresh_run now req w Hnf Hv Hm) as E. cbv zeta in E.
      rewrite E in *. cbn [fst snd rows] in *. injection Hrun as <-.
      eexists _, [_]. split; [reflexivity|]. split; [left; reflexivity|].
      intros c [<-|[]]. split; [apply in_or_app; right; left|]; reflexivity.
    - assert (matchesOf req (rows w) <> []) as Hne by (rewrite Hm; discriminate).
      destruct (primariesOf (candidatesOf req (rows w))) as [|t others] eqn:Ep.
      + rewrite (identify_inconsistent_run now req w Hnf Hv Hne Ep) in Hrun.
        discriminate.
      + destruct (identify_cluster_run now req w t others Hnf Hv Hne Ep)
          as (t' & Ht' & E).
        rewrite E in *. cbn [fst snd] in *. injection Hrun as <-.
        apply find_hasId_id in Ht'. destruct Ht' as [_ Hin].
        exists t', (membersOf now req w t others).
        split; [reflexivity|]. split; [exact Hin|]. apply members_live. }
  cbn [responseOf IdentifyResponse.emails IdentifyResponse.phoneNumbers
       IdentifyResponse.secondaryContactIds].
  assert (forall c, In c (t :: restOf (Contact.id t) members) ->
            In c rs /\ notDeleted c = true) as Hall.
  { intros c [<-|Hc]; [auto|]. apply restOf_In in Hc. apply Hmem. tauto. }
  split; [|split].
  - intros x Hx. apply collect_In in Hx. destruct Hx as (c & Hc & Ex & _).
    destruct (Hall c Hc). eauto.
  - intros x Hx. apply collect_In in Hx. destruct Hx as (c & Hc & Ex & _).
    destruct (Hall c Hc). eauto.
  - intros i Hi. apply in_map_iff in Hi. destruct Hi as (c & <- & Hc).
    apply filter_In in Hc. destruct Hc as [Hc Hs]. destruct (Hmem c Hc).
    exists c. repeat split; auto. unfold isSecondary in Hs.
    destruct (Contact.linkPrecedence c); [discriminate|reflexivity].
Qed.

Lemma response_comes_from_live_rows_witness :
  let p1 := Contact.mk 1 (Some "a@x.com"%string) (Some "111"%string) None primary 10 10 None in
  let d2 := Contact.mk 2 (Some "b@x.com"%string) (Some "111"%string) (Some 1) secondary 20 20 (Some 25) in
  let w := mkWorld [p1; d2] 3 [] None in
  let req := IdentifyRequest.mk None (Some "111"%string) in
  let resp := IdentifyResponse.mk 1 ["a@x.com"%string] ["111"%string] [] in
  secondariesLinked w = true /\
  fst (identifyContact 30 req w) = inr resp /\
  forall x, In x (IdentifyResponse.emails resp) ->
     exists c, In c (rows (snd (identifyContact 30 req w))) /\
               notDeleted c = true /\ Contact.email c = Some x.
Proof.
  intros p1 d2 w req resp. split; [reflexivity|]. split; [reflexivity|].
  apply (response_comes_from_live_rows 30 req w resp); reflexivity.
Defined.

(** ** The order of the primaries *)

Lemma insertByCreatedAt_sorted x l :
  StronglySorted (fun a b => Contact.createdAt a <= Contact.createdAt b) l ->
  StronglySorted (fun a b => Contact.createdAt a <= Contact.createdAt b)
                 (insertByCreatedAt x l).
Proof.
  induction 1 as [|y l Hl IH Hy]; simpl.
  - repeat constructor.
  - destruct (Z.leb_spec (Contact.createdAt x) (Contact.createdAt y)) as [Hle|Hgt].
    + constructor; [constructor; auto|]. constructor; auto.
      eapply Forall_impl; [|exact Hy]. simpl. intros; lia.
    + constructor; auto. apply Forall_forall. intros z Hz.
      apply insertByCreatedAt_In in Hz. destruct Hz as [->|Hz]; [lia|].
      rewrite Forall_forall in Hy. auto.
Qed.

Lemma sortByCreatedAt_sorted l :
  StronglySorted (fun a b => Contact.createdAt a <= Contact.createdAt b)
                 (sortByCreatedAt l).
Proof.
  induction l as [|x l IH]; simpl; [constructor|].
  apply insertByCreatedAt_sorted. exact IH.
Qed.

Lemma sortByCreatedAt_of_sorted l :
  StronglySorted (fun a b => Contact.createdAt a <= Contact.createdAt b) l ->
  sortByCreatedAt l = l.
Proof.
  induction 1 as [|x l Hl IH Hx]; simpl; [reflexivity|].
  rewrite IH. destruct l as [|y l']; simpl; [reflexivity|].
  inversion Hx as [|? ? Hxy _]; subst.
  destruct (Z.leb_spec (Contact.createdAt x) (Contact.createdAt y)); [reflexivity|lia].
Qed.

(** X14 (identifyContact, lines 89-106): the list that [findMany] returns
    is in ascending order of [createdAt] (line 97), so the primaries
    filtered out of it are in that order already: the [sort] of line 104
    leaves the list as it is, and [primaries[0]] is the first primary of
    the fetched list. *)
Theorem primaries_are_sorted_as_fetched where_ rs :
  primariesOf (selectRows where_ rs) = filter isPrimary (selectRows where_ rs) /\
  StronglySorted (fun a b => Contact.createdAt a <= Contact.createdAt b)
                 (primariesOf (selectRows where_ rs)) /\
  hd_error (primariesOf (selectRows where_ rs)) =
  find isPrimary (selectRows where_ rs).
Proof.
  assert (primariesOf (selectRows where_ rs) = filter isPrimary (selectRows where_ rs))
    as E.
  { unfold primariesOf. apply sortByCreatedAt_of_sorted.
    apply StronglySorted_filter. unfold selectRows. apply sortByCreatedAt_sorted. }
  split; [exact E|]. split.
  - unfold primariesOf. apply sortByCreatedAt_sorted.
  - rewrite E. generalize (selectRows where_ rs). intros l.
    induction l as [|c l IH]; simpl; [reflexivity|].
    destruct (isPrimary c); simpl; auto.
Qed.


(** ** The route POST /identify *)

(** The two ways of the handler: it rejects the body without a call, or it
    sends what [identifyContact] returns or throws. *)
Lemma postIdentify_cases identify email phoneNumber w :
  (((jsTruthy email = false /\ jsTruthy phoneNumber = false) \/
    email = JsOther true \/ phoneNumber = JsOther true) /\
   exists message,
     forall identify', postIdentify identify' email phoneNumber w = (badRequest message, w)) \/
  (~ ((jsTruthy email = false /\ jsTruthy phoneNumber = false) \/
      email = JsOther true \/ phoneNumber = JsOther true) /\
   postIdentify identify email phoneNumber w =
   (respond (fst (identify (orNull email) (orNull phoneNumber) w)),
    snd (identify (orNull email) (orNull phoneNumber) w))).
Proof.
  unfold postIdentify.
  destruct (jsTruthy email) eqn:He, (jsTruthy phoneNumber) eqn:Hp; cbn [negb andb].
  - destruct email as [| |e|[|]]; try discriminate He; cbn [notString andb].
    + destruct phoneNumber as [| |p|[|]]; try discriminate Hp; cbn [notString andb].
      * right. split; [intros [[H _]|[H|H]]; discriminate|].
        destruct (identify _ _ w); reflexivity.
      * left. split; [auto|eauto].
    + left. split; [auto|eauto].
  - destruct email as [| |e|[|]]; try discriminate He; cbn [notString andb].
    + right. split.
      * intros [[H _]|[H|H]]; try discriminate. subst. discriminate.
      * destruct (identify _ _ w); reflexivity.
    + left. split; [auto|eauto].
  - destruct phoneNumber as [| |p|[|]]; try discriminate Hp; cbn [notString andb].
    + right. split.
      * intros [[_ H]|[H|H]]; try discriminate. subst. discriminate.
      * destruct (identify _ _ w); reflexivity.
    + left. split; [auto|eauto].
  - left. split; [auto|eauto].
Qed.

Lemma respond_status outcome : status (respond outcome) <> 400.
Proof. destruct outcome; simpl; discriminate. Qed.

(** X15 (app.ts, lines 16-35): the handler answers 400 exactly when no
    field of the body is truthy, or a field is truthy and not a string.
    A field that is falsy and not a string ([false], zero) is not rejected.
    A request answered with 400 never reaches [identifyContact]: the
    response does not depend on it, and the store is left as it was. *)
Theorem postIdentify_rejections identify email phoneNumber w :
  (status (fst (postIdentify identify email phoneNumber w)) = 400 <->
   (jsTruthy email = false /\ jsTruthy phoneNumber = false) \/
   email = JsOther true \/ phoneNumber = JsOther true) /\
  (status (fst (postIdentify identify email phoneNumber w)) = 400 ->
   snd (postIdentify identify email phoneNumber w) = w /\
   forall identify',
     postIdentify identify' email phoneNumber w =
     postIdentify identify email phoneNumber w).
Proof.
  destruct (postIdentify_cases identify email phoneNumber w)
    as [[Hrej [message Hm]]|[Hacc E]].
  - rewrite (Hm identify). cbn [fst snd badRequest status]. split.
    + split; auto.
    + intros _. split; auto.
  - rewrite E. cbn [fst snd]. split.
    + split; [|contradiction]. intros H. exfalso. eapply respond_status; eauto.
    + intros H. exfalso. eapply respond_status; eauto.
Qed.

Lemma textOf_orNull v : textOf (orNull v) = textOf v.
Proof. destruct v; reflexivity. Qed.

Lemma isText_orNull v : isText (orNull v) = isText v.
Proof. destruct v; reflexivity. Qed.

Lemma jsTruthy_text v : isText v = true -> jsTruthy v = truthy (textOf v).
Proof. destruct v; simpl; auto. discriminate. Qed.

Lemma text_passes v : isText v = true -> jsTruthy v && notString v = false.
Proof. destruct v; simpl; auto using andb_false_r. discriminate. Qed.

(** The handler on a body whose fields are of the declared type. *)
Lemma postIdentify_text now identify email phoneNumber w :
  runsIdentifyContact now identify ->
  isText email = true -> isText phoneNumber = true ->
  postIdentify identify email phoneNumber w =
  if validRequest (IdentifyRequest.mk (textOf email) (textOf phoneNumber))
  then (respond (fst (identifyContact now
                        (IdentifyRequest.mk (textOf email) (textOf phoneNumber)) w)),
        snd (identifyContact now
               (IdentifyRequest.mk (textOf email) (textOf phoneNumber)) w))
  else (badRequest "At least one of 'email' or 'phoneNumber' must be provided"%string, w).
Proof.
  intros Hid He Hp. unfold postIdentify, validRequest.
  cbn [IdentifyRequest.email IdentifyRequest.phoneNumber].
  rewrite (Hid (orNull email) (orNull phoneNumber) w)
    by (rewrite isText_orNull; assumption).
  rewrite !textOf_orNull, (text_passes email He), (text_passes phoneNumber Hp).
  rewrite (jsTruthy_text email He), (jsTruthy_text phoneNumber Hp).
  destruct (identifyContact now _ w) as [r w'].
  destruct (truthy (textOf email)), (truthy (textOf phoneNumber)); reflexivity.
Qed.


(** ** The errors of a run *)

Lemma findMany_rows where_ w l w' :
  findMany where_ w = (inr l, w') ->
  rows w' = rows w /\ l = selectRows where_ (rows w).
Proof.
  unfold findMany. destruct (serve w) as [w1|] eqn:E; [|discriminate].
  intros H. injection H as <- <-. destruct (serve_sameRecords _ _ E) as (-> & _).
  auto.
Qed.

Lemma findMany_fails where_ w e w' :
  findMany where_ w = (inl e, w') -> e = StoreFailure.
Proof.
  unfold findMany. destruct (serve w); [discriminate|].
  intros H. injection H as <- _. reflexivity.
Qed.

Lemma create_fails now em ph l lp w e w' :
  create now em ph l lp w = (inl e, w') -> e = StoreFailure.
Proof.
  unfold create. destruct (serve w); [discriminate|].
  intros H. injection H as <- _. reflexivity.
Qed.

(** [update] on the id of a row of the table fails only when the store
    rejects the call. *)
Lemma update_fails i data w e w' :
  In i (map Contact.id (rows w)) ->
  update i data w = (inl e, w') -> e = StoreFailure.
Proof.
  intros Hin. unfold update. destruct (serve w) as [w1|] eqn:E.
  - destruct (serve_sameRecords _ _ E) as (Hr & _).
    assert (existsb (hasId i) (rows w1) = true) as ->; [|discriminate].
    rewrite Hr. apply in_map_iff in Hin. destruct Hin as (c & Ec & Hc).
    apply existsb_exists. exists c. split; auto. unfold hasId. apply Z.eqb_eq. exact Ec.
  - intros H. injection H as <- _. reflexivity.
Qed.

Lemma updateMany_fails linked data w e w' :
  updateMany linked data w = (inl e, w') -> e = StoreFailure.
Proof.
  unfold updateMany. destruct (serve w); [discriminate|].
  intros H. injection H as <- _. reflexivity.
Qed.

(** The loop of step 5 over rows of the table fails only when the store
    rejects a call. *)
Lemma forEach_demoteAndRelink_fails now t others w e w' :
  (forall o, In o others -> In (Contact.id o) (map Contact.id (rows w))) ->
  forEach others (demoteAndRelink now (Some t)) w = (inl e, w') -> e = StoreFailure.
Proof.
  revert w. induction others as [|o os IH]; intros w Hin H; simpl in H.
  - discriminate.
  - unfold bind at 1 in H.
    destruct (demoteAndRelink now (Some t) o w) as [[e1|[]] w1] eqn:E1.
    + injection H as <- _. unfold demoteAndRelink in E1. cbn [idOf] in E1.
      unfold bind at 1, ret at 1 in E1. unfold bind at 1 in E1.
      destruct (update (Contact.id o) (demote (Contact.id t) now) w)
        as [[e2|[]] w2] eqn:E2.
      * injection E1 as <- _. eapply update_fails; [|exact E2]. apply Hin. left; auto.
      * unfold bind at 1, ret at 1 in E1. eapply updateMany_fails; eauto.
    + apply (IH w1); auto. intros o' Ho'.
      destruct (demoteAndRelink_any _ _ _ _ _ _ E1) as [_ ->]. apply Hin. right; auto.
Qed.

(** The errors of any run, whether or not the store fails. *)
Lemma identify_errors now req w e w' :
  identifyContact now req w = (inl e, w') ->
  (e = Error invalidRequestMessage /\ validRequest req = false) \/
  e = StoreFailure \/
  (e = TypeError /\ matchesOf req (rows w) <> [] /\
   primariesOf (candidatesOf req (rows w)) = []).
Proof.
  intros H. destruct (validRequest req) eqn:Hv.
  2:{ rewrite (identify_invalid_run now req w Hv) in H. injection H as <- _. auto. }
  right. unfold identifyContact in H. rewrite (guard_valid _ Hv) in H.
  bind_step H ms w1 E1.
  { left. eapply findMany_fails; eauto. }
  destruct (findMany_rows _ _ _ _ E1) as [Hr1 Hms].
  fold (matchesOf req (rows w)) in Hms.
  rewrite length_eqb_0 in H. destruct ms as [|m ms'].
  - bind_step H c w2 E2.
    { left. eapply create_fails; eauto. }
    destruct (create_appends _ _ _ _ _ _ _ _ E2) as [[? _]|(Hc & _)]; [discriminate|].
    injection Hc as ->.
    rewrite (buildResponse_run _ _ _ (newRow (nextId w1) now (IdentifyRequest.email req)
                                             (IdentifyRequest.phoneNumber req) None primary))
      in H by (simpl; unfold hasId; simpl; rewrite Z.eqb_refl; reflexivity).
    discriminate.
  - assert (matchesOf req (rows w) <> []) as Hne by (rewrite <- Hms; discriminate).
    bind_step H cands w2 E2.
    { left. eapply findMany_fails; eauto. }
    destruct (findMany_rows _ _ _ _ E2) as [Hr2 Hcands].
    rewrite Hms, Hr1 in Hcands. fold (candidatesOf req (rows w)) in Hcands.
    assert (forall c, In c cands -> In c (rows w2) /\ notDeleted c = true) as Hc.
    { intros c Hin. rewrite Hcands in Hin. apply candidatesOf_In in Hin.
      rewrite Hr2, Hr1. exact Hin. }
    clear E1 E2.
    destruct (primariesOf cands) as [|t others] eqn:Ep; cbn [hd_error tl] in H.
    + right. cbn [length Nat.ltb Nat.leb] in H. unfold bind at 1, ret at 1 in H.
      rewrite <- Hcands.
      destruct (createsSecondary _ _ cands); cbn [idOf] in H;
        unfold bind, throw, ret in H; injection H as <- _; auto.
    + left.
      assert (In t cands) as Hin.
      { apply (proj1 (primariesOf_In t cands)). rewrite Ep. left; auto. }
      bind_step H members w3 E3.
      { destruct (0 <? length others)%nat; [|discriminate].
        bind_step E3 u w4 E4.
        - eapply forEach_demoteAndRelink_fails; [|exact E4].
          intros o Ho. apply in_map. apply Hc.
          apply (proj1 (primariesOf_In o cands)). rewrite Ep. right; auto.
        - cbn [idOf] in E3. unfold bind at 1, ret at 1 in E3.
          eapply findMany_fails; eauto. }
      destruct (resolve_keeps _ _ _ _ _ _ _ Hin Hc E3) as [_ Hmem].
      destruct (Hmem members eq_refl) as (c0 & Hc0 & Hid0).
      clear E3 Hmem.
      bind_step H members2 w4 E4.
      { destruct (createsSecondary _ _ members); [|discriminate].
        cbn [idOf] in E4. unfold bind at 1, ret at 1 in E4.
        bind_step E4 c w5 E5; [|discriminate]. eapply create_fails; eauto. }
      assert (In c0 members2) as Hc2.
      { destruct (createsSecondary _ _ members).
        - cbn [idOf] in E4. unfold bind at 1, ret at 1 in E4.
          bind_step E4 c w5 E5. injection E4 as <- _. apply in_or_app. auto.
        - injection E4 as <- _. exact Hc0. }
      cbn [idOf] in H. unfold bind at 1, ret at 1 in H.
      destruct (find_hasId_some (Contact.id t) members2 c0 Hc2 Hid0) as [t' Ht'].
      rewrite (buildResponse_run _ _ _ t' _ Ht') in H. discriminate.
Qed.

Lemma valid_error_not_guard now req w :
  validRequest req = true ->
  forall e, fst (identifyContact now req w) = inl e ->
            e = TypeError \/ e = StoreFailure \/ e = RecordNotFound.
Proof.
  intros Hv e H. destruct (identifyContact now req w) as [r w'] eqn:E.
  simpl in H. subst r.
  destruct (identify_errors _ _ _ _ _ E) as [[_ Hf]|[->|[-> _]]]; [congruence|auto|auto].
Qed.

(** X16 (identifyContact, lines 40-182; buildResponse, line 195): the
    errors of a call, whether or not the store fails, in any table where
    every live secondary holds a link.  A call throws the error of line 46, and then no identifier is
    truthy; or the error of a store call that the store rejected; or a
    TypeError, and then something matches and the candidates hold no
    primary.  Nothing else: the [update] of line 115 never misses its row,
    and the [find] of line 195 never misses the primary. *)
Theorem errors_of_a_call now req w e :
  secondariesLinked w = true ->
  fst (identifyContact now req w) = inl e ->
  (e = Error invalidRequestMessage /\ validRequest req = false) \/
  e = StoreFailure \/
  (e = TypeError /\ matchesOf req (rows w) <> [] /\
   primariesOf (candidatesOf req (rows w)) = []).
Proof.
  intros _ H. destruct (identifyContact now req w) as [r w'] eqn:E.
  simpl in H. subst r. eapply identify_errors; eauto.
Qed.

Lemma errors_of_a_call_witness :
  let p1 := Contact.mk 1 (Some "a@x.com"%string) (Some "111"%string) None primary 10 10 None in
  let p2 := Contact.mk 2 (Some "b@x.com"%string) (Some "222"%string) None primary 20 20 None in
  let w := mkWorld [p1; p2] 3 [] (Some 2%nat) in
  let req := IdentifyRequest.mk (Some "a@x.com"%string) (Some "222"%string) in
  secondariesLinked w = true /\
  fst (identifyContact 30 req w) = inl StoreFailure /\
  ((StoreFailure = Error invalidRequestMessage /\ validRequest req = false) \/
   StoreFailure = StoreFailure \/
   (StoreFailure = TypeError /\ matchesOf req (rows w) <> [] /\
    primariesOf (candidatesOf req (rows w)) = [])).
Proof.
  intros p1 p2 w req. split; [reflexivity|]. split; [reflexivity|].
  apply (errors_of_a_call 30 req w StoreFailure); reflexivity.
Defined.

(** ** The route and the service together *)

(** X17 (app.ts, lines 16-45 and 49-52, over identifyContact): on a body
    whose fields are strings, null or absent, the handler answers 400
    exactly when [identifyContact] would throw the error of its own guard,
    and then does not call it; otherwise it sends with status 200 what
    [identifyContact] returns, or with status 500 what it throws, and
    leaves the store as [identifyContact] leaves it.  The guard of line 45
    of identifyService.ts never fires for a request that comes through
    this route. *)
Theorem postIdentify_on_text_fields now identify email phoneNumber w :
  runsIdentifyContact now identify ->
  isText email = true -> isText phoneNumber = true ->
  let req := IdentifyRequest.mk (textOf email) (textOf phoneNumber) in
  let answer := postIdentify identify email phoneNumber w in
  match body (fst answer) with
  | ErrorBody _ _ =>
      status (fst answer) = 400 /\ validRequest req = false /\ snd answer = w
  | ContactBody result =>
      status (fst answer) = 200 /\ validRequest req = true /\
      identifyContact now req w = (inr result, snd answer)
  | ThrownBody _ err =>
      status (fst answer) = 500 /\ validRequest req = true /\
      identifyContact now req w = (inl err, snd answer) /\
      forall message, err <> Error message
  end.
Proof.
  intros Hid He Hp req answer. subst answer.
  rewrite (postIdentify_text now identify email phoneNumber w Hid He Hp).
  fold req. destruct (validRequest req) eqn:Hv.
  - cbn [fst snd].
    pose proof (valid_error_not_guard now req w Hv) as Hg.
    destruct (identifyContact now req w) as [[err|result] w'].
    + simpl. repeat split; auto. intros message E. subst err.
      destruct (Hg _ eq_refl) as [H|[H|H]]; discriminate.
    + simpl. auto.
  - simpl. auto.
Qed.

Lemma postIdentify_on_text_fields_witness :
  let identify := fun e p => identifyContact 30 (IdentifyRequest.mk (textOf e) (textOf p)) in
  let w := mkWorld [] 1 [] None in
  let answer := postIdentify identify (JsString "a@x.com"%string) JsUndefined w in
  runsIdentifyContact 30 identify /\
  status (fst answer) = 200 /\
  body (fst answer) = ContactBody (IdentifyResponse.mk 1 ["a@x.com"%string] [] []) /\
  identifyContact 30 (IdentifyRequest.mk (Some "a@x.com"%string) None) w =
  (inr (IdentifyResponse.mk 1 ["a@x.com"%string] [] []), snd answer).
Proof.
  intros identify w answer.
  assert (runsIdentifyContact 30 identify) as Hid by (intros e p w0 _ _; reflexivity).
  split; [exact Hid|]. split; [reflexivity|]. split; [reflexivity|].
  apply (postIdentify_on_text_fields 30 identify (JsString "a@x.com"%string)
           JsUndefined w Hid eq_refl eq_refl).
Defined.

(** X18 (app.ts, lines 14-52, over identifyContact): when the table is a
    forest without orphans and the store does not fail, a body whose
    fields are strings, null or absent is answered with 200 when one of
    them is a non-empty string and with 400 otherwise: the route never
    answers 500. *)
Theorem postIdentify_never_fails_in_a_forest now identify email phoneNumber w :
  runsIdentifyContact now identify ->
  isText email = true -> isText phoneNumber = true ->
  failAfter w = None ->
  liveForest w = true ->
  status (fst (postIdentify identify email phoneNumber w)) =
  if jsTruthy email || jsTruthy phoneNumber then 200 else 400.
Proof.
  intros Hid He Hp Hnf Hf.
  rewrite (postIdentify_text now identify email phoneNumber w Hid He Hp).
  rewrite (jsTruthy_text email He), (jsTruthy_text phoneNumber Hp).
  unfold validRequest at 1. cbn [IdentifyRequest.email IdentifyRequest.phoneNumber].
  destruct (truthy (textOf email) || truthy (textOf phoneNumber)) eqn:Hv; [|reflexivity].
  destruct (liveForest_answers now (IdentifyRequest.mk (textOf email) (textOf phoneNumber))
              w Hnf Hf Hv) as [resp ->].
  reflexivity.
Qed.

Lemma postIdentify_never_fails_witness :
  let identify := fun e p => identifyContact 30 (IdentifyRequest.mk (textOf e) (textOf p)) in
  let p1 := Contact.mk 1 (Some "a@x.com"%string) (Some "111"%string) None primary 10 10 None in
  let w := mkWorld [p1] 2 [] None in
  runsIdentifyContact 30 identify /\
  liveForest w = true /\
  status (fst (postIdentify identify JsNull (JsString "111"%string) w)) = 200.
Proof.
  intros identify p1 w.
  assert (runsIdentifyContact 30 identify) as Hid by (intros e p w0 _ _; reflexivity).
  split; [exact Hid|]. split; [reflexivity|].
  apply (postIdentify_never_fails_in_a_forest 30 identify JsNull
           (JsString "111"%string) w Hid eq_refl eq_refl eq_refl eq_refl).
Defined.


(** ** One cluster for each identifier *)

Lemma separated_iff w :
  separated w = true <->
  forall a b, In a (rows w) -> In b (rows w) ->
    notDeleted a = true -> notDeleted b = true -> sharesIdentifier a b = true ->
    rootId a = rootId b.
Proof.
  unfold separated. rewrite forallb_forall. split.
  - intros H a b Ha Hb La Lb Hs. specialize (H a Ha). rewrite forallb_forall in H.
    specialize (H b Hb). rewrite La, Lb, Hs in H. simpl in H. unfold sameRoot in H.
    destruct (optZ_eq_dec (rootId a) (rootId b)); [assumption|discriminate].
  - intros H a Ha. apply forallb_forall. intros b Hb.
    destruct (notDeleted a) eqn:La, (notDeleted b) eqn:Lb,
             (sharesIdentifier a b) eqn:Hs; simpl; auto.
    unfold sameRoot. rewrite (H a b Ha Hb La Lb Hs).
    destruct (optZ_eq_dec (rootId b) (rootId b)); [reflexivity|congruence].
Qed.

(** A live contact that shares an identifier with a row holding the
    identifiers of the request is matched by the request. *)
Lemma shares_request_matches req c x :
  Contact.email x = IdentifyRequest.email req ->
  Contact.phoneNumber x = IdentifyRequest.phoneNumber req ->
  notDeleted c = true ->
  sharesIdentifier x c = true \/ sharesIdentifier c x = true ->
  matchingWhere (IdentifyRequest.email req) (IdentifyRequest.phoneNumber req) c = true.
Proof.
  intros Ee Ep Hl Hs. unfold matchingWhere, matchingOR. rewrite Hl. simpl.
  assert ((truthy (IdentifyRequest.email req) = true /\
           Contact.email c = IdentifyRequest.email req) \/
          (truthy (IdentifyRequest.phoneNumber req) = true /\
           Contact.phoneNumber c = IdentifyRequest.phoneNumber req)) as H.
  { unfold sharesIdentifier in Hs. rewrite Ee, Ep in Hs.
    destruct Hs as [Hs|Hs]; apply orb_true_iff in Hs;
      destruct Hs as [Hs|Hs]; apply andb_true_iff in Hs; destruct Hs as [Ht Hs];
      apply sameText_eq in Hs.
    - left. auto.
    - right. auto.
    - left. rewrite <- Hs. auto.
    - right. rewrite <- Hs. auto. }
  destruct H as [[Ht E]|[Ht E]]; rewrite Ht.
  - simpl. rewrite E. rewrite (proj2 (sameText_eq _ _) eq_refl). reflexivity.
  - rewrite existsb_app. simpl. rewrite E.
    rewrite (proj2 (sameText_eq _ _) eq_refl). simpl. apply orb_true_r.
Qed.

Lemma sharesIdentifier_mergeOne now tid others a b :
  sharesIdentifier (mergeOne now tid others a) (mergeOne now tid others b) =
  sharesIdentifier a b.
Proof.
  unfold sharesIdentifier.
  destruct (mergeOne_keeps now tid others a) as (_ & -> & -> & _).
  destruct (mergeOne_keeps now tid others b) as (_ & -> & -> & _).
  reflexivity.
Qed.

(** The root of a live row after the loop of step 5, in a forest without
    orphans: the true primary when the root was one of the primaries that
    the loop demotes, the same root otherwise. *)
Lemma root_after_merge now req w t others c :
  liveForest w = true ->
  primariesOf (candidatesOf req (rows w)) = t :: others ->
  In c (rows w) -> notDeleted c = true ->
  rootId (mergeOne now (Contact.id t) others c) =
  match rootId c with
  | Some r => if isOther others r then Some (Contact.id t) else Some r
  | None => None
  end.
Proof.
  intros Hf Hp Hc Hl.
  pose proof (liveForest_forest w Hf) as Hwf.
  pose proof (truePrimary_not_demoted req w t others Hwf Hp) as Ht.
  rewrite (mergeOne_closed now _ others c Ht).
  destruct (liveForest_elim w Hf) as (Hnd & _ & Hwl). specialize (Hwl c Hc).
  destruct (isPrimary c) eqn:Ep.
  - pose proof (wellLinked_primary _ _ Hwl Hl Ep) as Hlink.
    assert (rootId c = Some (Contact.id c)) as ->.
    { unfold rootId. unfold isPrimary in Ep.
      destruct (Contact.linkPrecedence c); [reflexivity|discriminate]. }
    unfold linksToOther. rewrite Hlink, andb_false_r.
    destruct (isOther others (Contact.id c)); [reflexivity|].
    unfold rootId. unfold isPrimary in Ep.
    destruct (Contact.linkPrecedence c); [reflexivity|discriminate].
  - destruct (wellLinked_secondary _ _ Hwl Hl Ep) as (l & Hlink & _).
    assert (Contact.linkPrecedence c = secondary) as Es.
    { unfold isPrimary in Ep. destruct (Contact.linkPrecedence c); [discriminate|auto]. }
    assert (rootId c = Some l) as -> by (unfold rootId; rewrite Es; exact Hlink).
    assert (isOther others (Contact.id c) = false) as ->.
    { destruct (isOther others (Contact.id c)) eqn:E; auto. exfalso.
      apply isOther_In in E. apply in_map_iff in E. destruct E as (o & Eo & Ho).
      destruct (primaries_in_rows req w t others Hp o (or_intror Ho)) as (Hor & _ & Hop).
      assert (o = c) by (apply (same_id_same_row (rows w)); auto). subst o.
      congruence. }
    unfold linksToOther. rewrite Hl, Hlink. simpl.
    destruct (isOther others l).
    + unfold rootId, relink. simpl. rewrite Es. reflexivity.
    + unfold rootId. rewrite Es. exact Hlink.
Qed.

Lemma separated_after now req w t others :
  liveForest w = true -> separated w = true ->
  primariesOf (candidatesOf req (rows w)) = t :: others ->
  separated (worldAfter now req w t others) = true.
Proof.
  intros Hf Hs Hp. rewrite separated_iff in *.
  pose proof (liveForest_forest w Hf) as Hwf.
  pose proof (truePrimary_not_demoted req w t others Hwf Hp) as Ht.
  assert (forall c0, In c0 (rows w) -> notDeleted c0 = true ->
            matchingWhere (IdentifyRequest.email req) (IdentifyRequest.phoneNumber req) c0
            = true ->
            rootId (mergeOne now (Contact.id t) others c0) = Some (Contact.id t)) as Hmatch.
  { intros c0 Hc0 Hl Hm.
    destruct (match_root req w t others c0 Hf Hp) as (p & Hin & Hr & _).
    { apply matchesOf_In. auto. }
    rewrite (root_after_merge now req w t others c0 Hf Hp Hc0 Hl), Hr.
    destruct Hin as [<-|Hin]; [rewrite Ht; reflexivity|].
    assert (isOther others (Contact.id p) = true) as ->; [|reflexivity].
    apply isOther_In. apply in_map. exact Hin. }
  intros a b Ha Hb La Lb Hsh.
  apply worldAfter_rows in Ha. apply worldAfter_rows in Hb.
  destruct Ha as [(a0 & Ha0 & ->)|[_ ->]], Hb as [(b0 & Hb0 & ->)|[_ ->]].
  - rewrite mergeOne_notDeleted in La, Lb. rewrite sharesIdentifier_mergeOne in Hsh.
    rewrite (root_after_merge now req w t others a0 Hf Hp Ha0 La).
    rewrite (root_after_merge now req w t others b0 Hf Hp Hb0 Lb).
    rewrite (Hs a0 b0 Ha0 Hb0 La Lb Hsh). reflexivity.
  - rewrite mergeOne_notDeleted in La. rewrite Hmatch; auto.
    apply (shares_request_matches req a0 (secondaryFor now req w t)); auto.
    right. unfold sharesIdentifier in *.
    destruct (mergeOne_keeps now (Contact.id t) others a0) as (_ & E1 & E2 & _).
    rewrite E1, E2 in Hsh. exact Hsh.
  - rewrite mergeOne_notDeleted in Lb. rewrite Hmatch; auto.
    apply (shares_request_matches req b0 (secondaryFor now req w t)); auto.
    left. unfold sharesIdentifier in *.
    destruct (mergeOne_keeps now (Contact.id t) others b0) as (_ & E1 & E2 & _).
    rewrite E1, E2 in Hsh. exact Hsh.
  - reflexivity.
Qed.

Lemma separated_fresh now req w calls :
  separated w = true ->
  matchesOf req (rows w) = [] ->
  separated (mkWorld (rows w ++ [newRow (nextId w) now (IdentifyRequest.email req)
                                        (IdentifyRequest.phoneNumber req) None primary])
                     (nextId w + 1) calls None) = true.
Proof.
  intros Hs Hm. rewrite separated_iff in *. cbn [rows].
  assert (forall c0, In c0 (rows w) -> notDeleted c0 = true ->
            matchingWhere (IdentifyRequest.email req) (IdentifyRequest.phoneNumber req) c0
            = true -> False) as Hno.
  { intros c0 Hc0 Hl H. assert (In c0 (matchesOf req (rows w))) as Hin.
    { apply matchesOf_In. auto. }
    rewrite Hm in Hin. contradiction. }
  intros a b Ha Hb La Lb Hsh.
  apply in_app_or in Ha. apply in_app_or in Hb.
  destruct Ha as [Ha|[<-|[]]], Hb as [Hb|[<-|[]]]; auto.
  - exfalso. apply (Hno a Ha La).
    eapply (shares_request_matches req a); [| |exact La|right; exact Hsh]; reflexivity.
  - exfalso. apply (Hno b Hb Lb).
    eapply (shares_request_matches req b); [| |exact Lb|left; exact Hsh]; reflexivity.
Qed.

(** One call on a store that does not fail, in a forest without orphans:
    identifiers stay apart. *)
Lemma identify_keeps_separated now req w :
  failAfter w = None ->
  liveForest w = true ->
  separated w = true ->
  separated (snd (identifyContact now req w)) = true.
Proof.
  intros Hnf Hf Hs. destruct (validRequest req) eqn:Hv.
  - destruct (matchesOf req (rows w)) as [|m ms] eqn:Hm.
    + pose proof (identify_fresh_run now req w Hnf Hv Hm) as E. cbv zeta in E.
      rewrite E. cbn [snd]. apply separated_fresh; auto.
    + assert (matchesOf req (rows w) <> []) as Hne by (rewrite Hm; discriminate).
      destruct (primariesOf (candidatesOf req (rows w))) as [|t others] eqn:Hp.
      * rewrite (identify_inconsistent_run now req w Hnf Hv Hne Hp). exact Hs.
      * destruct (identify_cluster_run now req w t others Hnf Hv Hne Hp) as (t' & _ & ->).
        cbn [snd]. apply separated_after; auto.
  - rewrite (identify_invalid_run now req w Hv). exact Hs.
Qed.

(** X19 (identifyContact, lines 50-59, 76-98 and 111-177): the matcher and
    the merge keep each identifier in one cluster.  In a forest without
    orphans where no truthy email or phone number is held by live contacts
    of two clusters, on a store that does not fail, that is still so after
    any call, whether it creates a primary, merges clusters, adds a
    secondary, only reads or throws. *)
Theorem identifiers_stay_in_one_cluster now req w :
  failAfter w = None -> liveForest w = true -> separated w = true ->
  separated (snd (identifyContact now req w)) = true.
Proof.
  intros Hnf Hf Hs. apply identify_keeps_separated; assumption.
Qed.

Lemma identifiers_stay_in_one_cluster_witness :
  let p1 := Contact.mk 1 (Some "a@x.com"%string) (Some "111"%string) None primary 10 10 None in
  let p2 := Contact.mk 2 (Some "b@x.com"%string) (Some "222"%string) None primary 20 20 None in
  let w := mkWorld [p1; p2] 3 [] None in
  let req := IdentifyRequest.mk (Some "a@x.com"%string) (Some "222"%string) in
  liveForest w = true /\ separated w = true /\
  map rootId (rows (snd (identifyContact 30 req w))) = [Some 1; Some 1] /\
  separated (snd (identifyContact 30 req w)) = true.
Proof.
  intros p1 p2 w req. split; [reflexivity|]. split; [reflexivity|].
  split; [reflexivity|].
  apply (identifiers_stay_in_one_cluster 30 req w); reflexivity.
Defined.



(** ** Requests in a store where identifiers are apart *)

Lemma matchingWhere_cases email phoneNumber c :
  matchingWhere email phoneNumber c = true ->
  notDeleted c = true /\
  ((truthy email = true /\ Contact.email c = email) \/
   (truthy phoneNumber = true /\ Contact.phoneNumber c = phoneNumber)).
Proof.
  unfold matchingWhere, matchingOR. intros H. apply andb_true_iff in H.
  destruct H as [Hl H]. split; auto. rewrite existsb_app in H.
  apply orb_true_iff in H.
  destruct (truthy email), (truthy phoneNumber); simpl in H;
    destruct H as [H|H]; try discriminate; rewrite orb_false_r in H;
    apply sameText_eq in H; auto.
Qed.

Lemma matchingWhere_email email phoneNumber c :
  notDeleted c = true -> truthy email = true -> Contact.email c = email ->
  matchingWhere email phoneNumber c = true.
Proof.
  intros Hl Ht E. unfold matchingWhere, matchingOR. rewrite Hl, Ht. simpl.
  rewrite (proj2 (sameText_eq _ _) E). reflexivity.
Qed.

Lemma matchingWhere_phone email phoneNumber c :
  notDeleted c = true -> truthy phoneNumber = true ->
  Contact.phoneNumber c = phoneNumber ->
  matchingWhere email phoneNumber c = true.
Proof.
  intros Hl Ht E. unfold matchingWhere, matchingOR. rewrite Hl, Ht. simpl.
  rewrite existsb_app. simpl. rewrite (proj2 (sameText_eq _ _) E).
  simpl. apply orb_true_r.
Qed.

Lemma shares_email a b :
  truthy (Contact.email a) = true -> Contact.email a = Contact.email b ->
  sharesIdentifier a b = true.
Proof.
  intros Ht E. unfold sharesIdentifier. rewrite Ht, (proj2 (sameText_eq _ _) E).
  reflexivity.
Qed.

Lemma shares_phone a b :
  truthy (Contact.phoneNumber a) = true ->
  Contact.phoneNumber a = Contact.phoneNumber b ->
  sharesIdentifier a b = true.
Proof.
  intros Ht E. unfold sharesIdentifier. rewrite Ht, (proj2 (sameText_eq _ _) E).
  apply orb_true_r.
Qed.

(** X21 (identifyContact, lines 50-59, 111 and 164-167): in a forest
    without orphans where identifiers are apart, on a store that does not
    fail, a request with one truthy identifier that matches some contact
    only reads: all its matches are in one cluster, so nothing is merged,
    and with one identifier nothing is created. *)
Theorem lookup_by_one_identifier_only_reads now req w :
  failAfter w = None -> liveForest w = true -> separated w = true ->
  truthy (IdentifyRequest.email req) && truthy (IdentifyRequest.phoneNumber req) = false ->
  matchesOf req (rows w) <> [] ->
  (exists resp, fst (identifyContact now req w) = inr resp) /\
  rows (snd (identifyContact now req w)) = rows w /\
  log (snd (identifyContact now req w)) = CallFindMany :: CallFindMany :: log w.
Proof.
  intros Hnf Hf Hs Hone Hne.
  pose proof (matches_valid req (rows w) Hne) as Hv.
  destruct (matchesOf req (rows w)) as [|m0 ms] eqn:Em; [congruence|].
  assert (In m0 (matchesOf req (rows w))) as Hin0 by (rewrite Em; left; auto).
  rewrite <- Em in Hne. clear Em ms.
  apply matchesOf_In in Hin0. destruct Hin0 as [Hrow0 Hm0].
  destruct (matchingWhere_cases _ _ _ Hm0) as [Hl0 Hc0].
  destruct (liveForest_root w m0 Hf Hrow0 Hl0) as (p & Hp & Hroot & Hpl & Hpp & _).
  assert (forall m, In m (matchesOf req (rows w)) -> rootId m = Some (Contact.id p))
    as Hroots.
  { intros m Hm. apply matchesOf_In in Hm. destruct Hm as [Hrow Hm].
    destruct (matchingWhere_cases _ _ _ Hm) as [Hl Hc].
    rewrite <- Hroot. apply (proj1 (separated_iff w) Hs); auto.
    destruct Hc as [[Ht E]|[Ht E]], Hc0 as [[Ht0 E0]|[Ht0 E0]];
      try (rewrite Ht, Ht0 in Hone; discriminate).
    - apply shares_email; congruence.
    - apply shares_phone; congruence. }
  assert (createsSecondary (IdentifyRequest.email req) (IdentifyRequest.phoneNumber req)
                           (candidatesOf req (rows w)) = false) as Hcs.
  { unfold createsSecondary. rewrite Hone. apply andb_false_r. }
  rewrite (identify_settled now req w p Hnf Hf Hv Hp Hpl Hpp Hne Hroots Hcs).
  cbn [fst snd rows log]. eauto.
Qed.

Lemma lookup_by_one_identifier_witness :
  let p1 := Contact.mk 1 (Some "a@x.com"%string) (Some "111"%string) None primary 10 10 None in
  let s2 := Contact.mk 2 (Some "b@x.com"%string) (Some "111"%string) (Some 1) secondary 20 20 None in
  let w := mkWorld [p1; s2] 3 [] None in
  let req := IdentifyRequest.mk None (Some "111"%string) in
  liveForest w = true /\ separated w = true /\
  matchesOf req (rows w) = [p1; s2] /\
  rows (snd (identifyContact 30 req w)) = rows w.
Proof.
  intros p1 s2 w req. split; [reflexivity|]. split; [reflexivity|].
  split; [reflexivity|].
  apply (lookup_by_one_identifier_only_reads 30 req w); try reflexivity.
  discriminate.
Defined.

(** In a forest without orphans the rows that the query of lines 139-145
    selects for a live primary have that primary as their root. *)
Lemma member_root w t c :
  liveForest w = true ->
  In t (rows w) -> isPrimary t = true ->
  In c (rows w) -> membersWhere (Contact.id t) c = true ->
  rootId c = Some (Contact.id t).
Proof.
  intros Hf Ht Hp Hc Hm.
  destruct (liveForest_elim w Hf) as (Hnd & _ & Hwl). specialize (Hwl c Hc).
  unfold membersWhere in Hm. apply andb_true_iff in Hm. destruct Hm as [Hl Hor].
  apply orb_true_iff in Hor. destruct Hor as [E|E].
  - apply Z.eqb_eq in E.
    assert (c = t) by (apply (same_id_same_row (rows w)); auto). subst c.
    unfold rootId. unfold isPrimary in Hp.
    destruct (Contact.linkPrecedence t); [reflexivity|discriminate].
  - unfold linkIs in E. unfold wellLinked in Hwl. rewrite Hl in Hwl. simpl in Hwl.
    unfold rootId.
    destruct (Contact.linkPrecedence c), (Contact.linkedId c) as [l|];
      try discriminate.
    apply Z.eqb_eq in E. congruence.
Qed.

Lemma secondaryIds_ext l1 l2 i :
  (forall c, In c l1 <-> In c l2) ->
  In i (map Contact.id (filter isSecondary l1)) ->
  In i (map Contact.id (filter isSecondary l2)).
Proof.
  intros H Hi. apply in_map_iff in Hi. destruct Hi as (c & <- & Hc).
  apply filter_In in Hc. destruct Hc as [Hc Hs].
  apply in_map. apply filter_In. split; auto. apply H. exact Hc.
Qed.

(** X22 (identifyContact, lines 40-182; buildResponse, lines 184-220): the
    identifiers of a response resolve to the cluster of that response.
    In a forest without orphans where identifiers are apart, on a store
    that does not fail, after an answered call any request made of
    identifiers that the response lists (one of them, or an email and a
    phone number of it) only reads, and is answered with the same
    primaryContactId, the same emails, the same phone numbers and the same
    secondaryContactIds. *)
Theorem identifiers_of_a_response_resolve_to_it now req w resp now2 req2 :
  failAfter w = None -> liveForest w = true -> separated w = true ->
  fst (identifyContact now req w) = inr resp ->
  validRequest req2 = true ->
  (forall x, IdentifyRequest.email req2 = Some x -> x <> EmptyString ->
             In x (IdentifyResponse.emails resp)) ->
  (forall x, IdentifyRequest.phoneNumber req2 = Some x -> x <> EmptyString ->
             In x (IdentifyResponse.phoneNumbers resp)) ->
  exists resp2,
    fst (identifyContact now2 req2 (snd (identifyContact now req w))) = inr resp2 /\
    rows (snd (identifyContact now2 req2 (snd (identifyContact now req w)))) =
    rows (snd (identifyContact now req w)) /\
    IdentifyResponse.primaryContactId resp2 = IdentifyResponse.primaryContactId resp /\
    (forall x, In x (IdentifyResponse.emails resp2) <->
               In x (IdentifyResponse.emails resp)) /\
    (forall x, In x (IdentifyResponse.phoneNumbers resp2) <->
               In x (IdentifyResponse.phoneNumbers resp)) /\
    (forall i, In i (IdentifyResponse.secondaryContactIds resp2) <->
               In i (IdentifyResponse.secondaryContactIds resp)).
Proof.
  intros Hnf Hf Hs Hrun Hv2 He2 Hp2.
  destruct (identify_settles now req w resp Hnf Hf Hrun)
    as (Hf' & t & members & -> & Ht & Hprim & Hnd & Hmem & _).
  pose proof (identify_keeps_separated now req w Hnf Hf Hs) as Hs'.
  destruct (identify_invariants now req w Hnf) as (Hnf' & _ & _).
  set (w' := snd (identifyContact now req w)) in *.
  destruct (proj1 (Hmem t) Ht) as [Htrow Htm].
  assert (notDeleted t = true) as Htl.
  { unfold membersWhere in Htm. apply andb_true_iff in Htm. tauto. }
  cbn [responseOf IdentifyResponse.emails IdentifyResponse.phoneNumbers] in He2, Hp2.
  (* each truthy identifier of the second request is held by a member *)
  assert (truthy (IdentifyRequest.email req2) = true ->
          exists c, In c members /\ Contact.email c = IdentifyRequest.email req2) as Hce.
  { intros Htr. destruct (IdentifyRequest.email req2) as [x|] eqn:Ex; [|discriminate].
    assert (x <> EmptyString) as Hx.
    { simpl in Htr. intros ->. discriminate. }
    specialize (He2 x eq_refl Hx).
    apply (responseOf_In Contact.email t members x Hnd Ht) in He2.
    destruct He2 as (c & Hc & Ec & _). eauto. }
  assert (truthy (IdentifyRequest.phoneNumber req2) = true ->
          exists c, In c members /\
                    Contact.phoneNumber c = IdentifyRequest.phoneNumber req2) as Hcp.
  { intros Htr. destruct (IdentifyRequest.phoneNumber req2) as [x|] eqn:Ex; [|discriminate].
    assert (x <> EmptyString) as Hx.
    { simpl in Htr. intros ->. discriminate. }
    specialize (Hp2 x eq_refl Hx).
    apply (responseOf_In Contact.phoneNumber t members x Hnd Ht) in Hp2.
    destruct Hp2 as (c & Hc & Ec & _). eauto. }
  assert (forall c, In c members ->
            In c (rows w') /\ notDeleted c = true /\ rootId c = Some (Contact.id t))
    as Hmember.
  { intros c Hc. destruct (proj1 (Hmem c) Hc) as [Hrow Hmw]. split; auto. split.
    - unfold membersWhere in Hmw. apply andb_true_iff in Hmw. tauto.
    - apply (member_root w' t c); auto. }
  (* the matches of the second request *)
  assert (matchesOf req2 (rows w') <> []) as Hne2.
  { assert (exists c, In c (matchesOf req2 (rows w'))) as [c Hc].
    { unfold validRequest in Hv2. apply orb_true_iff in Hv2. destruct Hv2 as [Htr|Htr].
      - destruct (Hce Htr) as (c & Hc & Ec). destruct (Hmember c Hc) as (Hrow & Hl & _).
        exists c. apply matchesOf_In. split; auto. apply matchingWhere_email; auto.
      - destruct (Hcp Htr) as (c & Hc & Ec). destruct (Hmember c Hc) as (Hrow & Hl & _).
        exists c. apply matchesOf_In. split; auto. apply matchingWhere_phone; auto. }
    intros E. rewrite E in Hc. contradiction. }
  assert (forall m, In m (matchesOf req2 (rows w')) -> rootId m = Some (Contact.id t))
    as Hroots2.
  { intros m Hm. apply matchesOf_In in Hm. destruct Hm as [Hrow Hm].
    destruct (matchingWhere_cases _ _ _ Hm) as [Hl [[Htr E]|[Htr E]]].
    - destruct (Hce Htr) as (c & Hc & Ec). destruct (Hmember c Hc) as (Hcrow & Hcl & <-).
      apply (proj1 (separated_iff w') Hs'); auto.
      apply shares_email; congruence.
    - destruct (Hcp Htr) as (c & Hc & Ec). destruct (Hmember c Hc) as (Hcrow & Hcl & <-).
      apply (proj1 (separated_iff w') Hs'); auto.
      apply shares_phone; congruence. }
  pose proof (settled_candidates req2 w' t Hne2 Hroots2) as Hcand2.
  assert (forall c, In c (candidatesOf req2 (rows w')) <-> In c members) as Hsame.
  { intros c. rewrite Hcand2, Hmem. reflexivity. }
  assert (createsSecondary (IdentifyRequest.email req2) (IdentifyRequest.phoneNumber req2)
                           (candidatesOf req2 (rows w')) = false) as Hcs2.
  { apply createsSecondary_false. intros Htre Htrp.
    destruct (Hce Htre) as (ce & Hcein & Ece). destruct (Hcp Htrp) as (cp & Hcpin & Ecp).
    split; [rewrite <- Ece|rewrite <- Ecp]; apply in_map; apply Hsame; assumption. }
  rewrite (identify_settled now2 req2 w' t Hnf' Hf' Hv2 Htrow Htl Hprim Hne2 Hroots2 Hcs2).
  cbn [fst snd rows]. eexists. split; [reflexivity|]. split; [reflexivity|].
  destruct (responseOf_ext t (candidatesOf req2 (rows w')) members Hsame)
    as (Hpid & Hem & Hph).
  split; [exact Hpid|]. split; [exact Hem|]. split; [exact Hph|].
  intros i. cbn [responseOf IdentifyResponse.secondaryContactIds].
  split; apply secondaryIds_ext; intros c; [|symmetry]; apply Hsame.
Qed.

Lemma identifiers_of_a_response_witness :
  let p1 := Contact.mk 1 (Some "a@x.com"%string) (Some "111"%string) None primary 10 10 None in
  let p2 := Contact.mk 2 (Some "b@x.com"%string) (Some "222"%string) None primary 20 20 None in
  let w := mkWorld [p1; p2] 3 [] None in
  let req := IdentifyRequest.mk (Some "a@x.com"%string) (Some "222"%string) in
  let resp := IdentifyResponse.mk 1 ["a@x.com"%string; "b@x.com"%string]
                                  ["111"%string; "222"%string] [2] in
  let req2 := IdentifyRequest.mk (Some "b@x.com"%string) None in
  liveForest w = true /\ separated w = true /\
  fst (identifyContact 30 req w) = inr resp /\
  exists resp2,
    fst (identifyContact 40 req2 (snd (identifyContact 30 req w))) = inr resp2 /\
    rows (snd (identifyContact 40 req2 (snd (identifyContact 30 req w)))) =
    rows (snd (identifyContact 30 req w)) /\
    IdentifyResponse.primaryContactId resp2 = 1.
Proof.
  intros p1 p2 w req resp req2. split; [reflexivity|]. split; [reflexivity|].
  split; [reflexivity|].
  destruct (identifiers_of_a_response_resolve_to_it 30 req w resp 40 req2)
    as (resp2 & H1 & H2 & H3 & _); try reflexivity.
  - intros x E _. injection E as <-. right. left. reflexivity.
  - intros x E. discriminate E.
  - exists resp2. auto.
Defined.

(** ** Clusters only grow *)

(** An answered call that found matches, in a forest without orphans. *)
Lemma cluster_answer now req w t others :
  failAfter w = None -> liveForest w = true ->
  matchesOf req (rows w) <> [] ->
  primariesOf (candidatesOf req (rows w)) = t :: others ->
  identifyContact now req w =
  (inr (responseOf t (membersOf now req w t others)), worldAfter now req w t others) /\
  In t (membersOf now req w t others) /\
  NoDup (map Contact.id (membersOf now req w t others)).
Proof.
  intros Hnf Hf Hne Hp.
  pose proof (matches_valid req (rows w) Hne) as Hv.
  pose proof (liveForest_forest w Hf) as Hwf.
  destruct (liveForest_elim w Hf) as (Hnd & Hlt & _).
  destruct (identify_cluster_run now req w t others Hnf Hv Hne Hp) as (t' & Ht' & E).
  pose proof (liveForest_after now req w t others Hwf Hp Hf) as Hf'.
  destruct (liveForest_elim _ Hf') as (Hnd' & _ & _).
  apply find_hasId_id in Ht'. destruct Ht' as [Hid Hin].
  pose proof (members_after now req w t others Hf Hne Hp) as Hmem.
  assert (t' = t) as ->.
  { apply (same_id_same_row (rows (worldAfter now req w t others))); auto.
    - apply Hmem. exact Hin.
    - apply truePrimary_in_after; auto. }
  split; [exact E|]. split; [exact Hin|]. apply members_ids_NoDup; auto.
Qed.

(** X23 (identifyContact, lines 76-98 and 111-148; buildResponse, lines
    184-220): a cluster is absorbed whole.  In a forest without orphans, on
    a store that does not fail, when a later request carries an email or a
    phone number that an earlier response lists, its response lists every
    email and every phone number of the earlier response, and every contact
    id of the earlier response is its primaryContactId or one of its
    secondaryContactIds. *)
Theorem later_response_absorbs_the_cluster now req w resp now2 req2 resp2 :
  failAfter w = None -> liveForest w = true ->
  fst (identifyContact now req w) = inr resp ->
  fst (identifyContact now2 req2 (snd (identifyContact now req w))) = inr resp2 ->
  (exists x, IdentifyRequest.email req2 = Some x /\ In x (IdentifyResponse.emails resp)) \/
  (exists x, IdentifyRequest.phoneNumber req2 = Some x /\
             In x (IdentifyResponse.phoneNumbers resp)) ->
  (forall x, In x (IdentifyResponse.emails resp) ->
             In x (IdentifyResponse.emails resp2)) /\
  (forall x, In x (IdentifyResponse.phoneNumbers resp) ->
             In x (IdentifyResponse.phoneNumbers resp2)) /\
  (forall i, i = IdentifyResponse.primaryContactId resp \/
             In i (IdentifyResponse.secondaryContactIds resp) ->
             i = IdentifyResponse.primaryContactId resp2 \/
             In i (IdentifyResponse.secondaryContactIds resp2)).
Proof.
  intros Hnf Hf Hrun Hrun2 Hshare.
  destruct (identify_settles now req w resp Hnf Hf Hrun)
    as (Hf' & t1 & members1 & -> & Ht1 & Hprim1 & Hnd1 & Hmem1 & _).
  destruct (identify_invariants now req w Hnf) as (Hnf' & _ & _).
  set (w' := snd (identifyContact now req w)) in *.
  destruct (proj1 (Hmem1 t1) Ht1) as [Ht1row Ht1m].
  assert (forall c, In c members1 ->
            In c (rows w') /\ notDeleted c = true /\ rootId c = Some (Contact.id t1))
    as Hmember.
  { intros c Hc. destruct (proj1 (Hmem1 c) Hc) as [Hrow Hmw]. split; auto. split.
    - unfold membersWhere in Hmw. apply andb_true_iff in Hmw. tauto.
    - apply (member_root w' t1 c); auto. }
  (* a member of the first cluster is matched by the second request *)
  assert (exists c, In c members1 /\ In c (matchesOf req2 (rows w'))) as (c & Hc & Hcm).
  { cbn [responseOf IdentifyResponse.emails IdentifyResponse.phoneNumbers] in Hshare.
    destruct Hshare as [(x & Ex & Hx)|(x & Ex & Hx)].
    - apply (responseOf_In Contact.email t1 members1 x Hnd1 Ht1) in Hx.
      destruct Hx as (c & Hc & Ec & Hne). exists c. split; auto.
      destruct (Hmember c Hc) as (Hrow & Hl & _).
      apply matchesOf_In. split; auto. apply matchingWhere_email; auto.
      + rewrite Ex. simpl. destruct (String.eqb_spec x EmptyString); [contradiction|auto].
      + congruence.
    - apply (responseOf_In Contact.phoneNumber t1 members1 x Hnd1 Ht1) in Hx.
      destruct Hx as (c & Hc & Ec & Hne). exists c. split; auto.
      destruct (Hmember c Hc) as (Hrow & Hl & _).
      apply matchesOf_In. split; auto. apply matchingWhere_phone; auto.
      + rewrite Ex. simpl. destruct (String.eqb_spec x EmptyString); [contradiction|auto].
      + congruence. }
  assert (matchesOf req2 (rows w') <> []) as Hne2.
  { intros E. rewrite E in Hcm. contradiction. }
  pose proof (live_match_has_primary req2 w' Hf' Hne2) as Hp2.
  destruct (primariesOf (candidatesOf req2 (rows w'))) as [|t2 others2] eqn:Ep2;
    [congruence|].
  destruct (cluster_answer now2 req2 w' t2 others2 Hnf' Hf' Hne2 Ep2)
    as (E2 & Ht2 & Hnd2).
  rewrite E2 in Hrun2. cbn [fst] in Hrun2. injection Hrun2 as <-.
  pose proof (members_after now2 req2 w' t2 others2 Hf' Hne2 Ep2) as Hmem2.
  pose proof (liveForest_forest w' Hf') as Hwf'.
  (* the first primary is one of the primaries of the second call *)
  assert (In t1 (t2 :: others2)) as Hin1.
  { rewrite <- Ep2. apply primariesOf_In. split; auto. unfold candidatesOf.
    apply selectRows_In. split; auto. unfold clustersWhere.
    destruct (Hmember t1 Ht1) as (_ & -> & _). simpl.
    apply orb_true_iff. left. apply inIds_iff. apply collectRootIds_In.
    exists c. split; auto. apply (Hmember c Hc). }
  (* every member of the first cluster is a member of the second *)
  assert (forall c1, In c1 members1 ->
            In (mergeOne now2 (Contact.id t2) others2 c1) (membersOf now2 req2 w' t2 others2))
    as Hkeep.
  { intros c1 Hc1. destruct (Hmember c1 Hc1) as (Hrow & Hl & Hroot).
    apply Hmem2. split; [apply merged_in_after; exact Hrow|].
    apply root_member; [rewrite mergeOne_notDeleted; exact Hl|].
    rewrite (root_after_merge now2 req2 w' t2 others2 c1 Hf' Ep2 Hrow Hl), Hroot.
    destruct Hin1 as [->|Hin1].
    - rewrite (truePrimary_not_demoted req2 w' t1 others2 Hwf' Ep2). reflexivity.
    - assert (isOther others2 (Contact.id t1) = true) as ->; [|reflexivity].
      apply isOther_In. apply in_map. exact Hin1. }
  cbn [responseOf IdentifyResponse.emails IdentifyResponse.phoneNumbers
       IdentifyResponse.primaryContactId IdentifyResponse.secondaryContactIds].
  split; [|split].
  - intros x Hx. apply (responseOf_In Contact.email t1 members1 x Hnd1 Ht1) in Hx.
    destruct Hx as (c1 & Hc1 & Ec & Hne).
    apply (responseOf_In Contact.email t2 _ x Hnd2 Ht2).
    exists (mergeOne now2 (Contact.id t2) others2 c1). split; [apply Hkeep; exact Hc1|].
    destruct (mergeOne_keeps now2 (Contact.id t2) others2 c1) as (_ & -> & _). auto.
  - intros x Hx. apply (responseOf_In Contact.phoneNumber t1 members1 x Hnd1 Ht1) in Hx.
    destruct Hx as (c1 & Hc1 & Ec & Hne).
    apply (responseOf_In Contact.phoneNumber t2 _ x Hnd2 Ht2).
    exists (mergeOne now2 (Contact.id t2) others2 c1). split; [apply Hkeep; exact Hc1|].
    destruct (mergeOne_keeps now2 (Contact.id t2) others2 c1) as (_ & _ & -> & _). auto.
  - intros i Hi.
    assert (exists c1, In c1 members1 /\ Contact.id c1 = i) as (c1 & Hc1 & <-).
    { destruct Hi as [->|Hi]; [eauto|].
      apply in_map_iff in Hi. destruct Hi as (c1 & E & Hc1).
      apply filter_In in Hc1. exists c1. tauto. }
    destruct (Z.eq_dec (Contact.id c1) (Contact.id t2)) as [E|Hne]; [left; exact E|].
    right.
    pose proof (liveForest_after now2 req2 w' t2 others2 Hwf' Ep2 Hf') as Hf''.
    destruct (liveForest_elim _ Hf'') as (_ & _ & Hwl'').
    apply (secondaries_In _ t2 _ (Contact.id c1) Hwl'' Hnd2 Hmem2 Ht2).
    + apply (primaries_in_rows req2 w' t2 others2 Ep2 t2). left. reflexivity.
    + split; auto. exists (mergeOne now2 (Contact.id t2) others2 c1).
      split; [apply Hkeep; exact Hc1|apply mergeOne_id].
Qed.

Lemma later_response_absorbs_witness :
  let p1 := Contact.mk 1 (Some "a@x.com"%string) (Some "111"%string) None primary 10 10 None in
  let p2 := Contact.mk 2 (Some "b@x.com"%string) (Some "222"%string) None primary 5 5 None in
  let w := mkWorld [p1; p2] 3 [] None in
  let req := IdentifyRequest.mk (Some "a@x.com"%string) (Some "333"%string) in
  let resp := IdentifyResponse.mk 1 ["a@x.com"%string] ["111"%string; "333"%string] [3] in
  let req2 := IdentifyRequest.mk (Some "b@x.com"%string) (Some "333"%string) in
  let resp2 := IdentifyResponse.mk 2 ["b@x.com"%string; "a@x.com"%string]
                                   ["222"%string; "111"%string; "333"%string] [1; 3] in
  liveForest w = true /\
  fst (identifyContact 30 req w) = inr resp /\
  fst (identifyContact 40 req2 (snd (identifyContact 30 req w))) = inr resp2 /\
  forall i, i = 1 \/ In i [3] -> i = 2 \/ In i [1; 3].
Proof.
  intros p1 p2 w req resp req2 resp2. split; [reflexivity|]. split; [reflexivity|].
  split; [reflexivity|].
  apply (later_response_absorbs_the_cluster 30 req w resp 40 req2 resp2);
    try reflexivity.
  right. exists "333"%string. split; [reflexivity|]. right. left. reflexivity.
Defined.


(** ** The table after any run, whether or not the store fails *)

Lemma update_result i data w r w' :
  In i (map Contact.id (rows w)) ->
  update i data w = (r, w') ->
  (r = inl StoreFailure /\ w' = w) \/
  (r = inr tt /\ rows w' = updateRows (hasId i) data (rows w) /\ nextId w' = nextId w).
Proof.
  intros Hin. unfold update. destruct (serve w) as [w1|] eqn:E.
  - destruct (serve_sameRecords _ _ E) as (Hr & Hn & _).
    assert (existsb (hasId i) (rows w1) = true) as ->.
    { rewrite Hr. apply in_map_iff in Hin. destruct Hin as (c & Ec & Hc).
      apply existsb_exists. exists c. split; auto. unfold hasId. apply Z.eqb_eq. exact Ec. }
    intros H. injection H as <- <-. right. simpl. rewrite Hr, Hn. auto.
  - intros H. injection H as <- <-. auto.
Qed.

Lemma updateMany_result linked data w r w' :
  updateMany linked data w = (r, w') ->
  (r = inl StoreFailure /\ w' = w) \/
  (r = inr tt /\ rows w' = updateRows (linkedToWhere linked) data (rows w) /\
   nextId w' = nextId w).
Proof.
  unfold updateMany. destruct (serve w) as [w1|] eqn:E;
    intros H; injection H as <- <-; [|auto].
  destruct (serve_sameRecords _ _ E) as (Hr & Hn & _). right. simpl.
  rewrite Hr, Hn. auto.
Qed.

(** One turn of the loop: both store calls, the first only, or none. *)
Lemma demoteAndRelink_result now t o w r w' :
  In (Contact.id o) (map Contact.id (rows w)) ->
  demoteAndRelink now (Some t) o w = (r, w') ->
  (r = inr tt /\ rows w' = mergeStep now (Contact.id t) (rows w) o) \/
  (r = inl StoreFailure /\
   (rows w' = rows w \/
    rows w' = updateRows (hasId (Contact.id o)) (demote (Contact.id t) now) (rows w))).
Proof.
  intros Hin H. unfold demoteAndRelink in H. cbn [idOf] in H.
  unfold bind at 1, ret at 1 in H. unfold bind at 1 in H.
  destruct (update (Contact.id o) (demote (Contact.id t) now) w) as [[e|[]] w1] eqn:E1.
  - injection H as <- <-.
    destruct (update_result _ _ _ _ _ Hin E1) as [[-> ->]|[? _]]; [auto|discriminate].
  - destruct (update_result _ _ _ _ _ Hin E1) as [[? _]|(_ & Hr1 & _)]; [discriminate|].
    unfold bind at 1, ret at 1 in H.
    destruct (updateMany_result _ _ _ _ _ H) as [[-> ->]|(-> & Hr2 & _)].
    + right. auto.
    + left. split; auto. rewrite Hr2, Hr1. reflexivity.
Qed.

(** The loop on a store that may fail: all the turns, or a prefix of them
    and perhaps the demotion of the next turn. *)
Lemma forEach_demoteAndRelink_result now t others w r w' :
  (forall o, In o others -> In (Contact.id o) (map Contact.id (rows w))) ->
  forEach others (demoteAndRelink now (Some t)) w = (r, w') ->
  (r = inr tt /\ rows w' = mergeRows now (Contact.id t) others (rows w)) \/
  (r = inl StoreFailure /\
   exists k half, (k < length others)%nat /\
     rows w' = mergePrefix now (Contact.id t) others k half (rows w)).
Proof.
  revert w. induction others as [|o os IH]; intros w Hin H; simpl in H.
  - injection H as <- <-. left. auto.
  - unfold bind at 1 in H.
    destruct (demoteAndRelink now (Some t) o w) as [[e1|[]] w1] eqn:E1.
    + injection H as <- <-. right.
      destruct (demoteAndRelink_result _ _ _ _ _ _ (Hin o (or_introl eq_refl)) E1)
        as [[? _]|[-> [Hr|Hr]]]; [discriminate| |]; split; auto.
      * exists 0%nat, false. split; [simpl; lia|]. exact Hr.
      * exists 0%nat, true. split; [simpl; lia|]. exact Hr.
    + destruct (demoteAndRelink_result _ _ _ _ _ _ (Hin o (or_introl eq_refl)) E1)
        as [[_ Hr1]|[? _]]; [|discriminate].
      assert (forall o', In o' os -> In (Contact.id o') (map Contact.id (rows w1))) as Hin1.
      { intros o' Ho'. rewrite Hr1, mergeStep_ids. apply Hin. right; auto. }
      destruct (IH w1 Hin1 H) as [[-> Hr]|[-> (k & half & Hk & Hr)]].
      * left. split; auto. rewrite Hr, Hr1. reflexivity.
      * right. split; auto. exists (S k), half. split; [simpl; lia|].
        rewrite Hr, Hr1. reflexivity.
Qed.

Lemma findMany_state where_ w r w' :
  findMany where_ w = (r, w') ->
  rows w' = rows w /\ nextId w' = nextId w /\
  (r = inl StoreFailure \/ r = inr (selectRows where_ (rows w))).
Proof.
  unfold findMany. destruct (serve w) as [w1|] eqn:E; intros H; injection H as <- <-.
  - destruct (serve_sameRecords _ _ E) as (Hr & Hn & _). simpl. rewrite Hr. auto.
  - auto.
Qed.

(** The table after any run of [identifyContact]. *)
Lemma identify_table now req w r w' :
  identifyContact now req w = (r, w') ->
  rows w' = rows w \/
  (matchesOf req (rows w) = [] /\
   rows w' = rows w ++ [newRow (nextId w) now (IdentifyRequest.email req)
                               (IdentifyRequest.phoneNumber req) None primary]) \/
  exists t others,
    matchesOf req (rows w) <> [] /\
    primariesOf (candidatesOf req (rows w)) = t :: others /\
    ((r = inl StoreFailure /\
      exists k half, (k < length others)%nat /\
        rows w' = mergePrefix now (Contact.id t) others k half (rows w)) \/
     rows w' = mergeRows now (Contact.id t) others (rows w) \/
     rows w' = mergeRows now (Contact.id t) others (rows w) ++
               [secondaryFor now req w t]).
Proof.
  unfold identifyContact. intros H.
  destruct (negb (truthy (IdentifyRequest.email req)) &&
            negb (truthy (IdentifyRequest.phoneNumber req))).
  { injection H as _ <-. auto. }
  bind_step H ms w1 E1.
  { left. eapply findMany_state; eauto. }
  destruct (findMany_state _ _ _ _ E1) as (Hr1 & Hn1 & [Hr|Hr]); [discriminate|].
  injection Hr as Hms. fold (matchesOf req (rows w)) in Hms.
  rewrite length_eqb_0 in H. destruct ms as [|m ms'].
  - bind_step H c w2 E2.
    { left. destruct (create_appends _ _ _ _ _ _ _ _ E2) as [[_ ->]|[? _]];
        [auto|discriminate]. }
    destruct (create_appends _ _ _ _ _ _ _ _ E2) as [[? _]|(Hc & Hrows & _)];
      [discriminate|].
    apply buildResponse_any in H. subst w'.
    right. left. split; auto. rewrite Hrows, Hr1, Hn1. reflexivity.
  - assert (matchesOf req (rows w) <> []) as Hne by (rewrite <- Hms; discriminate).
    bind_step H cands w2 E2.
    { left. destruct (findMany_state _ _ _ _ E2) as (-> & _). exact Hr1. }
    destruct (findMany_state _ _ _ _ E2) as (Hr2 & Hn2 & [Hr|Hr]); [discriminate|].
    injection Hr as Hcands. rewrite Hms, Hr1 in Hcands.
    fold (candidatesOf req (rows w)) in Hcands.
    rewrite Hr1 in Hr2. rewrite Hn1 in Hn2. clear E1 E2 Hr1 Hn1.
    destruct (primariesOf cands) as [|t others] eqn:Ep; cbn [hd_error tl] in H.
    + left. cbn [length Nat.ltb Nat.leb] in H. unfold bind at 1, ret at 1 in H.
      destruct (createsSecondary _ _ cands); cbn [idOf] in H;
        unfold bind, throw, ret in H; injection H as _ <-; exact Hr2.
    + right. right. exists t, others. split; [exact Hne|]. split; [rewrite <- Hcands; exact Ep|].
      assert (forall o, In o others -> In (Contact.id o) (map Contact.id (rows w2))) as Hin.
      { intros o Ho. apply in_map. rewrite Hr2.
        assert (In o cands) as Hoc.
        { apply (proj1 (primariesOf_In o cands)). rewrite Ep. right; auto. }
        rewrite Hcands in Hoc. apply candidatesOf_In in Hoc. tauto. }
      bind_step H members w3 E3.
      { destruct (0 <? length others)%nat; [|discriminate].
        bind_step E3 u w4 E4.
        - destruct (forEach_demoteAndRelink_result _ _ _ _ _ _ Hin E4)
            as [[? _]|[He (k & half & Hk & Hr4)]]; [discriminate|].
          injection He as ->. left. split; auto. exists k, half. split; auto. rewrite Hr4, Hr2. reflexivity.
        - destruct (forEach_demoteAndRelink_result _ _ _ _ _ _ Hin E4)
            as [[_ Hr4]|[? _]]; [|discriminate].
          cbn [idOf] in E3. unfold bind at 1, ret at 1 in E3.
          destruct (findMany_state _ _ _ _ E3) as (-> & _).
          right. left. rewrite Hr4, Hr2. reflexivity. }
      assert (rows w3 = mergeRows now (Contact.id t) others (rows w) /\
              nextId w3 = nextId w) as [Hr3 Hn3].
      { destruct others as [|o os].
        - injection E3 as _ <-. auto.
        - assert ((0 <? length (o :: os))%nat = true) as Hlt by reflexivity.
          rewrite Hlt in E3.
          bind_step E3 u w4 E4.
          destruct (forEach_demoteAndRelink_result _ _ _ _ _ _ Hin E4)
            as [[_ Hr4]|[? _]]; [|discriminate].
          apply forEach_demoteAndRelink_keeps in E4. destruct E4 as [_ Hn4].
          cbn [idOf] in E3. unfold bind at 1, ret at 1 in E3.
          destruct (findMany_state _ _ _ _ E3) as (-> & -> & _).
          rewrite Hr4, Hr2, Hn4. auto. }
      clear E3.
      bind_step H members2 w4 E4.
      { destruct (createsSecondary _ _ members); [|discriminate].
        cbn [idOf] in E4. unfold bind at 1, ret at 1 in E4.
        bind_step E4 c w5 E5; [|discriminate].
        destruct (create_appends _ _ _ _ _ _ _ _ E5) as [[_ ->]|[? _]]; [|discriminate].
        right. left. exact Hr3. }
      cbn [idOf] in H. unfold bind at 1, ret at 1 in H.
      apply buildResponse_any in H. subst w'.
      destruct (createsSecondary _ _ members).
      * cbn [idOf] in E4. unfold bind at 1, ret at 1 in E4.
        bind_step E4 c w5 E5. injection E4 as _ <-.
        destruct (create_appends _ _ _ _ _ _ _ _ E5) as [[? _]|(_ & Hrows & _)];
          [discriminate|].
        right. right. rewrite Hrows, Hr3, Hn3. reflexivity.
      * injection E4 as _ <-. right. left. exact Hr3.
Qed.

(** X24 (identifyContact, lines 62-73, 111-148 and 167-177): every table
    that a run can leave behind, whether or not the store fails.  The table
    is as it was; or, when nothing matched, it has the fresh primary at its
    end; or, with [t] the true primary and [others] the primaries to
    demote, the run was cut short in the loop and the table is the one
    after [k] full turns, perhaps with the demotion of the next turn and
    not its re-link; or the loop is complete, with or without the new
    secondary at the end. *)
Theorem table_after_any_run now req w :
  let r := fst (identifyContact now req w) in
  let rs' := rows (snd (identifyContact now req w)) in
  rs' = rows w \/
  (matchesOf req (rows w) = [] /\
   rs' = rows w ++ [newRow (nextId w) now (IdentifyRequest.email req)
                           (IdentifyRequest.phoneNumber req) None primary]) \/
  exists t others,
    matchesOf req (rows w) <> [] /\
    primariesOf (candidatesOf req (rows w)) = t :: others /\
    ((r = inl StoreFailure /\
      exists k half, (k < length others)%nat /\
        rs' = mergePrefix now (Contact.id t) others k half (rows w)) \/
     rs' = mergeRows now (Contact.id t) others (rows w) \/
     rs' = mergeRows now (Contact.id t) others (rows w) ++ [secondaryFor now req w t]).
Proof.
  destruct (identifyContact now req w) as [r w'] eqn:E. cbn [fst snd].
  exact (identify_table now req w r w' E).
Qed.

(** ** What no run repairs *)

Lemma firstn_incl {A} k (l : list A) x : In x (firstn k l) -> In x l.
Proof.
  revert l. induction k as [|k IH]; intros [|y l] H; simpl in *; try contradiction.
  destruct H as [->|H]; auto.
Qed.

Lemma mergeStep1_fix now tid c o :
  Contact.id o <> Contact.id c ->
  Contact.linkedId c <> Some (Contact.id o) ->
  mergeStep1 now tid c o = c.
Proof.
  intros Hid Hlink. unfold mergeStep1, hasId.
  destruct (Z.eqb_spec (Contact.id c) (Contact.id o)) as [E|_]; [congruence|].
  unfold linkedToWhere, linkIs. destruct (Contact.linkedId c) as [l|]; [|reflexivity].
  destruct (Z.eqb_spec l (Contact.id o)) as [E|_]; [congruence|reflexivity].
Qed.

Lemma mergeOne_fix now tid os c :
  (forall o, In o os ->
     Contact.id o <> Contact.id c /\ Contact.linkedId c <> Some (Contact.id o)) ->
  mergeOne now tid os c = c.
Proof.
  induction os as [|o os IH]; intros H; [reflexivity|].
  unfold mergeOne in *. simpl.
  destruct (H o (or_introl eq_refl)) as [H1 H2].
  rewrite (mergeStep1_fix now tid c o H1 H2). apply IH.
  intros o' Ho'. apply H. right; exact Ho'.
Qed.

(** A row that the loop has no reason to write is in the table at every
    stage of the loop. *)
Lemma mergePrefix_fix now tid others k half rs c :
  (forall o, In o others ->
     Contact.id o <> Contact.id c /\ Contact.linkedId c <> Some (Contact.id o)) ->
  In c rs -> In c (mergePrefix now tid others k half rs).
Proof.
  intros H Hc.
  assert (In c (mergeRows now tid (firstn k others) rs)) as Hdone.
  { rewrite mergeRows_map. apply in_map_iff. exists c. split; auto.
    apply mergeOne_fix. intros o Ho. apply H. eapply firstn_incl; eauto. }
  unfold mergePrefix. destruct (nth_error others k) as [o|] eqn:En; auto.
  destruct half; auto. unfold updateRows. apply in_map_iff. exists c. split; auto.
  apply nth_error_In in En. destruct (H o En) as [H1 _]. unfold hasId.
  destruct (Z.eqb_spec (Contact.id c) (Contact.id o)); [congruence|reflexivity].
Qed.

(** X25 (identifyContact, lines 101-135): the loop writes the primaries it
    demotes and the rows linked to them, and no other call writes a link.
    So, with distinct ids, a secondary whose link does not point at a
    primary (it points at a secondary, at no row, or nowhere) is still in
    the table, unchanged, after any run, whether or not the store fails:
    no call re-links the rows that a call cut short between a demotion
    and its re-link has left behind. *)
Theorem unlinked_secondary_is_never_written now req w c :
  distinctIds (map Contact.id (rows w)) = true ->
  In c (rows w) ->
  isSecondary c = true ->
  (forall p, In p (rows w) -> Contact.linkedId c = Some (Contact.id p) ->
             isPrimary p = false) ->
  In c (rows (snd (identifyContact now req w))).
Proof.
  intros Hd Hc Hs Hlink. apply distinctIds_NoDup in Hd.
  destruct (identifyContact now req w) as [r w'] eqn:E. cbn [snd].
  destruct (identify_table now req w r w' E)
    as [->|[[_ ->]|(t & others & _ & Hp & H)]]; auto.
  - apply in_or_app. auto.
  - assert (forall o, In o others ->
              Contact.id o <> Contact.id c /\ Contact.linkedId c <> Some (Contact.id o))
      as Hfix.
    { intros o Ho.
      destruct (primaries_in_rows req w t others Hp o (or_intror Ho)) as (Hor & _ & Hop).
      split.
      - intros Eid. assert (o = c) by (apply (same_id_same_row (rows w)); auto).
        subst o. unfold isPrimary, isSecondary in *.
        destruct (Contact.linkPrecedence c); discriminate.
      - intros El. rewrite (Hlink o Hor El) in Hop. discriminate. }
    assert (In c (mergeRows now (Contact.id t) others (rows w))) as Hfull.
    { rewrite mergeRows_map. apply in_map_iff. exists c. split; auto.
      apply mergeOne_fix. exact Hfix. }
    destruct H as [(_ & k & half & _ & ->)|[->| ->]]; auto.
    + apply mergePrefix_fix; auto.
    + apply in_or_app. auto.
Qed.

Lemma unlinked_secondary_witness :
  let p1 := Contact.mk 1 (Some "a@x.com"%string) (Some "111"%string) None primary 10 10 None in
  let s2 := Contact.mk 2 (Some "b@x.com"%string) (Some "222"%string) (Some 1) secondary 20 30 None in
  let s3 := Contact.mk 3 (Some "c@x.com"%string) (Some "222"%string) (Some 2) secondary 25 25 None in
  let w := mkWorld [p1; s2; s3] 4 [] None in
  let req := IdentifyRequest.mk (Some "a@x.com"%string) (Some "222"%string) in
  fst (identifyContact 40 req w) =
  inr (IdentifyResponse.mk 1 ["a@x.com"%string; "b@x.com"%string; "c@x.com"%string]
                           ["111"%string; "222"%string] [2; 3]) /\
  In s3 (rows (snd (identifyContact 40 req w))).
Proof.
  intros p1 s2 s3 w req. split; [reflexivity|].
  apply (unlinked_secondary_is_never_written 40 req w s3); try reflexivity.
  - right. right. left. reflexivity.
  - intros p [<-|[<-|[<-|[]]]] E; try reflexivity; discriminate E.
Defined.

Lemma mergeStep1_no_promotion now tid c o :
  isPrimary (mergeStep1 now tid c o) = true -> isPrimary c = true.
Proof.
  unfold mergeStep1.
  destruct (hasId (Contact.id o) c);
    match goal with |- context [if ?b then _ else _] => destruct b end;
    simpl; auto; discriminate.
Qed.

Lemma mergeOne_no_promotion now tid os c :
  isPrimary (mergeOne now tid os c) = true -> isPrimary c = true.
Proof.
  revert c. induction os as [|o os IH]; intros c H; [exact H|].
  unfold mergeOne in *. simpl in H. apply IH in H.
  eapply mergeStep1_no_promotion; eauto.
Qed.

Lemma identityOf_mergeOne now tid os c :
  identityOf (mergeOne now tid os c) = identityOf c.
Proof.
  unfold identityOf.
  destruct (mergeOne_keeps now tid os c) as (-> & -> & -> & -> & ->). reflexivity.
Qed.

(** A primary of the table at any stage of the loop was a primary before
    the loop. *)
Lemma mergePrefix_no_promotion now tid others k half rs c' :
  In c' (mergePrefix now tid others k half rs) -> isPrimary c' = true ->
  exists c, In c rs /\ isPrimary c = true /\ identityOf c = identityOf c'.
Proof.
  assert (forall x, In x (mergeRows now tid (firstn k others) rs) -> isPrimary x = true ->
            exists c, In c rs /\ isPrimary c = true /\ identityOf c = identityOf x)
    as Hdone.
  { intros x Hx Hp. rewrite mergeRows_map in Hx. apply in_map_iff in Hx.
    destruct Hx as (c & <- & Hc). exists c. split; auto. split.
    - eapply mergeOne_no_promotion; eauto.
    - symmetry. apply identityOf_mergeOne. }
  unfold mergePrefix. destruct (nth_error others k) as [o|]; auto.
  destruct half; auto. intros Hin Hp. unfold updateRows in Hin.
  apply in_map_iff in Hin. destruct Hin as (c1 & E & Hc1).
  destruct (hasId (Contact.id o) c1); subst c'; [discriminate|auto].
Qed.

(** X26 (identifyContact, lines 62-73, 115-134 and 167-177): no call
    turns a contact into a primary.  Whatever the table and whether or not
    the store fails, a primary of the table after a run was a primary
    before the run, with the same id, email, phoneNumber, createdAt and
    deletedAt, unless it is the fresh primary that the run created when
    nothing matched: a demotion is never undone. *)
Theorem no_contact_becomes_primary now req w c' :
  In c' (rows (snd (identifyContact now req w))) ->
  isPrimary c' = true ->
  (exists c, In c (rows w) /\ isPrimary c = true /\ identityOf c = identityOf c') \/
  (matchesOf req (rows w) = [] /\
   c' = newRow (nextId w) now (IdentifyRequest.email req)
               (IdentifyRequest.phoneNumber req) None primary).
Proof.
  destruct (identifyContact now req w) as [r w'] eqn:E. cbn [snd]. intros Hin Hp.
  destruct (identify_table now req w r w' E)
    as [Hr|[[Hm Hr]|(t & others & _ & _ & H)]].
  - rewrite Hr in Hin. left. eauto.
  - rewrite Hr in Hin. apply in_app_or in Hin. destruct Hin as [Hin|[<-|[]]].
    + left. eauto.
    + right. auto.
  - left.
    assert (forall x, In x (mergeRows now (Contact.id t) others (rows w)) ->
              isPrimary x = true ->
              exists c, In c (rows w) /\ isPrimary c = true /\ identityOf c = identityOf x)
      as Hfull.
    { intros x Hx Hpx. rewrite mergeRows_map in Hx. apply in_map_iff in Hx.
      destruct Hx as (c & <- & Hc). exists c. split; auto. split.
      - eapply mergeOne_no_promotion; eauto.
      - symmetry. apply identityOf_mergeOne. }
    destruct H as [(_ & k & half & _ & Hr)|[Hr|Hr]]; rewrite Hr in Hin.
    + eapply mergePrefix_no_promotion; eauto.
    + auto.
    + apply in_app_or in Hin. destruct Hin as [Hin|[<-|[]]]; [auto|discriminate].
Qed.

Lemma no_contact_becomes_primary_witness :
  let p1 := Contact.mk 1 (Some "a@x.com"%string) (Some "111"%string) None primary 10 10 None in
  let p2 := Contact.mk 2 (Some "b@x.com"%string) (Some "222"%string) None primary 20 20 None in
  let w := mkWorld [p1; p2] 3 [] None in
  let req := IdentifyRequest.mk (Some "a@x.com"%string) (Some "222"%string) in
  rows (snd (identifyContact 30 req w)) = [p1; demote 1 30 p2] /\
  ((exists c, In c (rows w) /\ isPrimary c = true /\ identityOf c = identityOf p1) \/
   (matchesOf req (rows w) = [] /\
    p1 = newRow (nextId w) 30 (IdentifyRequest.email req)
                (IdentifyRequest.phoneNumber req) None primary)).
Proof.
  intros p1 p2 w req. split; [reflexivity|].
  apply (no_contact_becomes_primary 30 req w p1); [left|]; reflexivity.
Defined.


(** ** The route, request after request *)





(** ** The cluster of the specification and the lists that the code reads *)

Lemma forest_secondariesLinked w : forest w = true -> secondariesLinked w = true.
Proof.
  intros Hf. destruct (forest_elim w Hf) as (_ & _ & Hw).
  unfold secondariesLinked. apply forallb_forall. intros c Hc. specialize (Hw c Hc).
  unfold treeLinked, isPrimary in *. destruct (negb (notDeleted c)); simpl in *; auto.
  destruct (Contact.linkPrecedence c), (Contact.linkedId c); simpl; auto.
Qed.

Lemma supplied_truthy v : supplied v = truthy v.
Proof. destruct v as [s|]; [|reflexivity]. simpl. destruct (String.eqb s EmptyString); reflexivity. Qed.

Lemma specSame_sameText col v : truthy v = true -> specSame col v = sameText col v.
Proof. destruct v as [y|]; [|discriminate]. destruct col; reflexivity. Qed.

Lemma specMatch_matchingWhere email phoneNumber c :
  specMatch email phoneNumber c = matchingWhere email phoneNumber c.
Proof.
  unfold specMatch, matchingWhere, matchingOR, notDeleted.
  rewrite (supplied_truthy email), (supplied_truthy phoneNumber).
  destruct (Contact.deletedAt c); [reflexivity|]. simpl.
  destruct (truthy email) eqn:He, (truthy phoneNumber) eqn:Hp; simpl;
    rewrite ?specSame_sameText by assumption; rewrite ?orb_false_r; reflexivity.
Qed.

Lemma specMatches_matchesOf req rs :
  filter (specMatch (IdentifyRequest.email req) (IdentifyRequest.phoneNumber req)) rs <> [] <->
  matchesOf req rs <> [].
Proof.
  assert (forall m, In m (filter (specMatch (IdentifyRequest.email req)
                                            (IdentifyRequest.phoneNumber req)) rs) <->
                    In m (matchesOf req rs)) as H.
  { intros m. rewrite matchesOf_In, filter_In, specMatch_matchingWhere. reflexivity. }
  split; intros Hne E.
  - destruct (filter _ rs) as [|m ms] eqn:Ef; [congruence|].
    assert (In m (matchesOf req rs)) as Hin by (apply H; left; reflexivity).
    rewrite E in Hin. contradiction.
  - destruct (matchesOf req rs) as [|m ms] eqn:Em; [congruence|].
    assert (In m (filter (specMatch (IdentifyRequest.email req)
                                    (IdentifyRequest.phoneNumber req)) rs)) as Hin
        by (apply H; left; reflexivity).
    rewrite E in Hin. contradiction.
Qed.

Lemma specCluster_In email phoneNumber rs c :
  In c (specCluster email phoneNumber rs) <->
  In c rs /\ notDeleted c = true /\
  exists m, In m rs /\ matchingWhere email phoneNumber m = true /\
            rootId c = rootId m /\ rootId c <> None.
Proof.
  unfold specCluster. rewrite filter_In. unfold notDeleted.
  change (specRoot c) with (rootId c).
  split.
  - intros [Hc H]. split; auto.
    destruct (Contact.deletedAt c); [discriminate|]. split; auto.
    destruct (rootId c) as [r|] eqn:Er; [|discriminate].
    unfold specTouched in H. apply existsb_exists in H. destruct H as (m & Hm & H).
    apply andb_true_iff in H. destruct H as [Hmatch Hr].
    rewrite specMatch_matchingWhere in Hmatch.
    change (specRoot m) with (rootId m) in Hr.
    destruct (rootId m) as [r'|] eqn:Em; [|discriminate]. apply Z.eqb_eq in Hr.
    exists m. repeat split; auto; congruence.
  - intros (Hc & Hl & m & Hm & Hmatch & Er & Hne). split; auto.
    destruct (Contact.deletedAt c); [discriminate|].
    destruct (rootId c) as [r|]; [|congruence].
    unfold specTouched. apply existsb_exists. exists m. split; auto.
    rewrite specMatch_matchingWhere, Hmatch. change (specRoot m) with (rootId m).
    rewrite <- Er. simpl. apply Z.eqb_refl.
Qed.

(** In a forest without orphans the candidates of line 89 are the live
    contacts that have the root of a match. *)
Lemma candidates_roots req w c :
  liveForest w = true ->
  In c (candidatesOf req (rows w)) <->
  In c (rows w) /\ notDeleted c = true /\
  exists m, In m (matchesOf req (rows w)) /\ rootId c = rootId m.
Proof.
  intros Hf. destruct (liveForest_elim w Hf) as (Hnd & _ & Hwl).
  unfold candidatesOf. rewrite selectRows_In. unfold clustersWhere.
  split.
  - intros [Hc H]. apply andb_true_iff in H. destruct H as [Hl H].
    split; auto. split; auto.
    destruct (isPrimary c) eqn:Ep.
    + assert (rootId c = Some (Contact.id c)) as Er.
      { unfold rootId. unfold isPrimary in Ep.
        destruct (Contact.linkPrecedence c); [reflexivity|discriminate]. }
      rewrite (wellLinked_primary _ _ (Hwl c Hc) Hl Ep) in H. simpl in H.
      rewrite orb_false_r in H. apply inIds_iff, collectRootIds_In in H.
      destruct H as (m & Hm & Hr). exists m. split; auto. congruence.
    + destruct (wellLinked_secondary _ _ (Hwl c Hc) Hl Ep) as (l & El & _).
      assert (rootId c = Some l) as Er by (rewrite rootId_secondary; auto).
      apply orb_true_iff in H. destruct H as [H|H].
      * exfalso. apply inIds_iff, collectRootIds_In in H. destruct H as (m & Hm & Hr).
        apply matchesOf_In in Hm. destruct Hm as [Hmrow Hmw].
        apply matchingWhere_live in Hmw.
        destruct (liveForest_root w m Hf Hmrow Hmw) as (p & Hp & Hrp & _ & Hpp & _).
        assert (p = c).
        { apply (same_id_same_row (rows w)); auto. congruence. }
        subst p. congruence.
      * rewrite El in H. apply inIds_iff, collectRootIds_In in H.
        destruct H as (m & Hm & Hr). exists m. split; auto. congruence.
  - intros (Hc & Hl & m & Hm & Er). split; auto. rewrite Hl. simpl.
    destruct (liveForest_root w c Hf Hc Hl) as (p & _ & Hrp & _).
    assert (In (Some (Contact.id p)) (collectRootIds (matchesOf req (rows w)))) as Hin.
    { apply collectRootIds_In. exists m. split; auto. congruence. }
    destruct (isPrimary c) eqn:Ep.
    + assert (rootId c = Some (Contact.id c)) as Erc.
      { unfold rootId. unfold isPrimary in Ep.
        destruct (Contact.linkPrecedence c); [reflexivity|discriminate]. }
      apply orb_true_iff. left. apply inIds_iff. congruence.
    + rewrite rootId_secondary in Hrp by assumption. rewrite Hrp.
      apply orb_true_iff. right. apply inIds_iff. exact Hin.
Qed.

Lemma specCluster_candidates req w c :
  liveForest w = true ->
  In c (specCluster (IdentifyRequest.email req) (IdentifyRequest.phoneNumber req) (rows w)) <->
  In c (candidatesOf req (rows w)).
Proof.
  intros Hf. rewrite specCluster_In, (candidates_roots req w c Hf). split.
  - intros (Hc & Hl & m & Hm & Hmw & Er & _). split; auto. split; auto.
    exists m. split; auto. apply matchesOf_In. auto.
  - intros (Hc & Hl & m & Hm & Er). split; auto. split; auto.
    apply matchesOf_In in Hm. destruct Hm as [Hmrow Hmw].
    exists m. repeat split; auto.
    destruct (liveForest_root w c Hf Hc Hl) as (p & _ & Hrp & _). congruence.
Qed.

(** In a forest without orphans the members that step 6 reads are the
    candidates of line 89, as the loop of step 5 has left them. *)
Lemma cluster_from_candidates now req w t others x :
  liveForest w = true ->
  matchesOf req (rows w) <> [] ->
  primariesOf (candidatesOf req (rows w)) = t :: others ->
  In x (clusterOf now req (rows w) t others) <->
  exists c0, In c0 (candidatesOf req (rows w)) /\
             x = mergeOne now (Contact.id t) others c0.
Proof.
  intros Hf Hne Hp.
  pose proof (liveForest_forest w Hf) as Hwf.
  pose proof (liveForest_after now req w t others Hwf Hp Hf) as Hf'.
  pose proof (truePrimary_not_demoted req w t others Hwf Hp) as Ht.
  assert (forall c0, In c0 (rows w) ->
            (membersWhere (Contact.id t) (mergeOne now (Contact.id t) others c0) = true <->
             In c0 (candidatesOf req (rows w)))) as Hkey.
  { intros c0 Hc0. split.
    - intros Hmw.
      assert (notDeleted c0 = true) as Hl.
      { unfold membersWhere in Hmw. apply andb_true_iff in Hmw.
        rewrite mergeOne_notDeleted in Hmw. tauto. }
      assert (rootId (mergeOne now (Contact.id t) others c0) = Some (Contact.id t)) as Hr.
      { apply (member_root (worldAfter now req w t others) t); auto.
        - apply truePrimary_in_after; auto.
        - apply (primaries_in_rows req w t others Hp t). left. reflexivity.
        - apply merged_in_after. exact Hc0. }
      rewrite (root_after_merge now req w t others c0 Hf Hp Hc0 Hl) in Hr.
      assert (exists p, In p (t :: others) /\ rootId c0 = Some (Contact.id p))
        as (p & Hpin & Hrp).
      { destruct (rootId c0) as [r|]; [|discriminate].
        destruct (isOther others r) eqn:Eo.
        - apply isOther_In, in_map_iff in Eo. destruct Eo as (o & <- & Ho).
          exists o. split; [right; exact Ho|reflexivity].
        - exists t. split; [left; reflexivity|exact Hr]. }
      assert (In p (candidatesOf req (rows w)) /\ isPrimary p = true) as [Hpc Hpp].
      { apply primariesOf_In. rewrite Hp. exact Hpin. }
      apply (candidates_roots req w p Hf) in Hpc.
      destruct Hpc as (_ & _ & m & Hm & Erm).
      apply (candidates_roots req w c0 Hf). split; auto. split; auto.
      exists m. split; auto. rewrite Hrp, <- Erm. unfold rootId.
      unfold isPrimary in Hpp. destruct (Contact.linkPrecedence p); [reflexivity|discriminate].
    - intros Hc. apply (candidates_roots req w c0 Hf) in Hc.
      destruct Hc as (_ & Hl & m & Hm & Erm).
      destruct (match_root req w t others m Hf Hp Hm) as (p & Hpin & Hrp & _).
      apply root_member; [rewrite mergeOne_notDeleted; exact Hl|].
      rewrite (root_after_merge now req w t others c0 Hf Hp Hc0 Hl), Erm, Hrp.
      destruct Hpin as [<-|Hpin]; [rewrite Ht; reflexivity|].
      assert (isOther others (Contact.id p) = true) as ->; [|reflexivity].
      apply isOther_In. apply in_map. exact Hpin. }
  rewrite (cluster_members now req w t others x Hf Hne Hp), mergeRows_map, in_map_iff.
  split.
  - intros [(c0 & <- & Hc0) Hmw]. exists c0. split; auto. apply Hkey; auto.
  - intros (c0 & Hc & ->).
    assert (In c0 (rows w)) as Hc0 by (apply candidatesOf_In in Hc; tauto).
    split; [eauto|]. apply Hkey; auto.
Qed.

Lemma specPresent_In col v members :
  truthy v = true ->
  (specPresent col v members = true <-> In v (map col members)).
Proof.
  intros Hv. unfold specPresent. rewrite existsb_exists, in_map_iff.
  split; intros (c & H1 & H2); exists c.
  - rewrite (specSame_sameText _ _ Hv) in H2. apply sameText_eq in H2. auto.
  - split; auto. rewrite (specSame_sameText _ _ Hv). apply sameText_eq. exact H1.
Qed.

(** The members that step 6 reads hold the values that the cluster of the
    specification holds. *)
Lemma cluster_values now req w t others (col : Contact.t -> option string) v :
  liveForest w = true ->
  matchesOf req (rows w) <> [] ->
  primariesOf (candidatesOf req (rows w)) = t :: others ->
  (forall c, col (mergeOne now (Contact.id t) others c) = col c) ->
  (In v (map col (clusterOf now req (rows w) t others)) <->
   In v (map col (specCluster (IdentifyRequest.email req)
                              (IdentifyRequest.phoneNumber req) (rows w)))).
Proof.
  intros Hf Hne Hp Hcol. rewrite !in_map_iff. split.
  - intros (x & Ex & Hx).
    apply (cluster_from_candidates now req w t others x Hf Hne Hp) in Hx.
    destruct Hx as (c0 & Hc0 & ->). exists c0. rewrite Hcol in Ex. split; auto.
    apply specCluster_candidates; auto.
  - intros (c0 & Ec & Hc0). apply specCluster_candidates in Hc0; auto.
    exists (mergeOne now (Contact.id t) others c0). rewrite Hcol. split; auto.
    apply (cluster_from_candidates now req w t others _ Hf Hne Hp). eauto.
Qed.

(** The condition of line 167 on the members that the code has read is the
    condition of section 4.3 on the cluster of the specification. *)
Lemma createsSecondary_specCreates now req w t others :
  liveForest w = true ->
  matchesOf req (rows w) <> [] ->
  primariesOf (candidatesOf req (rows w)) = t :: others ->
  createsFor now req w t others =
  specCreates (IdentifyRequest.email req) (IdentifyRequest.phoneNumber req)
              (specCluster (IdentifyRequest.email req) (IdentifyRequest.phoneNumber req)
                           (rows w)).
Proof.
  intros Hf Hne Hp. unfold createsFor. apply bool_eq_iff.
  rewrite createsSecondary_iff. unfold newPairing, specCreates.
  rewrite (supplied_truthy (IdentifyRequest.email req)),
          (supplied_truthy (IdentifyRequest.phoneNumber req)).
  pose proof (fun v => cluster_values now req w t others Contact.email v Hf Hne Hp
                (fun c => proj1 (proj2 (mergeOne_keeps now (Contact.id t) others c))))
    as He.
  pose proof (fun v => cluster_values now req w t others Contact.phoneNumber v Hf Hne Hp
                (fun c => proj1 (proj2 (proj2 (mergeOne_keeps now (Contact.id t) others c)))))
    as Hph.
  destruct (truthy (IdentifyRequest.email req)) eqn:Te;
    [|split; [intros (_ & ? & _); discriminate|rewrite andb_false_r; discriminate]].
  destruct (truthy (IdentifyRequest.phoneNumber req)) eqn:Tp;
    [|split; [intros (_ & _ & ?); discriminate|rewrite andb_false_r; discriminate]].
  simpl. rewrite andb_true_r, orb_true_iff, !negb_true_iff.
  pose proof (specPresent_In Contact.email (IdentifyRequest.email req)
                (specCluster (IdentifyRequest.email req) (IdentifyRequest.phoneNumber req)
                             (rows w)) Te) as Pe.
  pose proof (specPresent_In Contact.phoneNumber (IdentifyRequest.phoneNumber req)
                (specCluster (IdentifyRequest.email req) (IdentifyRequest.phoneNumber req)
                             (rows w)) Tp) as Pp.
  split.
  - intros ([H|H] & _); [left|right].
    + destruct (specPresent Contact.email _ _); auto. exfalso. apply H, He, Pe. reflexivity.
    + destruct (specPresent Contact.phoneNumber _ _); auto.
      exfalso. apply H, Hph, Pp. reflexivity.
  - intros [H|H]; (split; [|auto]); [left|right]; intros Hin.
    + apply He, Pe in Hin. congruence.
    + apply Hph, Pp in Hin. congruence.
Qed.

(** ** Creation of a secondary (claim C3) *)

(** C3, as amended: in a forest without orphans, on a store that does not
    fail, when matches exist the call answers, its primary is the earliest
    primary of the cluster that the request resolves to, and it creates a
    contact if and only if the request supplies both identifiers and one
    of them is in no member of that cluster; the record created holds the
    email and the phone number of the request, [linkedId = truePrimary.id]
    and [linkPrecedence = secondary], and it is the only row added to the
    table.  The matches, the cluster and the condition are those of
    sections 4.1 to 4.3 of the specification, read on the table before
    the call. *)
Theorem secondary_created_iff_new_pairing now req w :
  failAfter w = None ->
  liveForest w = true ->
  let email := IdentifyRequest.email req in
  let phoneNumber := IdentifyRequest.phoneNumber req in
  filter (specMatch email phoneNumber) (rows w) <> [] ->
  let cluster := specCluster email phoneNumber (rows w) in
  exists resp w',
    identifyContact now req w = (inr resp, w') /\
    (exists t, In t cluster /\ Contact.linkPrecedence t = primary /\
               Contact.id t = IdentifyResponse.primaryContactId resp /\
               forall p, In p cluster -> Contact.linkPrecedence p = primary ->
                         Contact.createdAt t <= Contact.createdAt p) /\
    let c := Contact.mk (nextId w) email phoneNumber
                        (Some (IdentifyResponse.primaryContactId resp)) secondary
                        now now None in
    if specCreates email phoneNumber cluster
    then creations (log w') = c :: creations (log w) /\
         exists kept, rows w' = kept ++ [c] /\
                      map Contact.id kept = map Contact.id (rows w)
    else creations (log w') = creations (log w) /\
         map Contact.id (rows w') = map Contact.id (rows w).
Proof.
  intros Hnf Hf email phoneNumber Hm cluster.
  apply specMatches_matchesOf in Hm.
  pose proof (matches_valid req (rows w) Hm) as Hv.
  pose proof (live_match_has_primary req w Hf Hm) as Hp.
  destruct (primariesOf (candidatesOf req (rows w))) as [|t others] eqn:Ep; [congruence|].
  destruct (identify_cluster_run now req w t others Hnf Hv Hm Ep) as (t' & Ht' & E).
  apply find_hasId_id in Ht'. destruct Ht' as [Hid _].
  exists (responseOf t' (membersOf now req w t others)), (worldAfter now req w t others).
  split; [exact E|].
  assert (In t (candidatesOf req (rows w)) /\ isPrimary t = true) as [Htc Htp].
  { apply primariesOf_In. rewrite Ep. left. reflexivity. }
  assert (forall c, isPrimary c = true <-> Contact.linkPrecedence c = primary) as Hprim.
  { intros c. unfold isPrimary. destruct (Contact.linkPrecedence c); split; congruence. }
  split.
  - exists t. split; [apply specCluster_candidates; auto|].
    split; [apply Hprim; exact Htp|]. split; [symmetry; exact Hid|].
    intros p Hpc Hpp. apply (truePrimary_earliest req (rows w) t others p Ep).
    + apply specCluster_candidates in Hpc; auto.
    + apply Hprim. exact Hpp.
  - cbn [responseOf IdentifyResponse.primaryContactId]. rewrite Hid.
    subst cluster email phoneNumber.
    rewrite <- (createsSecondary_specCreates now req w t others Hf Hm Ep).
    unfold worldAfter. destruct (createsFor now req w t others); cbn [rows log].
    + split.
      * change (creations (CallCreate (secondaryFor now req w t)
                          :: resolveCalls others ++ CallFindMany :: CallFindMany :: log w))
          with (secondaryFor now req w t
                :: creations (resolveCalls others ++ CallFindMany :: CallFindMany :: log w)).
        rewrite creations_app, creations_resolveCalls. reflexivity.
      * exists (mergeRows now (Contact.id t) others (rows w)). split; [reflexivity|].
        apply mergeRows_ids.
    + split.
      * rewrite creations_app, creations_resolveCalls. reflexivity.
      * apply mergeRows_ids.
Qed.

Lemma secondary_created_witness :
  let p := Contact.mk 1 (Some "a@x.com"%string) (Some "111"%string) None primary 10 10 None in
  let w := mkWorld [p] 2 [] None in
  let req := IdentifyRequest.mk (Some "b@x.com"%string) (Some "111"%string) in
  let c := Contact.mk 2 (Some "b@x.com"%string) (Some "111"%string) (Some 1) secondary 20 20 None in
  liveForest w = true /\
  specCluster (Some "b@x.com"%string) (Some "111"%string) (rows w) = [p] /\
  specCreates (Some "b@x.com"%string) (Some "111"%string) [p] = true /\
  rows (snd (identifyContact 20 req w)) = [p; c] /\
  exists resp w',
    identifyContact 20 req w = (inr resp, w') /\
    creations (log w') =
    [Contact.mk 2 (Some "b@x.com"%string) (Some "111"%string)
                (Some (IdentifyResponse.primaryContactId resp)) secondary 20 20 None].
Proof.
  intros p w req c. split; [reflexivity|]. split; [reflexivity|].
  split; [reflexivity|]. split; [reflexivity|].
  destruct (secondary_created_iff_new_pairing 20 req w eq_refl eq_refl)
    as (resp & w' & E & _ & H).
  { discriminate. }
  exists resp, w'. split; [exact E|].
  cbv zeta in H.
  assert (specCreates (IdentifyRequest.email req) (IdentifyRequest.phoneNumber req)
            (specCluster (IdentifyRequest.email req) (IdentifyRequest.phoneNumber req)
                         (rows w)) = true) as Hs by reflexivity.
  rewrite Hs in H. destruct H as [H _]. exact H.
Defined.

(** Matches exist, the request supplies both identifiers and its phone
    number is in no member of the cluster, and no contact is created: the
    match is a live secondary whose primary is tombstoned, the candidates
    hold no primary, and the read of [truePrimary.id] at line 172 throws
    before the [create]. *)
Lemma new_pairing_without_primary_creates_nothing :
  let d := Contact.mk 1 (Some "a@x.com"%string) None None primary 10 10 (Some 15) in
  let s := Contact.mk 2 (Some "b@x.com"%string) (Some "111"%string) (Some 1) secondary 20 20 None in
  let w := mkWorld [d; s] 3 [] None in
  let req := IdentifyRequest.mk (Some "b@x.com"%string) (Some "999"%string) in
  forest w = true /\
  secondariesLinked w = true /\
  filter (specMatch (Some "b@x.com"%string) (Some "999"%string)) (rows w) = [s] /\
  specCluster (Some "b@x.com"%string) (Some "999"%string) (rows w) = [s] /\
  specCreates (Some "b@x.com"%string) (Some "999"%string) [s] = true /\
  fst (identifyContact 30 req w) = inl TypeError /\
  rows (snd (identifyContact 30 req w)) = rows w /\
  creations (log (snd (identifyContact 30 req w))) = [].
Proof. intros d s w req. repeat split. Qed.

